(** * ABAP [SELECT *] analyzer / remediator: a shallow embedding of [app.py]

    The program works by lexical pattern matching.  Its regular expressions
    are kept as syntax trees and run by a backtracking matcher that follows
    the priority rules of Python's [re] module (leftmost start, greedy and
    lazy repetition, first alternative first).

    Text is a sequence of characters with code points below 256; the
    character classes [\s], [\w], the case folding of [re.IGNORECASE] and
    [str.lower] are those of Python on that range. *)

From Stdlib Require Import Ascii String List Arith Bool Lia ZArith.
From Stdlib Require Import Permutation Sorted.
Import ListNotations.
Open Scope list_scope.

(* ================================================================== *)
(** * Characters and strings *)

Definition str := list ascii.

Definition s2l (s : string) : str := list_ascii_of_string s.

Definition in_range (lo hi : nat) (c : ascii) : bool :=
  let n := nat_of_ascii c in (lo <=? n) && (n <=? hi).

(** [str.isspace] and the class [\s]. *)
Definition is_space (c : ascii) : bool :=
  in_range 9 13 c || in_range 28 32 c || in_range 133 133 c
  || in_range 160 160 c.

(** The class [[A-Za-z0-9_]]. *)
Definition is_ident (c : ascii) : bool :=
  in_range 48 57 c || in_range 65 90 c || in_range 95 95 c
  || in_range 97 122 c.

(** The class [\w]: alphanumeric characters and the underscore. *)
Definition is_word (c : ascii) : bool :=
  is_ident c || in_range 170 170 c || in_range 178 179 c
  || in_range 181 181 c || in_range 185 186 c || in_range 188 190 c
  || in_range 192 214 c || in_range 216 246 c || in_range 248 255 c.

Definition is_upper (c : ascii) : bool :=
  in_range 65 90 c || in_range 192 214 c || in_range 216 222 c.

(** [str.lower] on one character. *)
Definition lower (c : ascii) : ascii :=
  if is_upper c then ascii_of_nat (nat_of_ascii c + 32) else c.

Definition lower_str (s : str) : str := map lower s.

Fixpoint str_eqb (a b : str) : bool :=
  match a, b with
  | [], [] => true
  | x :: a', y :: b' => Ascii.eqb x y && str_eqb a' b'
  | _, _ => false
  end.

(** Lexicographic order on code points, the order of [sorted] on strings. *)
Fixpoint str_leb (a b : str) : bool :=
  match a, b with
  | [], _ => true
  | _ :: _, [] => false
  | x :: a', y :: b' =>
      if nat_of_ascii x <? nat_of_ascii y then true
      else if nat_of_ascii y <? nat_of_ascii x then false
      else str_leb a' b'
  end.

Definition str_ltb (a b : str) : bool := negb (str_leb b a).

(* ================================================================== *)
(** * Regular expressions *)

Inductive cset : Type :=
| Space              (* \s *)
| Word               (* \w *)
| Any                (* .  under re.DOTALL *)
| Ident              (* [A-Za-z0-9_] *)
| NotChr (c : ascii) (* [^c] *).

Definition cset_mem (p : cset) (c : ascii) : bool :=
  match p with
  | Space => is_space c
  | Word => is_word c
  | Any => true
  | Ident => is_ident c
  | NotChr x => negb (Ascii.eqb x c)
  end.

Inductive regex : Type :=
| Eps
| Lit (c : ascii)                 (* a literal character *)
| Cls (p : cset)                  (* one character of a class *)
| Cat (r1 r2 : regex)             (* r1 r2 *)
| Alt (r1 r2 : regex)             (* r1|r2 *)
| Opt (r : regex)                 (* (?:r)? *)
| Star (p : cset)                 (* p*  greedy *)
| LazyStar (p : cset)             (* p*? *)
| Grp (name : string) (r : regex) (* (?P<name>r) *)
| WordB                           (* \b *)
| NotAhead (r : regex)            (* (?!r) *)
| NotBehind (p : cset)            (* (?<!p) *).

Declare Scope regex_scope.
Delimit Scope regex_scope with re.
Bind Scope regex_scope with regex.
Infix ";;" := Cat (at level 60, right associativity) : regex_scope.

(** [p+] *)
Definition Plus (p : cset) : regex := Cat (Cls p) (Star p).

(** A run of literal characters, as produced by [re.escape]. *)
Fixpoint lits (s : str) : regex :=
  match s with
  | [] => Eps
  | c :: s' => Cat (Lit c) (lits s')
  end.

Definition kw (s : string) : regex := lits (s2l s).

(** The matcher's position: the character before it (for [\b] and
    look-behind), the text still to read, and the groups captured so far. *)
Record mstate : Type := MState {
  before : option ascii;
  rest : str;
  caps : list (string * str)
}.

Definition chr_eq (ic : bool) (c x : ascii) : bool :=
  if ic then Ascii.eqb (lower c) (lower x) else Ascii.eqb c x.

Definition word_opt (o : option ascii) : bool :=
  match o with Some c => is_word c | None => false end.

Definition at_boundary (s : mstate) : bool :=
  xorb (word_opt (before s)) (word_opt (hd_error (rest s))).

Fixpoint star_greedy {A : Type} (p : cset) (k : mstate -> option A)
    (b : option ascii) (l : str) (g : list (string * str)) : option A :=
  match l with
  | c :: l' =>
      if cset_mem p c then
        match star_greedy p k (Some c) l' g with
        | Some a => Some a
        | None => k (MState b l g)
        end
      else k (MState b l g)
  | [] => k (MState b l g)
  end.

Fixpoint star_lazy {A : Type} (p : cset) (k : mstate -> option A)
    (b : option ascii) (l : str) (g : list (string * str)) : option A :=
  match k (MState b l g) with
  | Some a => Some a
  | None =>
      match l with
      | c :: l' => if cset_mem p c then star_lazy p k (Some c) l' g else None
      | [] => None
      end
  end.

(** Backtracking matcher in continuation-passing style: [rmatch ic r k s]
    tries the ways [r] can match at [s] in Python's priority order and
    returns the first for which the continuation [k] succeeds. *)
Fixpoint rmatch (ic : bool) (r : regex) (A : Type)
    (k : mstate -> option A) (s : mstate) {struct r} : option A :=
  match r with
  | Eps => k s
  | Lit c =>
      match rest s with
      | x :: l' =>
          if chr_eq ic c x then k (MState (Some x) l' (caps s)) else None
      | [] => None
      end
  | Cls p =>
      match rest s with
      | x :: l' =>
          if cset_mem p x then k (MState (Some x) l' (caps s)) else None
      | [] => None
      end
  | Cat r1 r2 => rmatch ic r1 A (rmatch ic r2 A k) s
  | Alt r1 r2 =>
      match rmatch ic r1 A k s with
      | Some a => Some a
      | None => rmatch ic r2 A k s
      end
  | Opt r1 =>
      match rmatch ic r1 A k s with
      | Some a => Some a
      | None => k s
      end
  | Star p => star_greedy p k (before s) (rest s) (caps s)
  | LazyStar p => star_lazy p k (before s) (rest s) (caps s)
  | Grp n r1 =>
      rmatch ic r1 A
        (fun s' =>
           k (MState (before s') (rest s')
                ((n, firstn (length (rest s) - length (rest s')) (rest s))
                   :: caps s')))
        s
  | WordB => if at_boundary s then k s else None
  | NotAhead r1 =>
      match rmatch ic r1 unit (fun _ => Some tt) s with
      | Some _ => None
      | None => k s
      end
  | NotBehind p =>
      match before s with
      | Some c => if cset_mem p c then None else k s
      | None => k s
      end
  end.

(** A match object: [span(0)] and the named groups. *)
Record match_obj : Type := Match {
  m_start : nat;
  m_end : nat;
  m_groups : list (string * str)
}.

Fixpoint assoc_str (n : string) (g : list (string * str)) : option str :=
  match g with
  | [] => None
  | (n', v) :: g' => if String.eqb n n' then Some v else assoc_str n g'
  end.

(** [m.group(name)], for a group that took part in the match. *)
Definition group (m : match_obj) (n : string) : str :=
  match assoc_str n (m_groups m) with Some v => v | None => [] end.

Definition match_at (ic : bool) (r : regex) (b : option ascii) (l : str)
    (pos : nat) : option match_obj :=
  rmatch ic r match_obj
    (fun s' => Some (Match pos (pos + (length l - length (rest s'))) (caps s')))
    (MState b l []).

(** [pattern.search]: the first position, from the left, where the pattern
    matches. *)
Fixpoint search_from (ic : bool) (r : regex) (b : option ascii) (l : str)
    (pos : nat) : option match_obj :=
  match match_at ic r b l pos with
  | Some m => Some m
  | None =>
      match l with
      | c :: l' => search_from ic r (Some c) l' (S pos)
      | [] => None
      end
  end.

Definition re_search (ic : bool) (r : regex) (txt : str) : option match_obj :=
  search_from ic r None txt 0.

(** [pattern.finditer]: successive non-overlapping matches.  [skip] counts
    the characters still covered by the previous match.  Every pattern of
    the program consumes at least a keyword, so empty matches do not arise;
    after one the scan simply moves on by a character. *)
Fixpoint finditer_from (ic : bool) (r : regex) (b : option ascii) (l : str)
    (pos skip : nat) : list match_obj :=
  match skip with
  | S n =>
      match l with
      | c :: l' => finditer_from ic r (Some c) l' (S pos) n
      | [] => []
      end
  | O =>
      match match_at ic r b l pos with
      | Some m =>
          m :: match l with
               | c :: l' =>
                   finditer_from ic r (Some c) l' (S pos) (m_end m - pos - 1)
               | [] => []
               end
      | None =>
          match l with
          | c :: l' => finditer_from ic r (Some c) l' (S pos) 0
          | [] => []
          end
      end
  end.

Definition finditer (ic : bool) (r : regex) (txt : str) : list match_obj :=
  finditer_from ic r None txt 0 0.

(** [pattern.sub(repl, txt)] for a replacement text without backslashes,
    which is then inserted as it is. *)
Fixpoint sub_from (ic : bool) (r : regex) (repl : str) (b : option ascii)
    (l : str) (skip : nat) : str :=
  match skip with
  | S n =>
      match l with
      | c :: l' => sub_from ic r repl (Some c) l' n
      | [] => []
      end
  | O =>
      match match_at ic r b l 0 with
      | Some m =>
          repl ++ match l with
                  | c :: l' =>
                      if m_end m =? 0 then c :: sub_from ic r repl (Some c) l' 0
                      else sub_from ic r repl (Some c) l' (m_end m - 1)
                  | [] => []
                  end
      | None =>
          match l with
          | c :: l' => c :: sub_from ic r repl (Some c) l' 0
          | [] => []
          end
      end
  end.

Definition re_sub (ic : bool) (r : regex) (repl txt : str) : str :=
  sub_from ic r repl None txt 0.

(** [re.sub(pattern, repl, txt, count=1)] for a replacement text without
    backslash, which [re.sub] inserts as it is (with a backslash the text is
    read as a template with escapes). *)
Definition re_sub1 (ic : bool) (r : regex) (repl txt : str) : str :=
  match re_search ic r txt with
  | Some m => firstn (m_start m) txt ++ repl ++ skipn (m_end m) txt
  | None => txt
  end.

(* ================================================================== *)
(** * Python built-ins used by the program *)

Fixpoint lstrip (s : str) : str :=
  match s with
  | c :: s' => if is_space c then lstrip s' else s
  | [] => []
  end.

(** [s.strip()] *)
Definition strip (s : str) : str := rev (lstrip (rev (lstrip s))).

(** [s.endswith(".")] *)
Definition endswith_dot (s : str) : bool :=
  match rev s with
  | c :: _ => Ascii.eqb c "."
  | [] => false
  end.

(** [sep.join(l)] *)
Fixpoint join (sep : str) (l : list str) : str :=
  match l with
  | [] => []
  | [x] => x
  | x :: l' => x ++ sep ++ join sep l'
  end.

Fixpoint insert_sorted (x : str) (l : list str) : list str :=
  match l with
  | [] => [x]
  | y :: l' => if str_leb x y then x :: l else y :: insert_sorted x l'
  end.

(** [sorted(l)] on strings *)
Fixpoint sorted (l : list str) : list str :=
  match l with
  | [] => []
  | x :: l' => insert_sorted x (sorted l')
  end.

Definition mem_str (x : str) (l : list str) : bool := existsb (str_eqb x) l.

(** [s.add(x)] on a set of strings, kept as a duplicate-free list in some
    iteration order. *)
Definition set_add (x : str) (l : list str) : list str :=
  if mem_str x l then l else l ++ [x].

(** [s |= t] *)
Definition set_union (s t : list str) : list str :=
  fold_left (fun acc x => set_add x acc) t s.

Definition is_some {A : Type} (o : option A) : bool :=
  match o with Some _ => true | None => false end.

Definition nonempty {A : Type} (l : list A) : bool :=
  match l with [] => false | _ :: _ => true end.

(** [txt[a:b]] for [0 <= a <= b] *)
Definition slice (a b : nat) (txt : str) : str := firstn (b - a) (skipn a txt).

(* ================================================================== *)
(** * The program *)

Open Scope regex_scope.

(** The patterns below are compiled with [re.IGNORECASE] (and
    [SELECT_STAR_RE] with [re.DOTALL] and [re.VERBOSE]); only the pattern
    built from [STRUCT_FIELD_RE_TMPL] is compiled without flags.

    SELECT_STAR_RE:
    (?P<full> SELECT\s+(?:SINGLE\s+)?\*\s+FROM\s+(?P<table>\w+)
              (?P<body>.*?) \. ) *)
Definition SELECT_STAR_RE : regex :=
  Grp "full"
    (kw "SELECT" ;; Plus Space ;; Opt (kw "SINGLE" ;; Plus Space) ;;
     Lit "*" ;; Plus Space ;; kw "FROM" ;; Plus Space ;;
     Grp "table" (Plus Word) ;;
     Grp "body" (LazyStar Any) ;;
     Lit ".").

(** \bINTO\s+TABLE\s+(?P<name>\w+)\b *)
Definition INTO_TABLE_RE : regex :=
  WordB ;; kw "INTO" ;; Plus Space ;; kw "TABLE" ;; Plus Space ;;
  Grp "name" (Plus Word) ;; WordB.

(** \bINTO\s+(?!TABLE\b)(?P<name>\w+)\b *)
Definition INTO_WA_RE : regex :=
  WordB ;; kw "INTO" ;; Plus Space ;; NotAhead (kw "TABLE" ;; WordB) ;;
  Grp "name" (Plus Word) ;; WordB.

(** LOOP\s+AT\s+(?P<itab>\w+)\s+INTO\s+(?P<wa>\w+)\s*\. *)
Definition LOOP_INTO_RE : regex :=
  kw "LOOP" ;; Plus Space ;; kw "AT" ;; Plus Space ;;
  Grp "itab" (Plus Word) ;; Plus Space ;; kw "INTO" ;; Plus Space ;;
  Grp "wa" (Plus Word) ;; Star Space ;; Lit ".".

(** LOOP\s+AT\s+(?P<itab>\w+)\s+ASSIGNING\s+<(?P<fs>\w+)>\s*\. *)
Definition LOOP_ASSIGNING_RE : regex :=
  kw "LOOP" ;; Plus Space ;; kw "AT" ;; Plus Space ;;
  Grp "itab" (Plus Word) ;; Plus Space ;; kw "ASSIGNING" ;; Plus Space ;;
  Lit "<" ;; Grp "fs" (Plus Word) ;; Lit ">" ;; Star Space ;; Lit ".".

(** READ\s+TABLE\s+(?P<itab>\w+)[^\.]*\s+INTO\s+(?P<wa>\w+)\s*\. *)
Definition READ_TABLE_INTO_RE : regex :=
  kw "READ" ;; Plus Space ;; kw "TABLE" ;; Plus Space ;;
  Grp "itab" (Plus Word) ;; Star (NotChr ".") ;; Plus Space ;;
  kw "INTO" ;; Plus Space ;; Grp "wa" (Plus Word) ;; Star Space ;; Lit ".".

(** READ\s+TABLE\s+(?P<itab>\w+)[^\.]*\s+ASSIGNING\s+<(?P<fs>\w+)>\s*\. *)
Definition READ_TABLE_ASSIGNING_RE : regex :=
  kw "READ" ;; Plus Space ;; kw "TABLE" ;; Plus Space ;;
  Grp "itab" (Plus Word) ;; Star (NotChr ".") ;; Plus Space ;;
  kw "ASSIGNING" ;; Plus Space ;;
  Lit "<" ;; Grp "fs" (Plus Word) ;; Lit ">" ;; Star Space ;; Lit ".".

(** ASSIGN\s+(?P<itab>\w+)\s*\[[^\]]*\]\s+TO\s+<(?P<fs>\w+)>\s*\. *)
Definition ASSIGN_FS_ITAB_RE : regex :=
  kw "ASSIGN" ;; Plus Space ;; Grp "itab" (Plus Word) ;; Star Space ;;
  Lit "[" ;; Star (NotChr "]") ;; Lit "]" ;; Plus Space ;; kw "TO" ;;
  Plus Space ;; Lit "<" ;; Grp "fs" (Plus Word) ;; Lit ">" ;;
  Star Space ;; Lit ".".

(** LOOP\s+AT\s+(?P<itab>\w+)\s*\. *)
Definition HEADER_LINE_LOOP_RE : regex :=
  kw "LOOP" ;; Plus Space ;; kw "AT" ;; Plus Space ;;
  Grp "itab" (Plus Word) ;; Star Space ;; Lit ".".

(** [STRUCT_FIELD_RE_TMPL.format(name=re.escape(n))]:
    (?<![A-Za-z0-9_]){name}-(?P<field>[A-Za-z0-9_]+)(?![A-Za-z0-9_]) *)
Definition STRUCT_FIELD_RE (n : str) : regex :=
  NotBehind Ident ;; lits n ;; Lit "-" ;; Grp "field" (Plus Ident) ;;
  NotAhead (Cls Ident).

(** The pattern of the ambiguity heuristic for the name [n]:
    ASSIGN\s+COMPONENT\s+\w+\s+OF\s+STRUCTURE\s+ , [re.escape(n)] and \b *)
Definition ASSIGN_COMPONENT_RE (n : str) : regex :=
  kw "ASSIGN" ;; Plus Space ;; kw "COMPONENT" ;; Plus Space ;; Plus Word ;;
  Plus Space ;; kw "OF" ;; Plus Space ;; kw "STRUCTURE" ;; Plus Space ;;
  lits n ;; WordB.

(** The head searched by [build_replacement_stmt]:
    SELECT\s+(?:SINGLE\s+)?\*\s+FROM\s+\w+ *)
Definition HEAD_RE : regex :=
  kw "SELECT" ;; Plus Space ;; Opt (kw "SINGLE" ;; Plus Space) ;;
  Lit "*" ;; Plus Space ;; kw "FROM" ;; Plus Space ;; Plus Word.

Close Scope regex_scope.

Record Unit : Type := mkUnit {
  pgm_name : str;
  inc_name : str;
  type : str;
  name : option str;
  class_implementation : option str;
  start_line : option Z;
  end_line : option Z;
  code : option str
}.

(** The text of a unit, empty when [code] is absent. *)
Definition code_or_empty (u : Unit) : str :=
  match code u with Some c => c | None => [] end.

Inductive target_kind : Type := itab | wa | implicit.

(** One entry of [find_selects]. *)
Record select : Type := mkSelect {
  sel_text : str;
  sel_table : str;
  sel_target_type : target_kind;
  sel_target_name : str;
  sel_span : nat * nat
}.

Definition select_of_match (m : match_obj) : select :=
  let full := group m "full" in
  let table := group m "table" in
  let body := group m "body" in
  let mi_tab := re_search true INTO_TABLE_RE body in
  let mi_wa :=
    match mi_tab with
    | None => re_search true INTO_WA_RE body
    | Some _ => None
    end in
  match mi_tab with
  | Some mt => mkSelect full table itab (group mt "name") (m_start m, m_end m)
  | None =>
      match mi_wa with
      | Some mw => mkSelect full table wa (group mw "name") (m_start m, m_end m)
      | None => mkSelect full table implicit table (m_start m, m_end m)
      end
  end.

Definition find_selects (txt : str) : list select :=
  map select_of_match (finditer true SELECT_STAR_RE txt).

(** The alias dictionary: owner -> set of aliases. *)
Definition alias_map := list (str * list str).

(** [aliases.setdefault(owner, set()).add(alias)] *)
Fixpoint add_alias (owner alias : str) (d : alias_map) : alias_map :=
  match d with
  | [] => [(owner, set_add alias [])]
  | (o, s) :: d' =>
      if str_eqb o owner then (o, set_add alias s) :: d'
      else (o, s) :: add_alias owner alias d'
  end.

(** [aliases.get(owner, set())] *)
Fixpoint aliases_get (d : alias_map) (owner : str) : list str :=
  match d with
  | [] => []
  | (o, s) :: d' => if str_eqb o owner then s else aliases_get d' owner
  end.

Definition fs_name (fs : str) : str := s2l "<" ++ fs ++ s2l ">".

Definition add_matches (r : regex) (alias_of : match_obj -> str)
    (source : str) (d : alias_map) : alias_map :=
  fold_left (fun d m => add_alias (group m "itab") (alias_of m) d)
    (finditer true r source) d.

Definition build_aliases (source : str) : alias_map :=
  let d := add_matches LOOP_INTO_RE (fun m => group m "wa") source [] in
  let d := add_matches LOOP_ASSIGNING_RE
             (fun m => fs_name (group m "fs")) source d in
  let d := add_matches READ_TABLE_INTO_RE (fun m => group m "wa") source d in
  let d := add_matches READ_TABLE_ASSIGNING_RE
             (fun m => fs_name (group m "fs")) source d in
  let d := add_matches ASSIGN_FS_ITAB_RE
             (fun m => fs_name (group m "fs")) source d in
  add_matches HEADER_LINE_LOOP_RE (fun m => group m "itab") source d.

(** The two loops [for n in names] of [collect_used_fields], run over the
    names in the order [names]. *)
Definition scan_names (flat_source : str) (names : list str)
    : list str * bool :=
  let ambiguous :=
    existsb (fun n => is_some (re_search true (ASSIGN_COMPONENT_RE n) flat_source))
      names in
  let fields :=
    fold_left
      (fun fields n =>
         fold_left (fun fields m => set_add (lower_str (group m "field")) fields)
           (finditer false (STRUCT_FIELD_RE n) flat_source) fields)
      names [] in
  (fields, ambiguous).

(** The order in which a Python set yields its elements is not specified
    (for strings it changes with the hash seed).  A set is kept as a
    duplicate-free list and every iteration over a set goes through [iter],
    which stands for that order. *)
Definition iteration_order (iter : list str -> list str) : Prop :=
  forall l, Permutation (iter l) l.

Section Program.

Variable iter : list str -> list str.

(** The set [names] of [collect_used_fields]. *)
Definition candidate_names (table : str) (target_type : target_kind)
    (target_name : str) (aliases : alias_map) : list str :=
  match target_type with
  | implicit => set_add table []
  | itab =>
      set_union (set_add target_name [])
        (iter (aliases_get aliases target_name))
  | wa => set_add target_name []
  end.

Definition collect_used_fields (flat_source select_stmt_text table : str)
    (target_type : target_kind) (target_name : str) (aliases : alias_map)
    : list str * bool :=
  scan_names flat_source
    (iter (candidate_names table target_type target_name aliases)).

Definition nl : str := s2l (String "010" EmptyString).

Definition build_replacement_stmt (sel_text table : str) (fields : list str)
    (target_type : target_kind) (target_name : str) : str :=
  match re_search true HEAD_RE sel_text with
  | None => sel_text
  | Some head_m =>
      let head := slice (m_start head_m) (m_end head_m) sel_text in
      let explicit :=
        if nonempty fields then join (s2l " ") (sorted fields) else s2l "*" in
      let head := re_sub1 false (Lit "*") explicit head in
      let body := skipn (m_end head_m) sel_text in
      let body := if endswith_dot body then removelast body else body in
      let into_cf :=
        match target_type with
        | itab => Some (s2l "INTO CORRESPONDING FIELDS OF TABLE " ++ target_name)
        | wa => Some (s2l "INTO CORRESPONDING FIELDS OF " ++ target_name)
        | implicit => None
        end in
      let body_wo_into := re_sub true INTO_TABLE_RE [] body in
      let body_wo_into := re_sub true INTO_WA_RE [] body_wo_into in
      let parts := strip body_wo_into in
      match into_cf with
      | Some cf =>
          if nonempty parts
          then head ++ parts ++ nl ++ s2l "  " ++ cf ++ s2l "."
          else head ++ nl ++ s2l "  " ++ cf ++ s2l "."
      | None => head ++ parts ++ s2l "."
      end
  end.

Definition replacement := ((nat * nat) * str)%type.

(** Stable insertion by descending start offset:
    [sorted(repls, key=lambda x: x[0][0], reverse=True)]. *)
Fixpoint insert_desc (x : replacement) (l : list replacement)
    : list replacement :=
  match l with
  | [] => [x]
  | y :: l' =>
      if fst (fst x) <? fst (fst y) then y :: insert_desc x l' else x :: l
  end.

Fixpoint sort_desc (l : list replacement) : list replacement :=
  match l with
  | [] => []
  | x :: l' => insert_desc x (sort_desc l')
  end.

Definition apply_span_replacements (source : str) (repls : list replacement)
    : str :=
  fold_left
    (fun out x => firstn (fst (fst x)) out ++ snd x ++ skipn (snd (fst x)) out)
    (sort_desc repls) source.

Definition concat_units (units : list Unit) : str :=
  flat_map (fun u => code_or_empty u ++ nl) units.

(** One entry of the [selects] list in the output of [analyze_array]. *)
Record finding : Type := mkFinding {
  table : str;
  target_type : target_kind;
  target_name : str;
  start_char_in_unit : nat;
  end_char_in_unit : nat;
  used_fields : list str;
  ambiguous : bool;
  suggested_fields : option (list str);
  suggested_statement : option str
}.

Definition analyze_select (flat_source : str) (aliases : alias_map)
    (sel : select) : finding :=
  let '(used, amb) :=
    collect_used_fields flat_source (sel_text sel) (sel_table sel)
      (sel_target_type sel) (sel_target_name sel) aliases in
  let suggested_fields :=
    if nonempty used && negb amb then Some (sorted (iter used)) else None in
  let suggested_stmt :=
    match suggested_fields with
    | Some (f :: fs) =>
        Some (build_replacement_stmt (sel_text sel) (sel_table sel) (f :: fs)
                (sel_target_type sel) (sel_target_name sel))
    | _ => None
    end in
  mkFinding (sel_table sel) (sel_target_type sel) (sel_target_name sel)
    (fst (sel_span sel)) (snd (sel_span sel)) (sorted (iter used)) amb
    suggested_fields suggested_stmt.

(** A unit of the response of [analyze_array]: the unit echoed, with its
    findings. *)
Record analysis : Type := mkAnalysis {
  a_unit : Unit;
  selects : list finding
}.

Definition analyze_array (units : list Unit) : list analysis :=
  let flat_source := concat_units units in
  let aliases := build_aliases flat_source in
  map (fun u =>
         mkAnalysis u
           (map (analyze_select flat_source aliases)
              (find_selects (code_or_empty u))))
    units.

(** The list [replacements] that [remediate_array] builds for one unit. *)
Definition replacements_of (flat_source : str) (aliases : alias_map)
    (src : str) : list replacement :=
  flat_map
    (fun sel =>
       let '(used, amb) :=
         collect_used_fields flat_source (sel_text sel) (sel_table sel)
           (sel_target_type sel) (sel_target_name sel) aliases in
       if nonempty used && negb amb then
         [(sel_span sel,
           build_replacement_stmt (sel_text sel) (sel_table sel)
             (sorted (iter used))
             (sel_target_type sel) (sel_target_name sel))]
       else [])
    (find_selects src).

Record remediation : Type := mkRemediation {
  r_unit : Unit;
  remediated_code : str
}.

Definition remediate_array (units : list Unit) : list remediation :=
  let flat_source := concat_units units in
  let aliases := build_aliases flat_source in
  map (fun u =>
         let src := code_or_empty u in
         mkRemediation u
           (apply_span_replacements src (replacements_of flat_source aliases src)))
    units.

End Program.

(* ================================================================== *)
(** * What a pattern matches *)

Fixpoint lastc (b : option ascii) (w : str) : option ascii :=
  match w with
  | [] => b
  | c :: w' => lastc (Some c) w'
  end.

(** [reads s w s']: from [s] exactly the characters [w] are read, which
    leads to [s'] with the captured groups unchanged. *)
Definition reads (s : mstate) (w : str) (s' : mstate) : Prop :=
  rest s = w ++ rest s' /\ before s' = lastc (before s) w /\ caps s' = caps s.

(** [Matches ic r s s']: the pattern [r] can match from [s] to [s'],
    whatever the priority of that way of matching. *)
Fixpoint Matches (ic : bool) (r : regex) (s s' : mstate) {struct r} : Prop :=
  match r with
  | Eps => s' = s
  | Lit c => exists x, chr_eq ic c x = true /\ reads s [x] s'
  | Cls p => exists x, cset_mem p x = true /\ reads s [x] s'
  | Cat r1 r2 => exists s1, Matches ic r1 s s1 /\ Matches ic r2 s1 s'
  | Alt r1 r2 => Matches ic r1 s s' \/ Matches ic r2 s s'
  | Opt r1 => Matches ic r1 s s' \/ s' = s
  | Star p => exists w, forallb (cset_mem p) w = true /\ reads s w s'
  | LazyStar p => exists w, forallb (cset_mem p) w = true /\ reads s w s'
  | Grp n r1 =>
      exists s1,
        Matches ic r1 s s1 /\
        s' = MState (before s1) (rest s1)
               ((n, firstn (length (rest s) - length (rest s1)) (rest s))
                  :: caps s1)
  | WordB => at_boundary s = true /\ s' = s
  | NotAhead r1 => (forall s1, ~ Matches ic r1 s s1) /\ s' = s
  | NotBehind p =>
      match before s with
      | Some c => cset_mem p c = false
      | None => True
      end /\ s' = s
  end.

(** The pattern matches at the end of [pre], reading into [l]. *)
Definition occurs_at (ic : bool) (r : regex) (pre l : str) : Prop :=
  exists s', Matches ic r (MState (lastc None pre) l []) s'.

(** The pattern matches somewhere in [txt]. *)
Definition occurs (ic : bool) (r : regex) (txt : str) : Prop :=
  exists pre l, txt = pre ++ l /\ occurs_at ic r pre l.

(** A lower bound on the number of characters a match reads. *)
Fixpoint min_len (r : regex) : nat :=
  match r with
  | Lit _ | Cls _ => 1
  | Cat r1 r2 => min_len r1 + min_len r2
  | Alt r1 r2 => Nat.min (min_len r1) (min_len r2)
  | Grp _ r1 => min_len r1
  | _ => 0
  end.

(** Patterns without assertions: what they match does not depend on the
    text around the match. *)
Fixpoint plain (r : regex) : bool :=
  match r with
  | Eps | Lit _ | Cls _ | Star _ | LazyStar _ => true
  | Cat r1 r2 | Alt r1 r2 => plain r1 && plain r2
  | Opt r1 | Grp _ r1 => plain r1
  | WordB | NotAhead _ | NotBehind _ => false
  end.

(** The words of a plain pattern. *)
Fixpoint lang (ic : bool) (r : regex) (w : str) {struct r} : Prop :=
  match r with
  | Eps => w = []
  | Lit c => exists x, chr_eq ic c x = true /\ w = [x]
  | Cls p => exists x, cset_mem p x = true /\ w = [x]
  | Cat r1 r2 => exists w1 w2, w = w1 ++ w2 /\ lang ic r1 w1 /\ lang ic r2 w2
  | Alt r1 r2 => lang ic r1 w \/ lang ic r2 w
  | Opt r1 => lang ic r1 w \/ w = []
  | Star p | LazyStar p => forallb (cset_mem p) w = true
  | Grp _ r1 => lang ic r1 w
  | WordB | NotAhead _ | NotBehind _ => False
  end.

(** No word of the pattern holds the character [c]. *)
Fixpoint avoids (ic : bool) (c : ascii) (r : regex) : bool :=
  match r with
  | Eps => true
  | Lit x => negb (chr_eq ic x c)
  | Cls p | Star p | LazyStar p => negb (cset_mem p c)
  | Cat r1 r2 | Alt r1 r2 => avoids ic c r1 && avoids ic c r2
  | Opt r1 | Grp _ r1 => avoids ic c r1
  | WordB | NotAhead _ | NotBehind _ => true
  end.

(** The spans of [ms] lie in [lo, hi], in order and without overlap. *)
Fixpoint spans_within (lo hi : nat) (ms : list match_obj) : Prop :=
  match ms with
  | [] => True
  | m :: ms' =>
      lo <= m_start m /\ m_start m <= m_end m /\ m_end m <= hi /\
      spans_within (m_end m) hi ms'
  end.

(* ================================================================== *)
(** * The earlier iteration [app_V2.py]

    Its locator and its harvester, kept for comparison with [app.py]. *)

Module V2.

Open Scope regex_scope.

Definition SELECT_STAR_RE : regex :=
  Grp "full"
    (kw "SELECT" ;; Plus Space ;; Opt (kw "SINGLE" ;; Plus Space) ;;
     Lit "*" ;; Plus Space ;; kw "FROM" ;; Plus Space ;;
     Grp "table" (Plus Word) ;;
     Grp "middle" (LazyStar Any) ;;
     Opt (Alt (kw "INTO" ;; Plus Space ;; kw "TABLE" ;; Plus Space ;;
               Grp "into_tab" (Plus Word))
              (kw "INTO" ;; Plus Space ;; Grp "into_wa" (Plus Word))) ;;
     Grp "tail" (LazyStar Any)) ;;
  Lit ".".

(** [ASSIGN\s+COMPONENT\s+\w+\s+OF\s+STRUCTURE\s+] and the escaped target
    name, without word boundary. *)
Definition ASSIGN_COMPONENT_RE (n : str) : regex :=
  kw "ASSIGN" ;; Plus Space ;; kw "COMPONENT" ;; Plus Space ;; Plus Word ;;
  Plus Space ;; kw "OF" ;; Plus Space ;; kw "STRUCTURE" ;; Plus Space ;;
  lits n.

(** The same access through any field symbol [<\w+>]. *)
Definition ASSIGN_COMPONENT_FS_RE : regex :=
  kw "ASSIGN" ;; Plus Space ;; kw "COMPONENT" ;; Plus Space ;; Plus Word ;;
  Plus Space ;; kw "OF" ;; Plus Space ;; kw "STRUCTURE" ;; Plus Space ;;
  Lit "<" ;; Plus Word ;; Lit ">".

Close Scope regex_scope.

Definition select_of_match (m : match_obj) : select :=
  let into_tab := group m "into_tab" in
  let into_wa := group m "into_wa" in
  if nonempty into_tab then
    mkSelect (group m "full") (group m "table") itab into_tab
      (m_start m, m_end m)
  else if nonempty into_wa then
    mkSelect (group m "full") (group m "table") wa into_wa
      (m_start m, m_end m)
  else
    mkSelect (group m "full") (group m "table") implicit (group m "table")
      (m_start m, m_end m).

Definition find_selects (txt : str) : list select :=
  map select_of_match (finditer true SELECT_STAR_RE txt).

Definition collect_used_fields (iter : list str -> list str) (source : str)
    (target_type : target_kind) (target_name : str) (aliases : alias_map)
    : list str * bool :=
  let names :=
    match target_type with
    | itab =>
        set_union (set_add target_name [])
          (iter (aliases_get aliases target_name))
    | _ => set_add target_name []
    end in
  let ambiguous :=
    match target_type with
    | implicit => false
    | _ => is_some (re_search true (ASSIGN_COMPONENT_RE target_name) source)
    end in
  let ambiguous :=
    match target_type with
    | itab =>
        if is_some (re_search true ASSIGN_COMPONENT_FS_RE source) then true
        else ambiguous
    | _ => ambiguous
    end in
  let fields :=
    fold_left
      (fun fields n =>
         fold_left (fun fields m => set_add (lower_str (group m "field")) fields)
           (finditer true (STRUCT_FIELD_RE n) source) fields)
      (iter names) [] in
  (fields, ambiguous).

(** [\bINTO\b] *)
Definition INTO_WORD_RE : regex := (WordB ;; kw "INTO" ;; WordB)%re.

(** [(?:INTO\s+TABLE\s+\w+|INTO\s+\w+)] *)
Definition INTO_ANY_RE : regex :=
  (Alt (kw "INTO" ;; Plus Space ;; kw "TABLE" ;; Plus Space ;; Plus Word)
       (kw "INTO" ;; Plus Space ;; Plus Word))%re.

(** The replacement texts of [re.sub] are the joined field names and the
    normalized clause.  They are inserted as they are, which is what
    [re.sub] does with a text without backslash: the names the harvester
    collects and the target names the locator reports hold none. *)
Definition build_replacement_stmt (sel_text table : str) (fields : list str)
    (target_type : target_kind) (target_name : str) : str :=
  match re_search true HEAD_RE sel_text with
  | None => sel_text
  | Some head_m =>
      let explicit_list := join (s2l " ") (sorted fields) in
      let head := slice (m_start head_m) (m_end head_m) sel_text in
      let head_repl := re_sub1 false (Lit "*") explicit_list head in
      match target_type with
      | implicit =>
          let body := skipn (length head) sel_text in
          head_repl ++ body
      | _ =>
          let into_clause :=
            match target_type with
            | itab => s2l "INTO CORRESPONDING FIELDS OF TABLE " ++ target_name
            | _ => s2l "INTO CORRESPONDING FIELDS OF " ++ target_name
            end in
          if is_some (re_search true INTO_WORD_RE sel_text) then
            let sel_text_no_head := skipn (length head) sel_text in
            let sel_text_no_head :=
              re_sub true INTO_ANY_RE into_clause sel_text_no_head in
            head_repl ++ sel_text_no_head
          else
            let body := slice (length head) (length sel_text - 1) sel_text in
            head_repl ++ body ++ s2l " " ++ into_clause ++ s2l "."
      end
  end.

End V2.

(* ================================================================== *)
(** * Orders, field names, dynamic access and scenario texts *)

(** The characters of a harvested field name: a-z, 0-9 and the underscore. *)
Definition is_field_char (c : ascii) : bool := is_ident c && negb (is_upper c).

Definition field_name (x : str) : Prop :=
  x <> [] /\ forallb is_field_char x = true.

Definition str_le (a b : str) : Prop := str_leb a b = true.

Definition str_lt (a b : str) : Prop := str_ltb a b = true.

Definition insertion_order (l : list str) : list str := l.

Definition unit_of (c : string) : Unit :=
  mkUnit (s2l "ZPROG") (s2l "ZINC") (s2l "FORM") None None None None
    (Some (s2l c)).

Definition spfli_text : str :=
  s2l "SELECT * FROM spfli INTO wa_spfli. WRITE wa_spfli-carrid. WRITE wa_spfli-connid.".

Definition spfli_upper_text : str :=
  s2l "SELECT * FROM spfli INTO wa_spfli. WRITE WA_SPFLI-CARRID.".

Definition mara_where_text : str :=
  s2l "SELECT * FROM mara WHERE matnr = 'X'. WRITE mara-matnr.".

Definition reverse_order (l : list str) : list str := rev l.

Definition replacement_of_finding (f : finding) : list replacement :=
  match suggested_statement f with
  | Some s => [((start_char_in_unit f, end_char_in_unit f), s)]
  | None => []
  end.

Definition span_before (a b : select) : Prop :=
  fst (sel_span a) < fst (sel_span b) /\ snd (sel_span a) <= fst (sel_span b).

(** Equal up to letter case. *)
Definition same_ic (a b : str) : Prop := lower_str a = lower_str b.

(** A non-empty run of characters of the class [p]. *)
Definition run_of (p : cset) (w : str) : Prop :=
  w <> [] /\ forallb (cset_mem p) w = true.

(** The corpus holds the text [ASSIGN COMPONENT comp OF STRUCTURE n], in any
    letter case and with any white space between the words, and the operand
    [n] ends at a word boundary. *)
Definition assigns_component_of (corpus n : str) : Prop :=
  exists pre k1 b1 k2 b2 comp b3 k3 b4 k4 b5 n' post,
    corpus = pre ++ k1 ++ b1 ++ k2 ++ b2 ++ comp ++ b3 ++ k3 ++ b4 ++ k4 ++
             b5 ++ n' ++ post /\
    same_ic k1 (s2l "ASSIGN") /\ run_of Space b1 /\
    same_ic k2 (s2l "COMPONENT") /\ run_of Space b2 /\
    run_of Word comp /\ run_of Space b3 /\
    same_ic k3 (s2l "OF") /\ run_of Space b4 /\
    same_ic k4 (s2l "STRUCTURE") /\ run_of Space b5 /\
    same_ic n' n /\
    xorb (word_opt (lastc None n')) (word_opt (hd_error post)) = true.

Definition vbak_index_text : str :=
  s2l "SELECT * FROM vbak INTO wa_vbak. WRITE wa_vbak-vbeln. ASSIGN COMPONENT sy-index OF STRUCTURE wa_vbak TO <fs>.".

Definition mara_field_symbol_text : str :=
  s2l "SELECT * FROM mara INTO TABLE it_mara. LOOP AT it_mara ASSIGNING <fs>. ASSIGN COMPONENT lv_name OF STRUCTURE <fs> TO <x>. WRITE <fs>-matnr. ENDLOOP.".

Definition vbak_units : list Unit :=
  [unit_of "SELECT * FROM vbak INTO wa_vbak. WRITE wa_vbak-vbeln.";
   unit_of "ASSIGN COMPONENT lv_name OF STRUCTURE wa_vbak TO <fs>."].

Definition vbak_finding : finding :=
  mkFinding (s2l "vbak") wa (s2l "wa_vbak") 0 32 [s2l "vbeln"] true None None.

Definition mara_fs_units : list Unit :=
  [unit_of "SELECT * FROM mara INTO TABLE it_mara. LOOP AT it_mara INTO wa. WRITE wa-matnr. ENDLOOP. ASSIGN COMPONENT lv OF STRUCTURE <fs> TO <x>."].

Definition single_unit : Unit :=
  unit_of "WRITE w-b. SELECT SINGLE * FROM t INTO w. WRITE: w-B, w-a, w-b.".

Definition single_finding : finding :=
  mkFinding (s2l "t") wa (s2l "w") 11 41 [s2l "a"; s2l "b"] false
    (Some [s2l "a"; s2l "b"])
    (Some (s2l "SELECT SINGLE a b FROM t" ++ nl ++
           s2l "  INTO CORRESPONDING FIELDS OF w.")).

Definition alias_units : list Unit :=
  [unit_of "SELECT * FROM mara INTO TABLE it. LOOP AT it INTO w. READ TABLE it INTO v. WRITE: w-b, v-a."].

Definition two_selects_unit : Unit :=
  unit_of "SELECT * FROM t INTO w. WRITE w-a. SELECT * FROM s INTO v.".

Definition two_selects_analysis : analysis :=
  mkAnalysis two_selects_unit
    [mkFinding (s2l "t") wa (s2l "w") 0 23 [s2l "a"] false (Some [s2l "a"])
       (Some (s2l "SELECT a FROM t" ++ nl ++
              s2l "  INTO CORRESPONDING FIELDS OF w."));
     mkFinding (s2l "s") wa (s2l "v") 35 58 [] false None None].

(* ================================================================== *)
(** * Further notions used for the properties of the components *)

(** Patterns without capturing groups. *)
Fixpoint groupless (r : regex) : bool :=
  match r with
  | Grp _ _ => false
  | Cat r1 r2 | Alt r1 r2 => groupless r1 && groupless r2
  | Opt r1 => groupless r1
  | _ => true
  end.

(** At the place [pre] of the body stands the receiving clause
    [INTO TABLE nm]: INTO starts at a word boundary and the name [nm] is the
    whole word behind TABLE. *)
Definition into_table_clause (body pre nm : str) : Prop :=
  exists k1 b1 k2 b2 post,
    body = pre ++ k1 ++ b1 ++ k2 ++ b2 ++ nm ++ post /\
    word_opt (lastc None pre) = false /\
    same_ic k1 (s2l "INTO") /\ run_of Space b1 /\
    same_ic k2 (s2l "TABLE") /\ run_of Space b2 /\ run_of Word nm /\
    word_opt (hd_error post) = false.

(** At the place [pre] of the body stands the receiving clause [INTO nm]:
    INTO starts at a word boundary and the name [nm] is the whole word
    behind it, which is not the word TABLE. *)
Definition into_clause (body pre nm : str) : Prop :=
  exists k1 b1 post,
    body = pre ++ k1 ++ b1 ++ nm ++ post /\
    word_opt (lastc None pre) = false /\
    same_ic k1 (s2l "INTO") /\ run_of Space b1 /\ run_of Word nm /\
    word_opt (hd_error post) = false /\
    ~ same_ic nm (s2l "TABLE").

(** The leftmost clause of the kind [clause] names [nm]: no clause of the
    kind starts before it, and at its place no other name is read. *)
Definition leftmost_clause (clause : str -> str -> Prop) (nm : str) : Prop :=
  exists pre,
    clause pre nm /\
    forall pre' nm',
      clause pre' nm' ->
      length pre <= length pre' /\ (length pre' = length pre -> nm' = nm).

Definition mara_filter_select : select :=
  mkSelect (s2l "SELECT SINGLE * FROM mara WHERE matnr = p_matnr INTO wa_mara.")
    (s2l "mara") wa (s2l "wa_mara") (8, 69).

Definition mara_filter_text : str :=
  s2l "FORM f. SELECT SINGLE * FROM mara WHERE matnr = p_matnr INTO wa_mara. ENDFORM.".

Definition ident_opt (o : option ascii) : bool :=
  match o with Some c => is_ident c | None => false end.

(** The corpus holds the component access [n-f]: the name [n] as it is
    written, a hyphen and the identifier [f], with no identifier character
    right before or right behind. *)
Definition component_access (corpus n f : str) : Prop :=
  exists pre post,
    corpus = pre ++ n ++ "-"%char :: f ++ post /\
    run_of Ident f /\
    ident_opt (lastc None pre) = false /\
    ident_opt (hd_error post) = false.

(** The candidate names of a target, as a property. *)
Definition candidate (table : str) (tt : target_kind) (tn : str)
    (aliases : alias_map) (n : str) : Prop :=
  match tt with
  | implicit => n = table
  | itab => n = tn \/ In n (aliases_get aliases tn)
  | wa => n = tn
  end.

Definition bukrs_corpus : str :=
  s2l "LOOP AT it_bkpf INTO ls_bkpf. WRITE: ls_bkpf-BUKRS, it_bkpf-belnr. ENDLOOP. ASSIGN COMPONENT 2 OF STRUCTURE ls_bkpf TO <f>.".

(** A match of the rule [r] binds the owner [t] to the alias [a]. *)
Definition rule_binds (r : regex) (alias_of : match_obj -> str)
    (source t a : str) : Prop :=
  exists m,
    In m (finditer true r source) /\ group m "itab" = t /\ alias_of m = a.

(** One of the six scan rules of [build_aliases] binds [t] to [a]. *)
Definition binds (source t a : str) : Prop :=
  rule_binds LOOP_INTO_RE (fun m => group m "wa") source t a \/
  rule_binds LOOP_ASSIGNING_RE (fun m => fs_name (group m "fs")) source t a \/
  rule_binds READ_TABLE_INTO_RE (fun m => group m "wa") source t a \/
  rule_binds READ_TABLE_ASSIGNING_RE (fun m => fs_name (group m "fs"))
    source t a \/
  rule_binds ASSIGN_FS_ITAB_RE (fun m => fs_name (group m "fs")) source t a \/
  rule_binds HEADER_LINE_LOOP_RE (fun m => group m "itab") source t a.

Definition alias_corpus : str :=
  s2l "LOOP AT it_a INTO wa. ENDLOOP. READ TABLE it_a INDEX 1 ASSIGNING <fs>. ASSIGN it_b[ 1 ] TO <g>. LOOP AT it_b. ENDLOOP.".

(** Every group of the pattern encloses a plain pattern whose words all
    satisfy [P]. *)
Fixpoint grp_sound (ic : bool) (P : str -> Prop) (r : regex) : Prop :=
  match r with
  | Grp _ r1 =>
      plain r1 = true /\ (forall w, lang ic r1 w -> P w) /\ grp_sound ic P r1
  | Cat r1 r2 | Alt r1 r2 => grp_sound ic P r1 /\ grp_sound ic P r2
  | Opt r1 => grp_sound ic P r1
  | _ => True
  end.

(** Every match of the pattern sets the group [n]. *)
Fixpoint defines (n : string) (r : regex) : bool :=
  match r with
  | Grp n' r1 => String.eqb n n' || defines n r1
  | Cat r1 r2 => defines n r1 || defines n r2
  | Alt r1 r2 => defines n r1 && defines n r2
  | _ => false
  end.

(** The spans of [repls] are non-empty, lie in [lo, hi], ascend and do not
    overlap. *)
Fixpoint chained (lo hi : nat) (repls : list replacement) : Prop :=
  match repls with
  | [] => True
  | x :: rest =>
      lo <= fst (fst x) /\ fst (fst x) < snd (fst x) /\ snd (fst x) <= hi /\
      chained (snd (fst x)) hi rest
  end.

(** Left-to-right rewriting from offset [pos]: the text between the spans
    is copied, every span gives way to its new text. *)
Fixpoint splice (pos : nat) (src : str) (repls : list replacement) : str :=
  match repls with
  | [] => skipn pos src
  | x :: rest =>
      slice pos (fst (fst x)) src ++ snd x ++ splice (snd (fst x)) src rest
  end.

Definition start_of (x : replacement) : nat := fst (fst x).

Definition two_statement_unit : Unit :=
  unit_of "SELECT * FROM t INTO w. WRITE w-a. SELECT * FROM s INTO v. WRITE v-b.".

Definition newline : ascii := "010"%char.

Definition backslash : ascii := "092"%char.

(** Field names that [re.sub] takes as they are: a replacement text without
    backslash stands for itself. *)
Definition plain_names (fields : list str) : Prop :=
  Forall (fun f => ~ In backslash f) fields.

Definition cross_units : list Unit :=
  [unit_of "SELECT * FROM t INTO w."; unit_of "WRITE w-a."].
Definition V2_into_table_text : str :=
  s2l "SELECT * FROM mara INTO TABLE it_mara. LOOP AT it_mara INTO wa.".

Definition V2_into_table_select : select :=
  mkSelect (s2l "SELECT * FROM mara INTO TABLE it_mara") (s2l "mara")
    implicit (s2l "mara") (0, 38).

(* ================================================================== *)
(** * The matcher finds exactly what the pattern matches *)

Section Matcher.

Variable ic : bool.

Lemma reads_inv s w s' :
  reads s w s' ->
  s' = MState (lastc (before s) w) (rest s') (caps s) /\ rest s = w ++ rest s'.
Proof.
  intros (Hr & Hb & Hc). split; [|exact Hr].
  destruct s' as [b' l' g']; simpl in *. congruence.
Qed.

Lemma reads_intro b w l g :
  reads (MState b (w ++ l) g) w (MState (lastc b w) l g).
Proof. repeat split. Qed.

Lemma star_greedy_sound {A} p (k : mstate -> option A) l :
  forall b g a,
    star_greedy p k b l g = Some a ->
    exists w l', l = w ++ l' /\ forallb (cset_mem p) w = true /\
                 k (MState (lastc b w) l' g) = Some a.
Proof.
  induction l as [|c l IH]; intros b g a H; simpl in H.
  - exists [], []. auto.
  - destruct (cset_mem p c) eqn:Hc.
    + destruct (star_greedy p k (Some c) l g) eqn:Hs.
      * inversion H; subst. destruct (IH _ _ _ Hs) as (w & l' & -> & Hw & Hk).
        exists (c :: w), l'. simpl. rewrite Hc, Hw. auto.
      * exists [], (c :: l). auto.
    + exists [], (c :: l). auto.
Qed.

Lemma star_greedy_complete {A} p (k : mstate -> option A) w :
  forall l' b g,
    forallb (cset_mem p) w = true ->
    k (MState (lastc b w) l' g) <> None ->
    star_greedy p k b (w ++ l') g <> None.
Proof.
  induction w as [|c w IH]; intros l' b g Hw Hk; simpl in *.
  - destruct l' as [|c l']; simpl; auto.
    destruct (cset_mem p c); auto.
    destruct (star_greedy p k (Some c) l' g); [discriminate|auto].
  - apply andb_true_iff in Hw. destruct Hw as [Hc Hw]. rewrite Hc.
    specialize (IH l' (Some c) g Hw Hk).
    destruct (star_greedy p k (Some c) (w ++ l') g); [discriminate|congruence].
Qed.

Lemma star_lazy_sound {A} p (k : mstate -> option A) l :
  forall b g a,
    star_lazy p k b l g = Some a ->
    exists w l', l = w ++ l' /\ forallb (cset_mem p) w = true /\
                 k (MState (lastc b w) l' g) = Some a.
Proof.
  induction l as [|c l IH]; intros b g a H; simpl in H.
  - destruct (k (MState b [] g)) eqn:Hk; [|discriminate].
    inversion H; subst. exists [], []. auto.
  - destruct (k (MState b (c :: l) g)) eqn:Hk.
    + inversion H; subst. exists [], (c :: l). auto.
    + destruct (cset_mem p c) eqn:Hc; [|discriminate].
      destruct (IH _ _ _ H) as (w & l' & -> & Hw & Hk').
      exists (c :: w), l'. simpl. rewrite Hc, Hw. auto.
Qed.

Lemma star_lazy_complete {A} p (k : mstate -> option A) w :
  forall l' b g,
    forallb (cset_mem p) w = true ->
    k (MState (lastc b w) l' g) <> None ->
    star_lazy p k b (w ++ l') g <> None.
Proof.
  induction w as [|c w IH]; intros l' b g Hw Hk; simpl in *.
  - destruct l' as [|c l']; simpl;
      destruct (k (MState b _ g)); try discriminate; congruence.
  - apply andb_true_iff in Hw. destruct Hw as [Hc Hw]. rewrite Hc.
    destruct (k (MState b (c :: w ++ l') g)); [discriminate|].
    apply IH; auto.
Qed.

(** Soundness and completeness of the matcher with respect to [Matches]. *)
Lemma rmatch_spec (r : regex) :
  forall (A : Type) (k : mstate -> option A) (s : mstate),
    (forall a, rmatch ic r A k s = Some a ->
               exists s', Matches ic r s s' /\ k s' = Some a) /\
    (forall s', Matches ic r s s' -> k s' <> None ->
                rmatch ic r A k s <> None).
Proof.
  induction r as [|c|p|r1 IH1 r2 IH2|r1 IH1 r2 IH2|r1 IH1|p|p|n r1 IH1|
                  |r1 IH1|p]; intros A k s; simpl.
  - (* Eps *)
    split; [intros a H; eauto | intros s' -> H; exact H].
  - (* Lit *)
    split.
    + intros a H. destruct s as [b l g]; simpl in *.
      destruct l as [|x l]; [discriminate|].
      destruct (chr_eq ic c x) eqn:E; [|discriminate].
      eexists; split; [|exact H]. exists x. split; auto.
      apply (reads_intro b [x] l g).
    + intros s' (x & E & R) Hk. apply reads_inv in R. destruct R as [Hs' Hr].
      rewrite Hr; simpl. rewrite E. simpl in Hs'. rewrite <- Hs'. exact Hk.
  - (* Cls *)
    split.
    + intros a H. destruct s as [b l g]; simpl in *.
      destruct l as [|x l]; [discriminate|].
      destruct (cset_mem p x) eqn:E; [|discriminate].
      eexists; split; [|exact H]. exists x. split; auto.
      apply (reads_intro b [x] l g).
    + intros s' (x & E & R) Hk. apply reads_inv in R. destruct R as [Hs' Hr].
      rewrite Hr; simpl. rewrite E. simpl in Hs'. rewrite <- Hs'. exact Hk.
  - (* Cat *)
    split.
    + intros a H. apply (proj1 (IH1 _ _ _)) in H. destruct H as (s1 & M1 & H).
      apply (proj1 (IH2 _ _ _)) in H. destruct H as (s2 & M2 & H).
      eauto.
    + intros s' (s1 & M1 & M2) Hk.
      apply (proj2 (IH1 _ _ _) s1 M1).
      apply (proj2 (IH2 _ _ _) s' M2 Hk).
  - (* Alt *)
    split.
    + intros a H. destruct (rmatch ic r1 A k s) eqn:E1.
      * inversion H; subst. apply (proj1 (IH1 _ _ _)) in E1.
        destruct E1 as (s' & M & Hk). eauto.
      * apply (proj1 (IH2 _ _ _)) in H. destruct H as (s' & M & Hk). eauto.
    + intros s' [M|M] Hk.
      * pose proof (proj2 (IH1 _ k s) s' M Hk).
        destruct (rmatch ic r1 A k s); [discriminate|congruence].
      * pose proof (proj2 (IH2 _ k s) s' M Hk).
        destruct (rmatch ic r1 A k s); [discriminate|assumption].
  - (* Opt *)
    split.
    + intros a H. destruct (rmatch ic r1 A k s) eqn:E1.
      * inversion H; subst. apply (proj1 (IH1 _ _ _)) in E1.
        destruct E1 as (s' & M & Hk). eauto.
      * eauto.
    + intros s' [M| ->] Hk.
      * pose proof (proj2 (IH1 _ k s) s' M Hk).
        destruct (rmatch ic r1 A k s); [discriminate|congruence].
      * destruct (rmatch ic r1 A k s); [discriminate|assumption].
  - (* Star *)
    split.
    + intros a H. apply star_greedy_sound in H.
      destruct H as (w & l' & Hl & Hw & Hk).
      eexists; split; [|exact Hk]. exists w. split; auto.
      repeat split; auto.
    + intros s' (w & Hw & R) Hk. apply reads_inv in R. destruct R as [Hs' Hr].
      rewrite Hr. apply star_greedy_complete; auto. rewrite <- Hs'. exact Hk.
  - (* LazyStar *)
    split.
    + intros a H. apply star_lazy_sound in H.
      destruct H as (w & l' & Hl & Hw & Hk).
      eexists; split; [|exact Hk]. exists w. split; auto.
      repeat split; auto.
    + intros s' (w & Hw & R) Hk. apply reads_inv in R. destruct R as [Hs' Hr].
      rewrite Hr. apply star_lazy_complete; auto. rewrite <- Hs'. exact Hk.
  - (* Grp *)
    split.
    + intros a H. apply (proj1 (IH1 _ _ _)) in H. destruct H as (s1 & M & Hk).
      eauto.
    + intros s' (s1 & M & ->) Hk. apply (proj2 (IH1 _ _ _) s1 M). exact Hk.
  - (* WordB *)
    split.
    + intros a H. destruct (at_boundary s) eqn:E; [|discriminate]. eauto.
    + intros s' (E & ->) Hk. rewrite E. exact Hk.
  - (* NotAhead *)
    split.
    + intros a H. destruct (rmatch ic r1 unit (fun _ => Some tt) s) eqn:E;
        [discriminate|].
      exists s. split; [|exact H]. split; [|reflexivity].
      intros s1 M. apply (proj2 (IH1 unit (fun _ => Some tt) s) s1 M);
        [discriminate|exact E].
    + intros s' (N & ->) Hk.
      destruct (rmatch ic r1 unit (fun _ => Some tt) s) eqn:E; [|exact Hk].
      apply (proj1 (IH1 _ _ _)) in E. destruct E as (s1 & M & _).
      exfalso. exact (N s1 M).
  - (* NotBehind *)
    destruct (before s) as [c|] eqn:B.
    + split.
      * intros a H. destruct (cset_mem p c) eqn:E; [discriminate|].
        exists s. auto.
      * intros s' (E & ->) Hk. rewrite E. exact Hk.
    + split.
      * intros a H. exists s. auto.
      * intros s' (_ & ->) Hk. exact Hk.
Qed.

Lemma rmatch_sound r A (k : mstate -> option A) s a :
  rmatch ic r A k s = Some a -> exists s', Matches ic r s s' /\ k s' = Some a.
Proof. apply rmatch_spec. Qed.

Lemma rmatch_complete r A (k : mstate -> option A) s s' :
  Matches ic r s s' -> k s' <> None -> rmatch ic r A k s <> None.
Proof. apply rmatch_spec. Qed.

End Matcher.

(* ================================================================== *)
(** * Searching and iterating *)

Section Scanning.

Variable ic : bool.
Variable r : regex.

Lemma lastc_app b w1 w2 : lastc b (w1 ++ w2) = lastc (lastc b w1) w2.
Proof. revert b; induction w1; simpl; auto. Qed.

Lemma Matches_reads r0 :
  forall s s',
    Matches ic r0 s s' ->
    exists w, rest s = w ++ rest s' /\ before s' = lastc (before s) w /\
              min_len r0 <= length w.
Proof.
  induction r0 as [|c|p|r1 IH1 r2 IH2|r1 IH1 r2 IH2|r1 IH1|p|p|n r1 IH1|
                   |r1 IH1|p]; intros s s' M; simpl in M.
  - subst. exists []. simpl. auto.
  - destruct M as (x & _ & R1 & R2 & _). exists [x]. simpl. auto.
  - destruct M as (x & _ & R1 & R2 & _). exists [x]. simpl. auto.
  - destruct M as (s1 & M1 & M2).
    destruct (IH1 _ _ M1) as (w1 & E1 & B1 & L1).
    destruct (IH2 _ _ M2) as (w2 & E2 & B2 & L2).
    exists (w1 ++ w2). rewrite E1, E2, B2, B1, lastc_app, length_app, app_assoc.
    simpl. repeat split; auto. lia.
  - destruct M as [M|M];
      [destruct (IH1 _ _ M) as (w & E & B & L)
      |destruct (IH2 _ _ M) as (w & E & B & L)];
      exists w; simpl; repeat split; auto; lia.
  - destruct M as [M| ->].
    + destruct (IH1 _ _ M) as (w & E & B & L). exists w. simpl.
      repeat split; auto. lia.
    + exists []. simpl. auto.
  - destruct M as (w & _ & R1 & R2 & _). exists w. simpl.
    repeat split; auto. lia.
  - destruct M as (w & _ & R1 & R2 & _). exists w. simpl.
    repeat split; auto. lia.
  - destruct M as (s1 & M & ->). simpl.
    destruct (IH1 _ _ M) as (w & E & B & L). exists w. auto.
  - destruct M as (_ & ->). exists []. simpl. auto.
  - destruct M as (_ & ->). exists []. simpl. auto.
  - destruct M as (_ & ->). exists []. simpl. auto.
Qed.

Lemma match_at_inv b l pos m :
  match_at ic r b l pos = Some m ->
  exists s' w,
    Matches ic r (MState b l []) s' /\ l = w ++ rest s' /\
    min_len r <= length w /\
    m = Match pos (pos + length w) (caps s').
Proof.
  unfold match_at. intros H. apply rmatch_sound in H.
  destruct H as (s' & M & E). inversion E; subst; clear E.
  destruct (Matches_reads _ _ _ M) as (w & Hr & _ & L). simpl in Hr.
  exists s', w. repeat split; auto.
  rewrite Hr at 1. rewrite length_app. f_equal. lia.
Qed.

Lemma match_at_complete b l pos s' :
  Matches ic r (MState b l []) s' -> match_at ic r b l pos <> None.
Proof.
  intros M. unfold match_at. eapply rmatch_complete; [exact M|discriminate].
Qed.

Lemma match_at_none b l pos :
  match_at ic r b l pos = None ->
  forall s', ~ Matches ic r (MState b l []) s'.
Proof. intros H s' M. exact (match_at_complete b l pos s' M H). Qed.

Lemma match_at_pos b l pos pos' :
  match_at ic r b l pos = None -> match_at ic r b l pos' = None.
Proof.
  intros H. destruct (match_at ic r b l pos') eqn:E; [|reflexivity].
  apply match_at_inv in E. destruct E as (s' & w & M & _).
  exfalso. exact (match_at_none _ _ _ H s' M).
Qed.

Lemma search_from_inv l :
  forall b pos m,
    search_from ic r b l pos = Some m ->
    exists pre l',
      l = pre ++ l' /\
      match_at ic r (lastc b pre) l' (pos + length pre) = Some m.
Proof.
  induction l as [|c l IH]; intros b pos m H; simpl in H.
  - destruct (match_at ic r b [] pos) eqn:E; [|discriminate].
    inversion H; subst. exists [], []. simpl. rewrite Nat.add_0_r. auto.
  - destruct (match_at ic r b (c :: l) pos) eqn:E.
    + inversion H; subst. exists [], (c :: l). simpl.
      rewrite Nat.add_0_r. auto.
    + destruct (IH _ _ _ H) as (pre & l' & -> & Hm).
      exists (c :: pre), l'. simpl. split; auto.
      rewrite <- Hm. f_equal. lia.
Qed.

Lemma search_from_complete pre :
  forall l b pos s',
    Matches ic r (MState (lastc b pre) l []) s' ->
    search_from ic r b (pre ++ l) pos <> None.
Proof.
  induction pre as [|c pre IH]; intros l b pos s' M; simpl in *.
  - pose proof (match_at_complete b l pos s' M) as H.
    destruct l; simpl; destruct (match_at ic r b _ pos);
      try discriminate; congruence.
  - destruct (match_at ic r b (c :: pre ++ l) pos); [discriminate|].
    eapply IH; eauto.
Qed.

Lemma search_from_head b l pos :
  match_at ic r b l pos <> None ->
  search_from ic r b l pos = match_at ic r b l pos.
Proof.
  intros H. destruct l; simpl; destruct (match_at ic r b _ pos);
    auto; congruence.
Qed.

(** [search] finds a match exactly when the pattern occurs in the text. *)
Lemma re_search_occurs txt :
  re_search ic r txt <> None <-> occurs ic r txt.
Proof.
  unfold re_search, occurs, occurs_at. split.
  - intros H. destruct (search_from ic r None txt 0) eqn:E; [|congruence].
    apply search_from_inv in E. destruct E as (pre & l' & -> & Hm).
    apply match_at_inv in Hm. destruct Hm as (s' & w & M & _).
    exists pre, l'. eauto.
  - intros (pre & l & -> & s' & M). eapply search_from_complete; eauto.
Qed.

Lemma re_search_none txt :
  re_search ic r txt = None <-> ~ occurs ic r txt.
Proof.
  rewrite <- re_search_occurs. destruct (re_search ic r txt); split;
    try congruence; intros H; exfalso; apply H; discriminate.
Qed.

Lemma spans_within_weaken lo lo' hi ms :
  lo' <= lo -> spans_within lo hi ms -> spans_within lo' hi ms.
Proof. destruct ms; simpl; auto. intros ? (? & ? & ? & ?). repeat split; auto; lia. Qed.

Lemma finditer_from_spans l :
  forall b pos skip,
    spans_within (pos + skip) (pos + length l)
      (finditer_from ic r b l pos skip).
Proof.
  induction l as [|c l IH]; intros b pos skip; simpl.
  - destruct skip; simpl; auto.
    destruct (match_at ic r b [] pos) eqn:E; simpl; auto.
    apply match_at_inv in E. destruct E as (s' & w & _ & Hl & _ & ->).
    symmetry in Hl. apply app_eq_nil in Hl. destruct Hl as [-> _].
    simpl. repeat split; lia.
  - destruct skip as [|n].
    + destruct (match_at ic r b (c :: l) pos) eqn:E.
      * apply match_at_inv in E. destruct E as (s' & w & _ & Hl & _ & ->).
        assert (length w <= S (length l)).
        { apply (f_equal (@length _)) in Hl. rewrite length_app in Hl.
          simpl in Hl. lia. }
        simpl. repeat split; try lia.
        replace (pos + S (length l)) with (S pos + length l) by lia.
        eapply spans_within_weaken; [|apply IH]. lia.
      * replace (pos + S (length l)) with (S pos + length l) by lia.
        eapply spans_within_weaken; [|apply IH]. lia.
    + replace (pos + S n) with (S pos + n) by lia.
      replace (pos + S (length l)) with (S pos + length l) by lia. apply IH.
Qed.

Lemma finditer_from_In l :
  forall b pos skip m,
    In m (finditer_from ic r b l pos skip) ->
    exists pre l',
      l = pre ++ l' /\
      match_at ic r (lastc b pre) l' (pos + length pre) = Some m.
Proof.
  induction l as [|c l IH]; intros b pos skip m H; simpl in H.
  - destruct skip; [|contradiction].
    destruct (match_at ic r b [] pos) eqn:E; [|contradiction].
    destruct H as [<-|[]]. exists [], []. simpl. rewrite Nat.add_0_r. auto.
  - assert (Hrec : forall n, In m (finditer_from ic r (Some c) l (S pos) n) ->
                exists pre l', c :: l = pre ++ l' /\
                  match_at ic r (lastc b pre) l' (pos + length pre) = Some m).
    { intros n Hn. destruct (IH _ _ _ _ Hn) as (pre & l' & -> & Hm).
      exists (c :: pre), l'. simpl. split; auto. rewrite <- Hm. f_equal. lia. }
    destruct skip as [|n]; [|eauto].
    destruct (match_at ic r b (c :: l) pos) eqn:E; [|eauto].
    destruct H as [<-|H]; [|eauto].
    exists [], (c :: l). simpl. rewrite Nat.add_0_r. auto.
Qed.

Lemma finditer_from_nil l :
  forall b pos skip,
    (forall pre l', l = pre ++ l' ->
       match_at ic r (lastc b pre) l' 0 = None) ->
    finditer_from ic r b l pos skip = [].
Proof.
  induction l as [|c l IH]; intros b pos skip H; simpl.
  - destruct skip; auto.
    pose proof (match_at_pos _ _ 0 pos (H [] [] eq_refl)) as E.
    simpl in E. rewrite E. reflexivity.
  - assert (Hrec : forall n, finditer_from ic r (Some c) l (S pos) n = []).
    { intros n. apply IH. intros pre l' ->. apply (H (c :: pre) l' eq_refl). }
    destruct skip; auto.
    pose proof (match_at_pos _ _ 0 pos (H [] (c :: l) eq_refl)) as E.
    simpl in E. rewrite E. auto.
Qed.

Lemma finditer_not_occurs txt :
  ~ occurs ic r txt -> finditer ic r txt = [].
Proof.
  intros H. apply finditer_from_nil. intros pre l' ->.
  destruct (match_at ic r (lastc None pre) l' 0) eqn:E; auto.
  exfalso. apply H. apply match_at_inv in E.
  destruct E as (s' & w & M & _). exists pre, l'. split; auto. exists s'. auto.
Qed.

Lemma sub_from_id l :
  forall b repl,
    (forall pre l', l = pre ++ l' ->
       match_at ic r (lastc b pre) l' 0 = None) ->
    sub_from ic r repl b l 0 = l.
Proof.
  induction l as [|c l IH]; intros b repl H; simpl.
  - pose proof (H [] [] eq_refl) as E. simpl in E. rewrite E. reflexivity.
  - pose proof (H [] (c :: l) eq_refl) as E. simpl in E. rewrite E.
    f_equal. apply IH.
    intros pre l' ->. apply (H (c :: pre) l' eq_refl).
Qed.

End Scanning.

(* ================================================================== *)
(** * Strings, sets and sorting *)

Lemma str_eqb_eq a : forall b, str_eqb a b = true <-> a = b.
Proof.
  induction a as [|x a IH]; intros [|y b]; simpl; split; intros H;
    try discriminate; auto.
  - apply andb_true_iff in H. destruct H as [H1 H2].
    apply Ascii.eqb_eq in H1. apply IH in H2. congruence.
  - inversion H; subst. rewrite Ascii.eqb_refl. simpl. apply IH. reflexivity.
Qed.

Lemma mem_str_In x l : mem_str x l = true <-> In x l.
Proof.
  unfold mem_str. rewrite existsb_exists. split.
  - intros (y & Hy & E). apply str_eqb_eq in E. congruence.
  - intros H. exists x. split; auto. apply str_eqb_eq. reflexivity.
Qed.

Lemma set_add_In x y l : In x (set_add y l) <-> x = y \/ In x l.
Proof.
  unfold set_add. destruct (mem_str y l) eqn:E.
  - apply mem_str_In in E. split; [auto|]. intros [->|H]; auto.
  - rewrite in_app_iff. simpl. intuition.
Qed.

Lemma set_add_NoDup y l : NoDup l -> NoDup (set_add y l).
Proof.
  intros H. unfold set_add. destruct (mem_str y l) eqn:E; auto.
  apply NoDup_app; auto.
  - repeat constructor. simpl. tauto.
  - intros a Ha [<-|[]]. apply mem_str_In in Ha. congruence.
Qed.

Lemma fold_set_add_In {B} (f : B -> str) (l : list B) :
  forall acc x,
    In x (fold_left (fun acc y => set_add (f y) acc) l acc) <->
    In x acc \/ exists y, In y l /\ x = f y.
Proof.
  induction l as [|b l IH]; intros acc x; simpl.
  - split; [auto|]. intros [H|(y & [] & _)]; auto.
  - rewrite IH, set_add_In. split.
    + intros [[->|H]|(y & Hy & ->)]; eauto.
    + intros [H|(y & [<-|Hy] & ->)]; eauto.
Qed.

Lemma fold_set_add_NoDup {B} (f : B -> str) (l : list B) :
  forall acc, NoDup acc ->
    NoDup (fold_left (fun acc y => set_add (f y) acc) l acc).
Proof.
  induction l; intros acc H; simpl; auto. apply IHl, set_add_NoDup, H.
Qed.

Lemma nat_of_ascii_inj x y : nat_of_ascii x = nat_of_ascii y -> x = y.
Proof.
  intros H. rewrite <- (ascii_nat_embedding x), <- (ascii_nat_embedding y).
  congruence.
Qed.

Lemma str_leb_refl a : str_leb a a = true.
Proof. induction a; simpl; auto. rewrite Nat.ltb_irrefl. auto. Qed.

Lemma str_leb_total a : forall b, str_leb a b = true \/ str_leb b a = true.
Proof.
  induction a as [|x a IH]; intros [|y b]; simpl; auto.
  destruct (nat_of_ascii x <? nat_of_ascii y) eqn:E1;
    destruct (nat_of_ascii y <? nat_of_ascii x) eqn:E2; auto.
Qed.

Lemma str_leb_antisym a :
  forall b, str_leb a b = true -> str_leb b a = true -> a = b.
Proof.
  induction a as [|x a IH]; intros [|y b]; simpl; try discriminate; auto.
  destruct (nat_of_ascii x <? nat_of_ascii y) eqn:E1;
    destruct (nat_of_ascii y <? nat_of_ascii x) eqn:E2;
    try discriminate.
  - apply Nat.ltb_lt in E1, E2. lia.
  - intros H1 H2. apply Nat.ltb_ge in E1, E2.
    f_equal; [apply nat_of_ascii_inj; lia | apply IH; auto].
Qed.

Lemma str_leb_trans a :
  forall b c, str_leb a b = true -> str_leb b c = true -> str_leb a c = true.
Proof.
  induction a as [|x a IH]; intros [|y b] [|z c]; simpl;
    try discriminate; auto.
  destruct (nat_of_ascii x <? nat_of_ascii y) eqn:E1;
    destruct (nat_of_ascii y <? nat_of_ascii x) eqn:E2;
    destruct (nat_of_ascii y <? nat_of_ascii z) eqn:E3;
    destruct (nat_of_ascii z <? nat_of_ascii y) eqn:E4;
    destruct (nat_of_ascii x <? nat_of_ascii z) eqn:E5;
    destruct (nat_of_ascii z <? nat_of_ascii x) eqn:E6;
    try discriminate; auto;
    repeat match goal with
           | H : (_ <? _) = true |- _ => apply Nat.ltb_lt in H
           | H : (_ <? _) = false |- _ => apply Nat.ltb_ge in H
           end; try lia.
  apply IH.
Qed.

Lemma insert_sorted_perm x l : Permutation (insert_sorted x l) (x :: l).
Proof.
  induction l as [|y l IH]; simpl; auto.
  destruct (str_leb x y); auto.
  rewrite IH. apply perm_swap.
Qed.

Lemma sorted_perm l : Permutation (sorted l) l.
Proof.
  induction l; simpl; auto. rewrite insert_sorted_perm. auto.
Qed.

Lemma insert_sorted_sorted x l :
  StronglySorted str_le l -> StronglySorted str_le (insert_sorted x l).
Proof.
  induction 1 as [|y l Hs IH Hall]; simpl.
  - repeat constructor.
  - destruct (str_leb x y) eqn:E.
    + constructor; [constructor; auto|].
      constructor; auto.
      eapply Forall_impl; [|exact Hall]. intros z Hz.
      eapply str_leb_trans; eauto.
    + constructor; auto.
      eapply Permutation_Forall; [symmetry; apply insert_sorted_perm|].
      constructor; auto.
      destruct (str_leb_total x y); [congruence|auto].
Qed.

Lemma sorted_sorted l : StronglySorted str_le (sorted l).
Proof.
  induction l; simpl; [constructor|]. apply insert_sorted_sorted; auto.
Qed.

Lemma sorted_perm_eq l1 :
  forall l2,
    StronglySorted str_le l1 -> StronglySorted str_le l2 ->
    Permutation l1 l2 -> l1 = l2.
Proof.
  induction l1 as [|a l1 IH]; intros l2 H1 H2 P.
  - apply Permutation_nil in P. auto.
  - destruct l2 as [|b l2].
    + symmetry in P. apply Permutation_nil in P. discriminate.
    + inversion H1 as [|? ? Hs1 Ha]; subst.
      inversion H2 as [|? ? Hs2 Hb]; subst.
      assert (a = b).
      { assert (In a (b :: l2)) by (eapply Permutation_in; eauto; simpl; auto).
        assert (In b (a :: l1))
          by (eapply Permutation_in; [symmetry; eauto|simpl; auto]).
        rewrite Forall_forall in Ha, Hb.
        destruct H as [->|H]; auto. destruct H0 as [->|H0]; auto.
        apply str_leb_antisym; [apply Ha|apply Hb]; auto. }
      subst. f_equal. apply IH; auto.
      eapply Permutation_cons_inv; eauto.
Qed.

(** The result of [sorted] depends only on the elements, not on their
    order. *)
Lemma sorted_unique l1 l2 : Permutation l1 l2 -> sorted l1 = sorted l2.
Proof.
  intros P. apply sorted_perm_eq; try apply sorted_sorted.
  rewrite !sorted_perm. exact P.
Qed.

Lemma sorted_idem l : sorted (sorted l) = sorted l.
Proof. apply sorted_unique, sorted_perm. Qed.

Lemma sorted_NoDup l : NoDup l -> NoDup (sorted l).
Proof. intros H. eapply Permutation_NoDup; [symmetry; apply sorted_perm|auto]. Qed.

Lemma sorted_strict l : NoDup l -> StronglySorted str_lt (sorted l).
Proof.
  intros H. apply sorted_NoDup in H. pose proof (sorted_sorted l) as S.
  induction S as [|a l' Hs IH Ha]; [constructor|].
  inversion H; subst. constructor; auto.
  rewrite Forall_forall in *. intros b Hb. unfold str_lt, str_ltb.
  destruct (str_leb b a) eqn:E; auto.
  assert (a = b) by (apply str_leb_antisym; auto; apply Ha; auto).
  subst. contradiction.
Qed.

Lemma nonempty_perm {A} (l1 l2 : list A) :
  Permutation l1 l2 -> nonempty l1 = nonempty l2.
Proof.
  intros P. destruct l1, l2; simpl; auto.
  - apply Permutation_nil in P. discriminate.
  - symmetry in P. apply Permutation_nil in P. discriminate.
Qed.

Lemma lower_not_upper c : is_upper (lower c) = false.
Proof. destruct c as [[] [] [] [] [] [] [] []]; reflexivity. Qed.

Lemma lower_idem c : lower (lower c) = lower c.
Proof. unfold lower at 1. rewrite lower_not_upper. reflexivity. Qed.

(* ================================================================== *)
(** * The iteration order of sets does not matter *)

Lemma insertion_order_ok : iteration_order insertion_order.
Proof. intros l. apply Permutation_refl. Qed.

Lemma set_union_In s t x : In x (set_union s t) <-> In x s \/ In x t.
Proof.
  unfold set_union.
  rewrite (fold_set_add_In (fun y : str => y)). split.
  - intros [H|(y & Hy & ->)]; auto.
  - intros [H|H]; eauto.
Qed.

Lemma set_union_NoDup s t : NoDup s -> NoDup (set_union s t).
Proof. apply (fold_set_add_NoDup (fun y : str => y)). Qed.

Lemma candidate_names_NoDup iter table tt tn aliases :
  NoDup (candidate_names iter table tt tn aliases).
Proof.
  destruct tt; simpl; try apply set_union_NoDup;
    apply set_add_NoDup; constructor.
Qed.

Lemma candidate_names_In iter table tt tn aliases x :
  iteration_order iter ->
  (In x (candidate_names iter table tt tn aliases) <->
   match tt with
   | implicit => x = table
   | itab => x = tn \/ In x (aliases_get aliases tn)
   | wa => x = tn
   end).
Proof.
  intros Hi. destruct tt; simpl.
  - rewrite set_union_In, set_add_In. simpl. split.
    + intros [[H|[]]|H]; auto. right. eapply Permutation_in; [apply Hi|auto].
    + intros [H|H]; auto. right.
      eapply Permutation_in; [symmetry; apply Hi|auto].
  - unfold set_add; simpl. intuition congruence.
  - unfold set_add; simpl. intuition congruence.
Qed.

Lemma candidate_names_perm iter1 iter2 table tt tn aliases :
  iteration_order iter1 -> iteration_order iter2 ->
  Permutation (iter1 (candidate_names iter1 table tt tn aliases))
    (iter2 (candidate_names iter2 table tt tn aliases)).
Proof.
  intros H1 H2. rewrite (H1 _), (H2 _).
  apply NoDup_Permutation; try apply candidate_names_NoDup.
  intros x. rewrite !candidate_names_In by assumption. tauto.
Qed.

Lemma fold_flat_map {A B C} (f : A -> C -> A) (F : B -> list C) l :
  forall acc,
    fold_left (fun acc b => fold_left f (F b) acc) l acc =
    fold_left f (flat_map F l) acc.
Proof.
  induction l; intros acc; simpl; auto. rewrite fold_left_app. apply IHl.
Qed.

Lemma scan_names_fields_In flat names x :
  In x (fst (scan_names flat names)) <->
  exists n m, In n names /\ In m (finditer false (STRUCT_FIELD_RE n) flat) /\
              x = lower_str (group m "field").
Proof.
  unfold scan_names; simpl.
  rewrite (fold_flat_map
             (fun fields m => set_add (lower_str (group m "field")) fields)
             (fun n => finditer false (STRUCT_FIELD_RE n) flat)).
  rewrite (fold_set_add_In (fun m => lower_str (group m "field"))).
  simpl. split.
  - intros [[]|(m & Hm & ->)]. apply in_flat_map in Hm.
    destruct Hm as (n & Hn & Hm). eauto.
  - intros (n & m & Hn & Hm & ->). right. exists m. split; auto.
    apply in_flat_map. eauto.
Qed.

Lemma scan_names_fields_NoDup flat names :
  NoDup (fst (scan_names flat names)).
Proof.
  unfold scan_names; simpl.
  rewrite (fold_flat_map
             (fun fields m => set_add (lower_str (group m "field")) fields)
             (fun n => finditer false (STRUCT_FIELD_RE n) flat)).
  apply (fold_set_add_NoDup (fun m => lower_str (group m "field"))).
  constructor.
Qed.

Lemma existsb_perm {A} (f : A -> bool) l1 l2 :
  Permutation l1 l2 -> existsb f l1 = existsb f l2.
Proof.
  intros P. destruct (existsb f l1) eqn:E1; symmetry.
  - apply existsb_exists in E1. destruct E1 as (x & Hx & Hf).
    apply existsb_exists. exists x. split; auto.
    eapply Permutation_in; eauto.
  - destruct (existsb f l2) eqn:E2; auto.
    apply existsb_exists in E2. destruct E2 as (x & Hx & Hf).
    rewrite <- E1. symmetry. apply existsb_exists. exists x. split; auto.
    eapply Permutation_in; [symmetry|]; eauto.
Qed.

Lemma scan_names_perm flat n1 n2 :
  Permutation n1 n2 ->
  Permutation (fst (scan_names flat n1)) (fst (scan_names flat n2)) /\
  snd (scan_names flat n1) = snd (scan_names flat n2).
Proof.
  intros P. split.
  - apply NoDup_Permutation; try apply scan_names_fields_NoDup.
    intros x. rewrite !scan_names_fields_In.
    split; intros (n & m & Hn & H); exists n, m; (split; [|exact H]).
    + eapply Permutation_in; [exact P|exact Hn].
    + eapply Permutation_in; [symmetry; exact P|exact Hn].
  - unfold scan_names; simpl. apply existsb_perm, P.
Qed.

Lemma collect_used_fields_order iter1 iter2 flat text table tt tn aliases :
  iteration_order iter1 -> iteration_order iter2 ->
  Permutation (fst (collect_used_fields iter1 flat text table tt tn aliases))
    (fst (collect_used_fields iter2 flat text table tt tn aliases)) /\
  snd (collect_used_fields iter1 flat text table tt tn aliases) =
  snd (collect_used_fields iter2 flat text table tt tn aliases).
Proof.
  intros H1 H2. apply scan_names_perm, candidate_names_perm; auto.
Qed.

Lemma sorted_iter_order iter1 iter2 u1 u2 :
  iteration_order iter1 -> iteration_order iter2 -> Permutation u1 u2 ->
  sorted (iter1 u1) = sorted (iter2 u2).
Proof.
  intros H1 H2 P. apply sorted_unique. rewrite (H1 _), (H2 _). exact P.
Qed.

Lemma analyze_select_order iter1 iter2 flat aliases sel :
  iteration_order iter1 -> iteration_order iter2 ->
  analyze_select iter1 flat aliases sel = analyze_select iter2 flat aliases sel.
Proof.
  intros H1 H2. unfold analyze_select.
  destruct (collect_used_fields_order iter1 iter2 flat (sel_text sel)
              (sel_table sel) (sel_target_type sel) (sel_target_name sel)
              aliases H1 H2) as [P E].
  destruct (collect_used_fields iter1 _ _ _ _ _ _) as [u1 a1].
  destruct (collect_used_fields iter2 _ _ _ _ _ _) as [u2 a2].
  simpl in P, E. subst a2.
  rewrite (nonempty_perm _ _ P), (sorted_iter_order iter1 iter2 u1 u2 H1 H2 P).
  reflexivity.
Qed.

Lemma analyze_array_order iter1 iter2 units :
  iteration_order iter1 -> iteration_order iter2 ->
  analyze_array iter1 units = analyze_array iter2 units.
Proof.
  intros H1 H2. unfold analyze_array. apply map_ext. intros u. f_equal.
  apply map_ext. intros sel. apply analyze_select_order; auto.
Qed.

Lemma replacements_of_order iter1 iter2 flat aliases src :
  iteration_order iter1 -> iteration_order iter2 ->
  replacements_of iter1 flat aliases src =
  replacements_of iter2 flat aliases src.
Proof.
  intros H1 H2. unfold replacements_of. apply flat_map_ext. intros sel.
  destruct (collect_used_fields_order iter1 iter2 flat (sel_text sel)
              (sel_table sel) (sel_target_type sel) (sel_target_name sel)
              aliases H1 H2) as [P E].
  destruct (collect_used_fields iter1 _ _ _ _ _ _) as [u1 a1].
  destruct (collect_used_fields iter2 _ _ _ _ _ _) as [u2 a2].
  simpl in P, E. subst a2.
  rewrite (nonempty_perm _ _ P), (sorted_iter_order iter1 iter2 u1 u2 H1 H2 P).
  reflexivity.
Qed.

Lemma remediate_array_order iter1 iter2 units :
  iteration_order iter1 -> iteration_order iter2 ->
  remediate_array iter1 units = remediate_array iter2 units.
Proof.
  intros H1 H2. unfold remediate_array. apply map_ext. intros u. f_equal.
  f_equal. apply replacements_of_order; auto.
Qed.

(* ================================================================== *)
(** * Scenarios *)

Lemma reverse_order_ok : iteration_order reverse_order.
Proof. intros l. symmetry. apply Permutation_rev. Qed.

(** C9: Analyze and Remediate are functions of the batch alone: whatever
    order the sets of candidate names, aliases and used fields are iterated
    in, the two runs return the same output, and each returned entry carries
    its input unit unchanged, in input order. *)
Theorem analyze_remediate_deterministic iter1 iter2 units :
  iteration_order iter1 -> iteration_order iter2 ->
  analyze_array iter1 units = analyze_array iter2 units /\
  remediate_array iter1 units = remediate_array iter2 units /\
  map a_unit (analyze_array iter1 units) = units /\
  map r_unit (remediate_array iter1 units) = units.
Proof.
  intros H1 H2. split; [apply analyze_array_order; auto|].
  split; [apply remediate_array_order; auto|].
  unfold analyze_array, remediate_array. rewrite !map_map. simpl.
  split; apply map_id.
Qed.

Lemma analyze_remediate_deterministic_witness :
  analyze_array insertion_order alias_units =
    analyze_array reverse_order alias_units /\
  remediate_array insertion_order alias_units =
    remediate_array reverse_order alias_units /\
  map a_unit (analyze_array insertion_order alias_units) = alias_units /\
  map r_unit (remediate_array insertion_order alias_units) = alias_units.
Proof.
  exact (analyze_remediate_deterministic insertion_order reverse_order
           alias_units insertion_order_ok reverse_order_ok).
Defined.

(** C1 (as the code behaves): for the single-unit batch with the text
    [SELECT * FROM spfli INTO wa_spfli. WRITE wa_spfli-carrid. WRITE
    wa_spfli-connid.] Analyze returns one finding: table [spfli], target kind
    work area, target [wa_spfli], span 0..34, used fields carrid and connid,
    not ambiguous, and the suggested statement
    [SELECT carrid connid FROM spfli], a line break, two blanks and
    [INTO CORRESPONDING FIELDS OF wa_spfli.]. *)
Theorem analyze_spfli_scenario iter p i t n c s e :
  iteration_order iter ->
  analyze_array iter [mkUnit p i t n c s e (Some spfli_text)] =
  [mkAnalysis (mkUnit p i t n c s e (Some spfli_text))
     [mkFinding (s2l "spfli") wa (s2l "wa_spfli") 0 34
        [s2l "carrid"; s2l "connid"] false
        (Some [s2l "carrid"; s2l "connid"])
        (Some (s2l "SELECT carrid connid FROM spfli" ++ nl ++
               s2l "  INTO CORRESPONDING FIELDS OF wa_spfli."))]].
Proof.
  intros H. rewrite (analyze_array_order iter insertion_order _ H insertion_order_ok).
  vm_compute. reflexivity.
Qed.

Lemma analyze_spfli_scenario_witness :
  map selects (analyze_array insertion_order [unit_of "SELECT * FROM spfli INTO wa_spfli. WRITE wa_spfli-carrid. WRITE wa_spfli-connid."]) =
  [[mkFinding (s2l "spfli") wa (s2l "wa_spfli") 0 34
        [s2l "carrid"; s2l "connid"] false
        (Some [s2l "carrid"; s2l "connid"])
        (Some (s2l "SELECT carrid connid FROM spfli" ++ nl ++
               s2l "  INTO CORRESPONDING FIELDS OF wa_spfli."))]].
Proof.
  unfold unit_of.
  rewrite (analyze_spfli_scenario insertion_order _ _ _ _ _ _ _
             insertion_order_ok).
  reflexivity.
Defined.

(** C1 as stated fails: the suggested statement is not the one-line text
    [SELECT carrid connid FROM spfli INTO CORRESPONDING FIELDS OF wa_spfli.] *)
Lemma analyze_spfli_one_line_refuted :
  map (fun a => map suggested_statement (selects a))
    (analyze_array insertion_order [mkUnit [] [] [] None None None None (Some spfli_text)]) <>
  [[Some (s2l "SELECT carrid connid FROM spfli INTO CORRESPONDING FIELDS OF wa_spfli.")]].
Proof. vm_compute. discriminate. Qed.

(** C4 at the failing input: the component access [WA_SPFLI-CARRID], written
    in upper case, is not matched for the candidate [wa_spfli]; the used
    field set is empty and nothing is suggested. *)
Theorem upper_case_access_not_collected iter p i t n c s e :
  iteration_order iter ->
  analyze_array iter [mkUnit p i t n c s e (Some spfli_upper_text)] =
  [mkAnalysis (mkUnit p i t n c s e (Some spfli_upper_text))
     [mkFinding (s2l "spfli") wa (s2l "wa_spfli") 0 34 [] false None None]].
Proof.
  intros H. rewrite (analyze_array_order iter insertion_order _ H insertion_order_ok).
  vm_compute. reflexivity.
Qed.

Lemma upper_case_access_not_collected_witness :
  map selects (analyze_array insertion_order [unit_of "SELECT * FROM spfli INTO wa_spfli. WRITE WA_SPFLI-CARRID."]) =
  [[mkFinding (s2l "spfli") wa (s2l "wa_spfli") 0 34 [] false None None]].
Proof.
  unfold unit_of.
  rewrite (upper_case_access_not_collected insertion_order _ _ _ _ _ _ _
             insertion_order_ok).
  reflexivity.
Defined.

(** C5 at the failing input: for the statement without receiving clause
    [SELECT * FROM mara WHERE matnr = 'X'.] the target is implicit and named
    after the table, but the rewrite glues the filter clause to the table
    name: [SELECT matnr FROM maraWHERE matnr = 'X'.] *)
Theorem implicit_rewrite_glues_body iter p i t n c s e :
  iteration_order iter ->
  analyze_array iter [mkUnit p i t n c s e (Some mara_where_text)] =
  [mkAnalysis (mkUnit p i t n c s e (Some mara_where_text))
     [mkFinding (s2l "mara") implicit (s2l "mara") 0 37 [s2l "matnr"] false
        (Some [s2l "matnr"])
        (Some (s2l "SELECT matnr FROM maraWHERE matnr = 'X'."))]].
Proof.
  intros H. rewrite (analyze_array_order iter insertion_order _ H insertion_order_ok).
  vm_compute. reflexivity.
Qed.

Lemma implicit_rewrite_glues_body_witness :
  map selects (analyze_array insertion_order [unit_of "SELECT * FROM mara WHERE matnr = 'X'. WRITE mara-matnr."]) =
  [[mkFinding (s2l "mara") implicit (s2l "mara") 0 37 [s2l "matnr"] false
        (Some [s2l "matnr"])
        (Some (s2l "SELECT matnr FROM maraWHERE matnr = 'X'."))]].
Proof.
  unfold unit_of.
  rewrite (implicit_rewrite_glues_body insertion_order _ _ _ _ _ _ _
             insertion_order_ok).
  reflexivity.
Defined.

(** C10: the synthesizer returns its input unchanged whenever the head
    pattern (SELECT, optional SINGLE, the wildcard, FROM and a table name)
    occurs nowhere in the statement text. *)
Theorem build_replacement_stmt_without_head sel_text table fields tt tn :
  ~ occurs true HEAD_RE sel_text ->
  build_replacement_stmt sel_text table fields tt tn = sel_text.
Proof.
  intros H. apply re_search_none in H. unfold build_replacement_stmt.
  rewrite H. reflexivity.
Qed.

Lemma build_replacement_stmt_without_head_witness :
  build_replacement_stmt (s2l "SELECT matnr FROM mara.") (s2l "mara")
    [s2l "matnr"] wa (s2l "w") = s2l "SELECT matnr FROM mara.".
Proof.
  apply (build_replacement_stmt_without_head (s2l "SELECT matnr FROM mara.")).
  apply re_search_none. vm_compute. reflexivity.
Defined.

(* ================================================================== *)
(** * Suggestions and replacements *)

Lemma find_selects_not_occurs src :
  ~ occurs true SELECT_STAR_RE src -> find_selects src = [].
Proof.
  intros H. unfold find_selects. rewrite finditer_not_occurs by exact H.
  reflexivity.
Qed.

Lemma nonempty_sorted_iter iter used :
  iteration_order iter -> nonempty (sorted (iter used)) = nonempty used.
Proof.
  intros H. apply nonempty_perm. rewrite sorted_perm. apply H.
Qed.

Lemma flat_map_map {A B C} (g : B -> list C) (f : A -> B) l :
  flat_map g (map f l) = flat_map (fun x => g (f x)) l.
Proof. induction l; simpl; auto. rewrite IHl. reflexivity. Qed.

Lemma replacement_of_analyze_select iter flat aliases sel :
  iteration_order iter ->
  replacement_of_finding (analyze_select iter flat aliases sel) =
  (let '(used, amb) :=
     collect_used_fields iter flat (sel_text sel) (sel_table sel)
       (sel_target_type sel) (sel_target_name sel) aliases in
   if nonempty used && negb amb then
     [(sel_span sel,
       build_replacement_stmt (sel_text sel) (sel_table sel)
         (sorted (iter used)) (sel_target_type sel) (sel_target_name sel))]
   else []).
Proof.
  intros Hi. unfold replacement_of_finding, analyze_select.
  destruct (collect_used_fields iter _ _ _ _ _ _) as [used amb]. simpl.
  destruct (nonempty used && negb amb) eqn:E; [|reflexivity].
  apply andb_true_iff in E. destruct E as [E _].
  rewrite <- (nonempty_sorted_iter iter used Hi) in E.
  destruct (sorted (iter used)) as [|f fs]; [discriminate|].
  rewrite <- surjective_pairing. reflexivity.
Qed.

(** C3: a finding carries a suggested field list and a suggested statement
    exactly when its used field set is non-empty and it is not ambiguous;
    otherwise both are absent.  The replacements Remediate makes in a unit
    are exactly the suggested statements of that unit's findings, at their
    spans. *)
Theorem suggestion_iff_evidence iter units :
  iteration_order iter ->
  (forall a f,
     In a (analyze_array iter units) -> In f (selects a) ->
     if nonempty (used_fields f) && negb (ambiguous f)
     then suggested_fields f = Some (used_fields f) /\
          suggested_statement f <> None
     else suggested_fields f = None /\ suggested_statement f = None) /\
  (forall a,
     In a (analyze_array iter units) ->
     replacements_of iter (concat_units units)
       (build_aliases (concat_units units)) (code_or_empty (a_unit a)) =
     flat_map replacement_of_finding (selects a)).
Proof.
  intros Hi. split.
  - intros a f Ha Hf. unfold analyze_array in Ha. apply in_map_iff in Ha.
    destruct Ha as (u & <- & _). simpl in Hf. apply in_map_iff in Hf.
    destruct Hf as (sel & <- & _). unfold analyze_select.
    destruct (collect_used_fields iter _ _ _ _ _ _) as [used amb]. simpl.
    rewrite (nonempty_sorted_iter iter used Hi).
    destruct (nonempty used && negb amb) eqn:E; [|auto].
    split; [reflexivity|].
    apply andb_true_iff in E. destruct E as [E _].
    rewrite <- (nonempty_sorted_iter iter used Hi) in E.
    destruct (sorted (iter used)); [discriminate|discriminate].
  - intros a Ha. unfold analyze_array in Ha. apply in_map_iff in Ha.
    destruct Ha as (u & <- & _). simpl. rewrite flat_map_map.
    unfold replacements_of. apply flat_map_ext. intros sel.
    symmetry. apply replacement_of_analyze_select, Hi.
Qed.

Lemma suggestion_iff_evidence_witness :
  Forall (fun f =>
            if nonempty (used_fields f) && negb (ambiguous f)
            then suggested_fields f = Some (used_fields f) /\
                 suggested_statement f <> None
            else suggested_fields f = None /\ suggested_statement f = None)
    (selects two_selects_analysis) /\
  replacements_of insertion_order (concat_units [two_selects_unit])
    (build_aliases (concat_units [two_selects_unit]))
    (code_or_empty two_selects_unit) =
  flat_map replacement_of_finding (selects two_selects_analysis).
Proof.
  destruct (suggestion_iff_evidence insertion_order [two_selects_unit]
              insertion_order_ok) as [H1 H2].
  assert (Ha : In two_selects_analysis
                 (analyze_array insertion_order [two_selects_unit]))
    by (vm_compute; left; reflexivity).
  split.
  - apply Forall_forall. intros f Hf. exact (H1 two_selects_analysis f Ha Hf).
  - exact (H2 two_selects_analysis Ha).
Defined.

(** C6: Remediate returns a unit's text unchanged when the unit holds no
    fetch-all statement, and more generally whenever no replacement
    qualifies for it; applying an empty replacement set is the identity. *)
Theorem remediate_without_replacements iter units :
  (forall src, apply_span_replacements src [] = src) /\
  (forall r,
     In r (remediate_array iter units) ->
     (~ occurs true SELECT_STAR_RE (code_or_empty (r_unit r)) ->
      remediated_code r = code_or_empty (r_unit r)) /\
     (replacements_of iter (concat_units units)
        (build_aliases (concat_units units)) (code_or_empty (r_unit r)) = [] ->
      remediated_code r = code_or_empty (r_unit r))).
Proof.
  split; [reflexivity|]. intros r Hr.
  unfold remediate_array in Hr. apply in_map_iff in Hr.
  destruct Hr as (u & <- & _). simpl. split.
  - intros H. unfold replacements_of.
    rewrite (find_selects_not_occurs _ H). reflexivity.
  - intros ->. reflexivity.
Qed.

Lemma remediate_without_replacements_witness :
  remediated_code (mkRemediation (unit_of "") []) = [] /\
  remediated_code
    (mkRemediation (unit_of "SELECT * FROM s INTO v.")
       (s2l "SELECT * FROM s INTO v.")) = s2l "SELECT * FROM s INTO v.".
Proof.
  split.
  - assert (Hin : In (mkRemediation (unit_of "") [])
                    (remediate_array insertion_order [unit_of ""]))
      by (vm_compute; left; reflexivity).
    apply (proj1 (proj2 (remediate_without_replacements insertion_order
                           [unit_of ""]) _ Hin)).
    apply re_search_none. vm_compute. reflexivity.
  - assert (Hin : In (mkRemediation (unit_of "SELECT * FROM s INTO v.")
                        (s2l "SELECT * FROM s INTO v."))
                    (remediate_array insertion_order
                       [unit_of "SELECT * FROM s INTO v."]))
      by (vm_compute; left; reflexivity).
    apply (proj2 (proj2 (remediate_without_replacements insertion_order
                           [unit_of "SELECT * FROM s INTO v."]) _ Hin)).
    vm_compute. reflexivity.
Defined.

(* ================================================================== *)
(** * The statement locator *)

Lemma select_of_match_span m :
  sel_span (select_of_match m) = (m_start m, m_end m).
Proof.
  unfold select_of_match.
  destruct (re_search true INTO_TABLE_RE (group m "body")); [reflexivity|].
  destruct (re_search true INTO_WA_RE (group m "body")); reflexivity.
Qed.

Lemma select_of_match_text m :
  sel_text (select_of_match m) = group m "full".
Proof.
  unfold select_of_match.
  destruct (re_search true INTO_TABLE_RE (group m "body")); [reflexivity|].
  destruct (re_search true INTO_WA_RE (group m "body")); reflexivity.
Qed.

Lemma Matches_Grp ic n r s s' :
  Matches ic (Grp n r) s s' <->
  exists s1,
    Matches ic r s s1 /\
    s' = MState (before s1) (rest s1)
           ((n, firstn (length (rest s) - length (rest s1)) (rest s))
              :: caps s1).
Proof. reflexivity. Qed.

Lemma firstn_app_exact {A} (w l : list A) :
  firstn (length (w ++ l) - length l) (w ++ l) = w.
Proof.
  rewrite length_app. replace (length w + length l - length l) with (length w) by lia.
  rewrite firstn_app, Nat.sub_diag, firstn_all. simpl. apply app_nil_r.
Qed.

(** A match of [SELECT_STAR_RE] found by [finditer] lies in the text at its
    span: the group [full] is the text between the two offsets. *)
Lemma select_star_match_inv txt m :
  In m (finditer true SELECT_STAR_RE txt) ->
  exists pre w post,
    txt = pre ++ w ++ post /\ m_start m = length pre /\
    m_end m = length pre + length w /\ 16 <= length w /\
    group m "full" = w /\
    exists s',
      Matches true SELECT_STAR_RE (MState (lastc None pre) (w ++ post) []) s' /\
      rest s' = post /\ m_groups m = caps s'.
Proof.
  intros H. apply finditer_from_In in H.
  destruct H as (pre & l' & -> & H). apply match_at_inv in H.
  destruct H as (s' & w & M & Hl & Hlen & ->). simpl in Hl.
  change (min_len SELECT_STAR_RE) with 16 in Hlen.
  exists pre, w, (rest s'). rewrite <- Hl. simpl m_start. simpl m_end.
  repeat split; auto.
  - pose proof M as M'. unfold SELECT_STAR_RE in M'.
    apply Matches_Grp in M'. destruct M' as (s1 & _ & E).
    rewrite E in Hl |- *. simpl rest in Hl. unfold group. simpl.
    rewrite Hl. apply firstn_app_exact.
  - exists s'. auto.
Qed.

Lemma slice_app pre w post :
  slice (length pre) (length pre + length w) (pre ++ w ++ post) = w.
Proof.
  unfold slice. rewrite skipn_app, skipn_all, Nat.sub_diag. simpl.
  replace (length pre + length w - length pre) with (length w) by lia.
  rewrite firstn_app, Nat.sub_diag, firstn_all. simpl. apply app_nil_r.
Qed.

Lemma spans_within_selects ms :
  forall lo hi,
    spans_within lo hi ms ->
    (forall m, In m ms -> m_start m < m_end m) ->
    StronglySorted span_before (map select_of_match ms) /\
    Forall (fun sel => lo <= fst (sel_span sel) /\ snd (sel_span sel) <= hi)
      (map select_of_match ms).
Proof.
  induction ms as [|m ms IH]; intros lo hi H Hne; simpl.
  - split; constructor.
  - destruct H as (H1 & H2 & H3 & H4).
    destruct (IH _ _ H4 (fun m' Hm' => Hne m' (or_intror Hm'))) as [S F].
    assert (Hm : m_start m < m_end m) by (apply Hne; left; reflexivity).
    split; constructor; auto.
    + eapply Forall_impl; [|exact F]. intros sel [Ha Hb].
      unfold span_before. rewrite select_of_match_span. simpl. lia.
    + rewrite select_of_match_span. simpl. lia.
    + eapply Forall_impl; [|exact F]. intros sel [Ha Hb]. lia.
Qed.

(** Without receiving clause in the body the target is implicit and named
    after the table. *)
Lemma select_of_match_no_into m :
  ~ occurs true INTO_TABLE_RE (group m "body") ->
  ~ occurs true INTO_WA_RE (group m "body") ->
  sel_target_type (select_of_match m) = implicit /\
  sel_target_name (select_of_match m) = group m "table".
Proof.
  intros H1 H2. apply re_search_none in H1, H2. unfold select_of_match.
  rewrite H1, H2. split; reflexivity.
Qed.

(** Every pattern the program iterates or substitutes with reads at least
    one character, so that no empty match arises. *)
Lemma patterns_read_text :
  Forall (fun r => 1 <= min_len r)
    [SELECT_STAR_RE; INTO_TABLE_RE; INTO_WA_RE; LOOP_INTO_RE;
     LOOP_ASSIGNING_RE; READ_TABLE_INTO_RE; READ_TABLE_ASSIGNING_RE;
     ASSIGN_FS_ITAB_RE; HEADER_LINE_LOOP_RE] /\
  forall n, 1 <= min_len (STRUCT_FIELD_RE n).
Proof.
  split.
  - repeat constructor; vm_compute; repeat constructor.
  - intros n. unfold STRUCT_FIELD_RE. simpl. lia.
Qed.

(** C8: the located statements of a unit come in source order, their start
    offsets ascending; each span is a non-empty range inside the text that
    was passed in, the statement's raw text being the text at that range;
    and no span reaches into a later one. *)
Theorem find_selects_spans txt :
  StronglySorted span_before (find_selects txt) /\
  Forall (fun sel =>
            fst (sel_span sel) < snd (sel_span sel) /\
            snd (sel_span sel) <= length txt /\
            sel_text sel = slice (fst (sel_span sel)) (snd (sel_span sel)) txt)
    (find_selects txt).
Proof.
  unfold find_selects.
  assert (Hne : forall m, In m (finditer true SELECT_STAR_RE txt) ->
                          m_start m < m_end m).
  { intros m Hm. apply select_star_match_inv in Hm.
    destruct Hm as (pre & w & post & _ & -> & -> & Hw & _). lia. }
  pose proof (finditer_from_spans true SELECT_STAR_RE txt None 0 0) as Hs.
  destruct (spans_within_selects _ _ _ Hs Hne) as [S F]. split; [exact S|].
  apply Forall_forall. intros sel Hsel. apply in_map_iff in Hsel.
  destruct Hsel as (m & <- & Hm).
  rewrite select_of_match_span, select_of_match_text. simpl.
  pose proof (Hne m Hm).
  apply select_star_match_inv in Hm.
  destruct Hm as (pre & w & post & -> & -> & -> & Hw & -> & _).
  repeat split; try lia.
  - rewrite !length_app. lia.
  - symmetry. apply slice_app.
Qed.

(* ================================================================== *)
(** * Plain patterns *)

Section Plain.

Variable ic : bool.

Lemma lang_Cat r1 r2 w :
  lang ic (Cat r1 r2) w <->
  exists w1 w2, w = w1 ++ w2 /\ lang ic r1 w1 /\ lang ic r2 w2.
Proof. reflexivity. Qed.

Lemma Matches_Cat r1 r2 s s' :
  Matches ic (Cat r1 r2) s s' <->
  exists s1, Matches ic r1 s s1 /\ Matches ic r2 s1 s'.
Proof. reflexivity. Qed.

(** A word of a plain pattern is matched wherever it stands. *)
Lemma lang_Matches r :
  forall w, lang ic r w ->
  forall b l g,
    exists g', Matches ic r (MState b (w ++ l) g) (MState (lastc b w) l g').
Proof.
  induction r as [|c|p|r1 IH1 r2 IH2|r1 IH1 r2 IH2|r1 IH1|p|p|n r1 IH1|
                  |r1 IH1|p]; intros w L b l g; simpl in L.
  - subst. exists g. reflexivity.
  - destruct L as (x & E & ->). exists g. exists x. split; auto.
    apply (reads_intro b [x] l g).
  - destruct L as (x & E & ->). exists g. exists x. split; auto.
    apply (reads_intro b [x] l g).
  - destruct L as (w1 & w2 & -> & L1 & L2).
    destruct (IH1 _ L1 b (w2 ++ l) g) as (g1 & M1).
    destruct (IH2 _ L2 (lastc b w1) l g1) as (g2 & M2).
    exists g2. rewrite <- app_assoc, lastc_app. exists (MState (lastc b w1) (w2 ++ l) g1).
    split; assumption.
  - destruct L as [L|L].
    + destruct (IH1 _ L b l g) as (g' & M). exists g'. left. exact M.
    + destruct (IH2 _ L b l g) as (g' & M). exists g'. right. exact M.
  - destruct L as [L| ->].
    + destruct (IH1 _ L b l g) as (g' & M). exists g'. left. exact M.
    + exists g. right. reflexivity.
  - exists g. exists w. split; auto. apply reads_intro.
  - exists g. exists w. split; auto. apply reads_intro.
  - destruct (IH1 _ L b l g) as (g' & M). eexists. simpl.
    eexists. split; [exact M|]. reflexivity.
  - contradiction.
  - contradiction.
  - contradiction.
Qed.

(** What a plain pattern reads is one of its words. *)
Lemma Matches_lang r :
  plain r = true ->
  forall s s',
    Matches ic r s s' -> exists w, rest s = w ++ rest s' /\ lang ic r w.
Proof.
  induction r as [|c|p|r1 IH1 r2 IH2|r1 IH1 r2 IH2|r1 IH1|p|p|n r1 IH1|
                  |r1 IH1|p]; intros P s s' M; simpl in P, M;
    try discriminate.
  - subst. exists []. simpl. auto.
  - destruct M as (x & E & R & _). exists [x]. simpl. eauto.
  - destruct M as (x & E & R & _). exists [x]. simpl. eauto.
  - apply andb_true_iff in P. destruct P as [P1 P2].
    destruct M as (s1 & M1 & M2).
    destruct (IH1 P1 _ _ M1) as (w1 & E1 & L1).
    destruct (IH2 P2 _ _ M2) as (w2 & E2 & L2).
    exists (w1 ++ w2). rewrite E1, E2, app_assoc. split; auto.
    simpl. eauto.
  - apply andb_true_iff in P. destruct P as [P1 P2]. destruct M as [M|M].
    + destruct (IH1 P1 _ _ M) as (w & E & L). exists w. simpl. auto.
    + destruct (IH2 P2 _ _ M) as (w & E & L). exists w. simpl. auto.
  - destruct M as [M| ->].
    + destruct (IH1 P _ _ M) as (w & E & L). exists w. simpl. auto.
    + exists []. simpl. auto.
  - destruct M as (w & F & R & _). exists w. auto.
  - destruct M as (w & F & R & _). exists w. auto.
  - destruct M as (s1 & M & ->). simpl.
    destruct (IH1 P _ _ M) as (w & E & L). exists w. auto.
Qed.

Lemma lang_avoids c r :
  avoids ic c r = true -> forall w, lang ic r w -> ~ In c w.
Proof.
  induction r as [|x|p|r1 IH1 r2 IH2|r1 IH1 r2 IH2|r1 IH1|p|p|n r1 IH1|
                  |r1 IH1|p]; intros Av w L; simpl in Av, L;
    try contradiction.
  - subst. auto.
  - destruct L as (y & E & ->). intros [->|[]].
    rewrite E in Av. discriminate.
  - destruct L as (y & E & ->). intros [->|[]].
    rewrite E in Av. discriminate.
  - apply andb_true_iff in Av. destruct Av as [A1 A2].
    destruct L as (w1 & w2 & -> & L1 & L2). rewrite in_app_iff.
    intros [H|H]; [exact (IH1 A1 _ L1 H)|exact (IH2 A2 _ L2 H)].
  - apply andb_true_iff in Av. destruct Av as [A1 A2].
    destruct L as [L|L]; auto.
  - destruct L as [L| ->]; auto.
  - intros H. rewrite forallb_forall in L. rewrite (L _ H) in Av. discriminate.
  - intros H. rewrite forallb_forall in L. rewrite (L _ H) in Av. discriminate.
  - auto.
Qed.

End Plain.

(* ================================================================== *)
(** * The statement synthesizer *)

Lemma chr_eq_star x : chr_eq true "*" x = true -> x = "*"%char.
Proof.
  destruct x as [[] [] [] [] [] [] [] []]; vm_compute; intros H;
    try discriminate; reflexivity.
Qed.

Lemma lang_Grp ic n r w : lang ic (Grp n r) w <-> lang ic r w.
Proof. reflexivity. Qed.

Ltac split_cat L w t L1 :=
  apply lang_Cat in L; destruct L as (w & t & -> & L1 & L).

Ltac build_cat :=
  apply lang_Cat; eexists; eexists;
  split; [reflexivity|split; [eassumption|]].

(** Every match of [SELECT_STAR_RE] starts with a word of [HEAD_RE]. *)
Lemma select_star_head w :
  lang true SELECT_STAR_RE w ->
  exists h rest, w = h ++ rest /\ lang true HEAD_RE h.
Proof.
  intros L. unfold SELECT_STAR_RE in L. apply lang_Grp in L.
  split_cat L w1 t1 L1. split_cat L w2 t2 L2. split_cat L w3 t3 L3.
  split_cat L w4 t4 L4. split_cat L w5 t5 L5. split_cat L w6 t6 L6.
  split_cat L w7 t7 L7. split_cat L w8 t8 L8. apply lang_Grp in L8.
  exists (w1 ++ w2 ++ w3 ++ w4 ++ w5 ++ w6 ++ w7 ++ w8), t8. split.
  - repeat rewrite <- app_assoc. reflexivity.
  - unfold HEAD_RE. do 7 build_cat. exact L8.
Qed.

(** A word of [HEAD_RE] holds the wildcard once, after text without [*]. *)
Lemma head_star_split h :
  lang true HEAD_RE h ->
  exists pre mid, h = pre ++ "*"%char :: mid /\ ~ In "*"%char pre.
Proof.
  intros L. unfold HEAD_RE in L.
  split_cat L w1 t1 L1. split_cat L w2 t2 L2. split_cat L w3 t3 L3.
  split_cat L w4 t4 L4. clear L.
  destruct L4 as (x & E & ->). apply chr_eq_star in E. subst x.
  exists (w1 ++ w2 ++ w3), t4. split.
  - repeat rewrite <- app_assoc. reflexivity.
  - rewrite !in_app_iff. intros [H|[H|H]].
    + revert H. eapply lang_avoids; [|exact L1]. reflexivity.
    + revert H. eapply lang_avoids; [|exact L2]. reflexivity.
    + revert H. eapply lang_avoids; [|exact L3]. reflexivity.
Qed.

Lemma search_from_cons ic r b c l pos :
  search_from ic r b (c :: l) pos =
  match match_at ic r b (c :: l) pos with
  | Some m => Some m
  | None => search_from ic r (Some c) l (S pos)
  end.
Proof. reflexivity. Qed.

Lemma match_at_lit c b x l pos :
  match_at false (Lit c) b (x :: l) pos =
  if Ascii.eqb c x then Some (Match pos (pos + 1) []) else None.
Proof.
  unfold match_at. simpl rmatch. unfold chr_eq.
  destruct (Ascii.eqb c x); [|reflexivity].
  cbn [rest caps length]. do 2 f_equal.
  destruct (length l) as [|k] eqn:E; [reflexivity|]. rewrite <- E at 1. lia.
Qed.

Lemma search_star pre :
  forall b mid pos,
    ~ In "*"%char pre ->
    search_from false (Lit "*") b (pre ++ "*"%char :: mid) pos =
    Some (Match (pos + length pre) (pos + length pre + 1) []).
Proof.
  induction pre as [|c pre IH]; intros b mid pos H; simpl app;
    rewrite search_from_cons, match_at_lit.
  - simpl. rewrite Nat.add_0_r. reflexivity.
  - destruct (Ascii.eqb "*" c) eqn:E.
    + apply Ascii.eqb_eq in E. subst. exfalso. apply H. left. reflexivity.
    + rewrite IH by (intros H'; apply H; right; exact H').
      simpl length. do 2 f_equal; lia.
Qed.

Lemma re_sub1_star pre mid repl :
  ~ In "*"%char pre ->
  re_sub1 false (Lit "*") repl (pre ++ "*"%char :: mid) = pre ++ repl ++ mid.
Proof.
  intros H. unfold re_sub1, re_search. rewrite search_star by exact H.
  simpl m_start. simpl m_end. simpl Nat.add.
  rewrite firstn_app, firstn_all, Nat.sub_diag. simpl firstn.
  rewrite app_nil_r. f_equal. f_equal.
  rewrite skipn_app, skipn_all2 by lia.
  replace (length pre + 1 - length pre) with 1 by lia. reflexivity.
Qed.

Lemma re_search_head h rest0 :
  lang true HEAD_RE h ->
  exists h' rest' g,
    h ++ rest0 = h' ++ rest' /\ lang true HEAD_RE h' /\
    re_search true HEAD_RE (h ++ rest0) = Some (Match 0 (length h') g).
Proof.
  intros L. destruct (lang_Matches true HEAD_RE h L None rest0 []) as (g & M).
  pose proof (match_at_complete true HEAD_RE None (h ++ rest0) 0 _ M) as Hm.
  unfold re_search. rewrite (search_from_head _ _ _ _ _ Hm).
  destruct (match_at true HEAD_RE None (h ++ rest0) 0) as [hm|] eqn:E;
    [|congruence].
  apply match_at_inv in E. destruct E as (s' & w & M' & Hl & _ & ->).
  apply (Matches_lang true HEAD_RE eq_refl) in M'.
  destruct M' as (w' & Hl' & L'). simpl in Hl'.
  assert (w' = w) by (apply (app_inv_tail (rest s')); congruence). subst w'.
  exists w, (rest s'), (caps s'). auto.
Qed.

(** The shape of the synthesized statement: the head of the original with
    its wildcard replaced by the sorted field names, joined by blanks. *)
Lemma build_replacement_stmt_shape text table fields tt tn :
  lang true SELECT_STAR_RE text -> fields <> [] ->
  exists pre mid rest0 tail,
    text = pre ++ "*"%char :: mid ++ rest0 /\ ~ In "*"%char pre /\
    lang true HEAD_RE (pre ++ "*"%char :: mid) /\
    build_replacement_stmt text table fields tt tn =
    pre ++ join (s2l " ") (sorted fields) ++ mid ++ tail.
Proof.
  intros L Hf. destruct (select_star_head _ L) as (h & r0 & -> & Lh).
  destruct (re_search_head h r0 Lh) as (h' & r' & g & E & Lh' & Hs).
  destruct (head_star_split _ Lh') as (pre & mid & -> & Hpre).
  assert (Hne : nonempty fields = true)
    by (destruct fields; [congruence|reflexivity]).
  rewrite E in Hs |- *. clear E L Lh.
  unfold build_replacement_stmt. rewrite Hs. cbv zeta.
  simpl m_start. simpl m_end. rewrite Hne. clear Hne.
  replace (slice 0 (length (pre ++ "*"%char :: mid))
             ((pre ++ "*"%char :: mid) ++ r'))
    with (pre ++ "*"%char :: mid)
    by (symmetry; apply (slice_app [] (pre ++ "*"%char :: mid) r')).
  rewrite re_sub1_star by exact Hpre.
  exists pre, mid, r'.
  destruct tt; [destruct (nonempty (strip _))|destruct (nonempty (strip _))|];
    eexists; (split; [rewrite <- app_assoc; reflexivity|]);
    (split; [exact Hpre|]); (split; [exact Lh'|]);
    repeat rewrite <- app_assoc; reflexivity.
Qed.

Lemma select_star_match_lang txt m :
  In m (finditer true SELECT_STAR_RE txt) ->
  lang true SELECT_STAR_RE (group m "full").
Proof.
  intros H. apply select_star_match_inv in H.
  destruct H as (pre & w & post & _ & _ & _ & _ & -> & s' & M & Hr & _).
  apply (Matches_lang true SELECT_STAR_RE eq_refl) in M.
  destruct M as (w0 & E & L). simpl in E. rewrite Hr in E.
  apply app_inv_tail in E. subst. exact L.
Qed.

Lemma lower_ident c :
  is_ident c = true -> is_field_char (lower c) = true.
Proof.
  destruct c as [[] [] [] [] [] [] [] []]; vm_compute; intros H;
    try discriminate; reflexivity.
Qed.

Lemma field_char_lower c : is_field_char c = true -> lower c = c.
Proof.
  destruct c as [[] [] [] [] [] [] [] []]; vm_compute; intros H;
    try discriminate; reflexivity.
Qed.

(** The group [field] of a component access is a non-empty run of
    identifier characters. *)
Lemma struct_field_match_ident n flat m :
  In m (finditer false (STRUCT_FIELD_RE n) flat) ->
  run_of Ident (group m "field").
Proof.
  intros H. apply finditer_from_In in H.
  destruct H as (pre & l' & _ & H). apply match_at_inv in H.
  destruct H as (s' & w & M & _ & _ & ->).
  unfold STRUCT_FIELD_RE in M.
  apply Matches_Cat in M. destruct M as (s1 & _ & M).
  apply Matches_Cat in M. destruct M as (s2 & _ & M).
  apply Matches_Cat in M. destruct M as (s3 & _ & M).
  apply Matches_Cat in M. destruct M as (s4 & M4 & M5).
  destruct M5 as (_ & ->). apply Matches_Grp in M4.
  destruct M4 as (s5 & M4 & ->).
  apply (Matches_lang false (Plus Ident) eq_refl) in M4.
  destruct M4 as (w0 & E & L). unfold group. simpl.
  rewrite E, firstn_app_exact.
  destruct L as (w1 & w2 & -> & (c & Hc & ->) & Hw). split; [discriminate|].
  simpl. simpl in Hc. rewrite Hc. exact Hw.
Qed.

Lemma lower_str_field x :
  run_of Ident x -> field_name (lower_str x).
Proof.
  intros [Hne Hall]. split.
  - destruct x; [congruence|discriminate].
  - clear Hne. induction x as [|c x IH]; [reflexivity|].
    simpl in Hall |- *. apply andb_true_iff in Hall. destruct Hall as [Hc Hx].
    rewrite (lower_ident c Hc). apply IH, Hx.
Qed.

Lemma field_name_lower x : field_name x -> lower_str x = x.
Proof.
  intros [_ H]. unfold lower_str. rewrite <- (map_id x) at 2.
  apply map_ext_in. intros c Hc. rewrite forallb_forall in H.
  apply field_char_lower, H, Hc.
Qed.

Lemma collect_used_fields_names iter flat text table tt tn aliases x :
  In x (fst (collect_used_fields iter flat text table tt tn aliases)) ->
  field_name x.
Proof.
  unfold collect_used_fields. intros H. apply scan_names_fields_In in H.
  destruct H as (n & m & _ & Hm & ->).
  apply lower_str_field. eapply struct_field_match_ident; eauto.
Qed.

(** C7: a suggested field list holds lower-case names (non-empty words
    over a-z, 0-9 and the underscore), is free of duplicates and strictly
    ascending in the lexicographic order of code points; the
    suggested statement is the head of the located statement (the text at
    its span, from SELECT to the table name) with its one wildcard replaced
    by these names joined by single blanks, followed by the rest of the
    statement. *)
Theorem suggested_fields_contract iter units a f fs :
  iteration_order iter ->
  In a (analyze_array iter units) -> In f (selects a) ->
  suggested_fields f = Some fs ->
  Forall (fun x => field_name x /\ lower_str x = x) fs /\ NoDup fs /\
  StronglySorted str_lt fs /\
  exists pre mid tail,
    suggested_statement f =
      Some (pre ++ join (s2l " ") fs ++ mid ++ tail) /\
    lang true HEAD_RE (pre ++ "*"%char :: mid) /\ ~ In "*"%char pre /\
    slice (start_char_in_unit f)
      (start_char_in_unit f + length (pre ++ "*"%char :: mid))
      (code_or_empty (a_unit a)) = pre ++ "*"%char :: mid.
Proof.
  intros Hi Ha Hf Hs. unfold analyze_array in Ha. apply in_map_iff in Ha.
  destruct Ha as (u & <- & _). simpl in Hf |- *. apply in_map_iff in Hf.
  destruct Hf as (sel & <- & Hsel). unfold find_selects in Hsel.
  apply in_map_iff in Hsel. destruct Hsel as (m & <- & Hm).
  unfold analyze_select in *.
  pose proof (collect_used_fields_names iter (concat_units units)
                (sel_text (select_of_match m)) (sel_table (select_of_match m))
                (sel_target_type (select_of_match m))
                (sel_target_name (select_of_match m))
                (build_aliases (concat_units units))) as Hlow.
  pose proof (scan_names_fields_NoDup (concat_units units)
                (iter (candidate_names iter (sel_table (select_of_match m))
                         (sel_target_type (select_of_match m))
                         (sel_target_name (select_of_match m))
                         (build_aliases (concat_units units))))) as Hnd.
  fold (collect_used_fields iter (concat_units units)
          (sel_text (select_of_match m)) (sel_table (select_of_match m))
          (sel_target_type (select_of_match m))
          (sel_target_name (select_of_match m))
          (build_aliases (concat_units units))) in Hnd.
  destruct (collect_used_fields iter _ _ _ _ _ _) as [used amb].
  simpl in Hs, Hlow, Hnd |- *.
  destruct (nonempty used && negb amb) eqn:E; [|discriminate].
  inversion Hs; subst fs; clear Hs.
  assert (P : Permutation (sorted (iter used)) used)
    by (rewrite sorted_perm; apply Hi).
  split; [|split; [|split]].
  - apply Forall_forall. intros x Hx.
    assert (field_name x) by (apply Hlow; eapply Permutation_in; eauto).
    split; [assumption|apply field_name_lower; assumption].
  - eapply Permutation_NoDup; [symmetry; exact P|exact Hnd].
  - apply sorted_strict. eapply Permutation_NoDup; [symmetry; apply Hi|exact Hnd].
  - apply andb_true_iff in E. destruct E as [E _].
    rewrite <- (nonempty_perm _ _ P) in E.
    destruct (sorted (iter used)) as [|f0 fs'] eqn:Es; [discriminate|].
    destruct (build_replacement_stmt_shape (sel_text (select_of_match m))
                (sel_table (select_of_match m)) (f0 :: fs')
                (sel_target_type (select_of_match m))
                (sel_target_name (select_of_match m)))
      as (pre & mid & rest0 & tail & Ht & Hpre & Lh & Hb).
    { rewrite select_of_match_text. eapply select_star_match_lang; eauto. }
    { discriminate. }
    rewrite <- Es, sorted_idem, Es in Hb.
    exists pre, mid, tail. rewrite Hb. repeat split; auto.
    rewrite select_of_match_span. simpl fst.
    rewrite select_of_match_text in Ht.
    apply select_star_match_inv in Hm.
    destruct Hm as (pre0 & w & post & -> & -> & _ & _ & Hg & _).
    rewrite Hg in Ht. rewrite Ht.
    replace (pre0 ++ (pre ++ "*"%char :: mid ++ rest0) ++ post)
      with (pre0 ++ (pre ++ "*"%char :: mid) ++ (rest0 ++ post))
      by (repeat (rewrite <- app_assoc; simpl); reflexivity).
    apply slice_app.
Qed.

Lemma suggested_fields_contract_witness :
  Forall (fun x => field_name x /\ lower_str x = x) [s2l "a"; s2l "b"] /\
  NoDup [s2l "a"; s2l "b"] /\ StronglySorted str_lt [s2l "a"; s2l "b"] /\
  exists pre mid tail,
    suggested_statement single_finding =
      Some (pre ++ join (s2l " ") [s2l "a"; s2l "b"] ++ mid ++ tail) /\
    lang true HEAD_RE (pre ++ "*"%char :: mid) /\ ~ In "*"%char pre /\
    slice (start_char_in_unit single_finding)
      (start_char_in_unit single_finding + length (pre ++ "*"%char :: mid))
      (code_or_empty single_unit) = pre ++ "*"%char :: mid.
Proof.
  apply (suggested_fields_contract insertion_order [single_unit]
           (mkAnalysis single_unit [single_finding]) single_finding
           [s2l "a"; s2l "b"] insertion_order_ok).
  - vm_compute. left. reflexivity.
  - left. reflexivity.
  - reflexivity.
Defined.

(* ================================================================== *)
(** * Dynamic component access *)

Lemma lang_lits n :
  forall k, same_ic k n -> lang true (lits n) k.
Proof.
  unfold same_ic. induction n as [|c n IH]; intros k H; simpl.
  - destruct k; [reflexivity|discriminate].
  - destruct k as [|x k]; [discriminate|]. simpl in H. inversion H.
    exists [x], k. split; [reflexivity|]. split; [|apply IH; assumption].
    exists x. split; [|reflexivity]. unfold chr_eq.
    apply Ascii.eqb_eq. congruence.
Qed.

Lemma lang_Plus ic p w : run_of p w -> lang ic (Plus p) w.
Proof.
  intros [Hne Hall]. destruct w as [|c w]; [congruence|].
  simpl in Hall. apply andb_true_iff in Hall. destruct Hall as [Hc Hw].
  exists [c], w. split; [reflexivity|]. split; [|exact Hw].
  exists c. auto.
Qed.

Lemma space_not_word c : is_space c = true -> is_word c = false.
Proof.
  destruct c as [[] [] [] [] [] [] [] []]; vm_compute; intros H;
    try discriminate; reflexivity.
Qed.

Lemma lastc_run_space w :
  forall b, run_of Space w -> word_opt (lastc b w) = false.
Proof.
  induction w as [|c w IH]; intros b [Hne Hall]; [congruence|].
  simpl in Hall. apply andb_true_iff in Hall. destruct Hall as [Hc Hw].
  simpl. destruct w as [|d w].
  - simpl. apply space_not_word. exact Hc.
  - apply IH. split; [discriminate|exact Hw].
Qed.

Lemma word_after_blanks b5 n' b :
  run_of Space b5 ->
  word_opt (lastc (lastc b b5) n') = word_opt (lastc None n').
Proof.
  intros H. destruct n' as [|c n']; [|reflexivity].
  simpl. apply lastc_run_space. exact H.
Qed.

(** One step of a sequence: a word of the plain pattern [r1], then
    whatever [r2] matches behind it. *)
Lemma occurs_step ic r1 r2 w b l g :
  lang ic r1 w ->
  (forall g', exists s', Matches ic r2 (MState (lastc b w) l g') s') ->
  exists s', Matches ic (Cat r1 r2) (MState b (w ++ l) g) s'.
Proof.
  intros L H. destruct (lang_Matches ic r1 w L b l g) as (g' & M1).
  destruct (H g') as (s' & M2). exists s'. simpl. eauto.
Qed.

Lemma assigns_component_occurs corpus n :
  assigns_component_of corpus n ->
  occurs true (ASSIGN_COMPONENT_RE n) corpus.
Proof.
  intros (pre & k1 & b1 & k2 & b2 & comp & b3 & k3 & b4 & k4 & b5 & n' & post
          & -> & H1 & H2 & H3 & H4 & H5 & H6 & H7 & H8 & H9 & H10 & H11 & HB).
  exists pre. eexists. split; [reflexivity|].
  unfold occurs_at, ASSIGN_COMPONENT_RE, kw.
  apply occurs_step; [apply lang_lits, H1|intros ?].
  apply occurs_step; [apply lang_Plus, H2|intros ?].
  apply occurs_step; [apply lang_lits, H3|intros ?].
  apply occurs_step; [apply lang_Plus, H4|intros ?].
  apply occurs_step; [apply lang_Plus, H5|intros ?].
  apply occurs_step; [apply lang_Plus, H6|intros ?].
  apply occurs_step; [apply lang_lits, H7|intros ?].
  apply occurs_step; [apply lang_Plus, H8|intros ?].
  apply occurs_step; [apply lang_lits, H9|intros ?].
  apply occurs_step; [apply lang_Plus, H10|intros ?].
  apply occurs_step; [apply lang_lits, H11|intros ?].
  eexists. simpl. split; [|reflexivity].
  unfold at_boundary. simpl before. simpl rest.
  rewrite word_after_blanks by exact H10. exact HB.
Qed.

Lemma select_of_match_implicit m :
  sel_target_type (select_of_match m) = implicit ->
  sel_target_name (select_of_match m) = sel_table (select_of_match m).
Proof.
  unfold select_of_match.
  destruct (re_search true INTO_TABLE_RE (group m "body")); [discriminate|].
  destruct (re_search true INTO_WA_RE (group m "body")); [discriminate|].
  reflexivity.
Qed.

Lemma analyze_select_ambiguous iter flat aliases sel :
  ambiguous (analyze_select iter flat aliases sel) =
  snd (collect_used_fields iter flat (sel_text sel) (sel_table sel)
         (sel_target_type sel) (sel_target_name sel) aliases) /\
  target_type (analyze_select iter flat aliases sel) = sel_target_type sel /\
  target_name (analyze_select iter flat aliases sel) = sel_target_name sel.
Proof.
  unfold analyze_select.
  destruct (collect_used_fields iter _ _ _ _ _ _). auto.
Qed.

Lemma collect_used_fields_ambiguous iter flat text table tt tn aliases n :
  iteration_order iter ->
  In n (candidate_names iter table tt tn aliases) ->
  occurs true (ASSIGN_COMPONENT_RE n) flat ->
  snd (collect_used_fields iter flat text table tt tn aliases) = true.
Proof.
  intros Hi Hn Ho. unfold collect_used_fields, scan_names. simpl.
  apply existsb_exists. exists n. split.
  - eapply Permutation_in; [symmetry; apply Hi|exact Hn].
  - apply re_search_occurs in Ho.
    destruct (re_search true (ASSIGN_COMPONENT_RE n) flat); [reflexivity|congruence].
Qed.

(** What the ambiguity test does detect: if the corpus holds a dynamic
    component access with a one-word component operand,
    [ASSIGN COMPONENT comp OF STRUCTURE n], whose operand [n], ending at a
    word boundary, is the target name of a located statement or, for an
    internal-table target, an alias recorded for that target in the binding
    map, the finding is ambiguous, whatever fields were harvested. *)
Theorem dynamic_access_forces_ambiguous iter units a f n :
  iteration_order iter ->
  In a (analyze_array iter units) -> In f (selects a) ->
  n = target_name f \/
  (target_type f = itab /\
   In n (aliases_get (build_aliases (concat_units units)) (target_name f))) ->
  assigns_component_of (concat_units units) n ->
  ambiguous f = true.
Proof.
  intros Hi Ha Hf Hn Hd. unfold analyze_array in Ha. apply in_map_iff in Ha.
  destruct Ha as (u & <- & _). simpl in Hf. apply in_map_iff in Hf.
  destruct Hf as (sel & <- & Hsel). unfold find_selects in Hsel.
  apply in_map_iff in Hsel. destruct Hsel as (m & <- & _).
  destruct (analyze_select_ambiguous iter (concat_units units)
              (build_aliases (concat_units units)) (select_of_match m))
    as (-> & Et & En).
  rewrite Et, En in Hn.
  apply collect_used_fields_ambiguous with (n := n); auto.
  - apply candidate_names_In; auto.
    pose proof (select_of_match_implicit m) as Him.
    destruct (sel_target_type (select_of_match m)).
    + destruct Hn as [->|[_ H]]; auto.
    + destruct Hn as [->|[H _]]; [reflexivity|discriminate].
    + destruct Hn as [->|[H _]]; [auto|discriminate].
  - apply assigns_component_occurs, Hd.
Qed.

Lemma dynamic_access_forces_ambiguous_witness : ambiguous vbak_finding = true.
Proof.
  apply (dynamic_access_forces_ambiguous insertion_order vbak_units
           (mkAnalysis (unit_of "SELECT * FROM vbak INTO wa_vbak. WRITE wa_vbak-vbeln.")
              [vbak_finding])
           vbak_finding (s2l "wa_vbak") insertion_order_ok).
  - vm_compute. left. reflexivity.
  - left. reflexivity.
  - left. reflexivity.
  - exists (s2l "SELECT * FROM vbak INTO wa_vbak. WRITE wa_vbak-vbeln." ++ nl),
      (s2l "ASSIGN"), (s2l " "), (s2l "COMPONENT"), (s2l " "),
      (s2l "lv_name"), (s2l " "), (s2l "OF"), (s2l " "), (s2l "STRUCTURE"),
      (s2l " "), (s2l "wa_vbak"), (s2l " TO <fs>." ++ nl).
    repeat split; try reflexivity; discriminate.
Defined.

(** Only the candidate names are tested: an internal-table target, and a
    dynamic component access through a field symbol that is no recorded
    alias of the target, give a finding that is not ambiguous. *)
Lemma unrelated_field_symbol_not_ambiguous :
  occurs true V2.ASSIGN_COMPONENT_FS_RE (concat_units mara_fs_units) /\
  map (fun a => map (fun f => (target_type f, ambiguous f)) (selects a))
    (analyze_array insertion_order mara_fs_units) = [[(itab, false)]].
Proof.
  split; [|vm_compute; reflexivity].
  apply re_search_occurs. vm_compute. discriminate.
Qed.

(** C2 at the failing inputs.  A dynamic component access on the exact
    target name whose component is chosen by index,
    [ASSIGN COMPONENT sy-index OF STRUCTURE wa_vbak], is not detected: the
    test asks for a single word as component operand.  The finding is not
    ambiguous and a rewrite is suggested from the one field that is
    statically visible.  Nor is the access through the recorded alias [<fs>]
    of an internal-table target detected, [... OF STRUCTURE <fs> TO <x>]:
    behind the closing angle bracket the word boundary holds only before a
    word character. *)
Theorem dynamic_access_not_detected iter p i t n c s e :
  iteration_order iter ->
  analyze_array iter [mkUnit p i t n c s e (Some vbak_index_text)] =
  [mkAnalysis (mkUnit p i t n c s e (Some vbak_index_text))
     [mkFinding (s2l "vbak") wa (s2l "wa_vbak") 0 32 [s2l "vbeln"] false
        (Some [s2l "vbeln"])
        (Some (s2l "SELECT vbeln FROM vbak" ++ nl ++
               s2l "  INTO CORRESPONDING FIELDS OF wa_vbak."))]] /\
  analyze_array iter [mkUnit p i t n c s e (Some mara_field_symbol_text)] =
  [mkAnalysis (mkUnit p i t n c s e (Some mara_field_symbol_text))
     [mkFinding (s2l "mara") itab (s2l "it_mara") 0 38 [s2l "matnr"] false
        (Some [s2l "matnr"])
        (Some (s2l "SELECT matnr FROM mara" ++ nl ++
               s2l "  INTO CORRESPONDING FIELDS OF TABLE it_mara."))]].
Proof.
  intros H.
  rewrite !(analyze_array_order iter insertion_order _ H insertion_order_ok).
  split; vm_compute; reflexivity.
Qed.

Lemma dynamic_access_not_detected_witness :
  map selects (analyze_array insertion_order [unit_of "SELECT * FROM vbak INTO wa_vbak. WRITE wa_vbak-vbeln. ASSIGN COMPONENT sy-index OF STRUCTURE wa_vbak TO <fs>."]) =
  [[mkFinding (s2l "vbak") wa (s2l "wa_vbak") 0 32 [s2l "vbeln"] false
      (Some [s2l "vbeln"])
      (Some (s2l "SELECT vbeln FROM vbak" ++ nl ++
             s2l "  INTO CORRESPONDING FIELDS OF wa_vbak."))]].
Proof.
  unfold unit_of.
  rewrite (proj1 (dynamic_access_not_detected insertion_order _ _ _ _ _ _ _
                    insertion_order_ok)).
  reflexivity.
Defined.

(* ================================================================== *)
(** * The earlier iteration compared *)

(** The locator of [app_V2.py] never sees the receiving clause: the lazy
    [middle] group is tried empty first, the optional INTO group is then
    skipped and [tail] runs up to the period. *)
Lemma V2_find_selects_spfli :
  map (fun sel => (sel_target_type sel, sel_target_name sel))
    (V2.find_selects spfli_text) = [(implicit, s2l "spfli")].
Proof. vm_compute. reflexivity. Qed.

(** The harvester of [app_V2.py] matches component accesses in any case. *)
Lemma V2_collects_upper_case :
  V2.collect_used_fields insertion_order (spfli_upper_text ++ nl) wa
    (s2l "wa_spfli") [] = ([s2l "carrid"], false).
Proof. vm_compute. reflexivity. Qed.

(** In [app_V2.py] an internal-table target is ambiguous as soon as any
    field symbol is the operand of a dynamic component access. *)
Lemma V2_any_field_symbol_ambiguous iter source tn aliases :
  occurs true V2.ASSIGN_COMPONENT_FS_RE source ->
  snd (V2.collect_used_fields iter source itab tn aliases) = true.
Proof.
  intros H. apply re_search_occurs in H. unfold V2.collect_used_fields. simpl.
  destruct (re_search true V2.ASSIGN_COMPONENT_FS_RE source);
    [reflexivity|congruence].
Qed.

(** In [app_V2.py] an implicit target is never ambiguous. *)
Lemma V2_implicit_never_ambiguous iter source tn aliases :
  snd (V2.collect_used_fields iter source implicit tn aliases) = false.
Proof. reflexivity. Qed.

(** Remediating the scenario text replaces the statement; remediating the
    result again changes nothing. *)
Lemma remediate_spfli_twice :
  map remediated_code
    (remediate_array insertion_order
       [mkUnit [] [] [] None None None None (Some spfli_text)]) =
  [s2l "SELECT carrid connid FROM spfli" ++ nl ++
   s2l "  INTO CORRESPONDING FIELDS OF wa_spfli. WRITE wa_spfli-carrid. WRITE wa_spfli-connid."] /\
  map remediated_code
    (remediate_array insertion_order
       (map (fun r => mkUnit [] [] [] None None None None
                        (Some (remediated_code r)))
          (remediate_array insertion_order
             [mkUnit [] [] [] None None None None (Some spfli_text)]))) =
  map remediated_code
    (remediate_array insertion_order
       [mkUnit [] [] [] None None None None (Some spfli_text)]).
Proof. split; vm_compute; reflexivity. Qed.

(* ================================================================== *)
(** * Priority of the matcher *)

Section Priority.

Variable ic : bool.

Lemma rmatch_Cat r1 r2 A (k : mstate -> option A) s :
  rmatch ic (Cat r1 r2) A k s = rmatch ic r1 A (rmatch ic r2 A k) s.
Proof. reflexivity. Qed.

Lemma rmatch_Grp n r A (k : mstate -> option A) s :
  rmatch ic (Grp n r) A k s =
  rmatch ic r A
    (fun s' =>
       k (MState (before s') (rest s')
            ((n, firstn (length (rest s) - length (rest s')) (rest s))
               :: caps s')))
    s.
Proof. reflexivity. Qed.

(** A pattern without groups leaves the captured groups as they are. *)
Lemma Matches_groupless r :
  groupless r = true ->
  forall s s', Matches ic r s s' -> caps s' = caps s.
Proof.
  induction r as [|c|p|r1 IH1 r2 IH2|r1 IH1 r2 IH2|r1 IH1|p|p|n r1 IH1|
                  |r1 IH1|p]; intros G s s' M; simpl in G, M;
    try discriminate.
  - subst. reflexivity.
  - destruct M as (x & _ & _ & _ & E). exact E.
  - destruct M as (x & _ & _ & _ & E). exact E.
  - apply andb_true_iff in G. destruct G as [G1 G2].
    destruct M as (s1 & M1 & M2).
    rewrite (IH2 G2 _ _ M2). apply (IH1 G1 _ _ M1).
  - apply andb_true_iff in G. destruct G as [G1 G2].
    destruct M as [M|M]; [apply (IH1 G1 _ _ M)|apply (IH2 G2 _ _ M)].
  - destruct M as [M| ->]; [apply (IH1 G _ _ M)|reflexivity].
  - destruct M as (w & _ & _ & _ & E). exact E.
  - destruct M as (w & _ & _ & _ & E). exact E.
  - destruct M as (_ & ->). reflexivity.
  - destruct M as (_ & ->). reflexivity.
  - destruct M as (_ & ->). reflexivity.
Qed.

(** Where the matcher gets past a plain pattern without groups, it has read
    one of its words and goes on behind it. *)
Lemma rmatch_peel r A (k : mstate -> option A) s a :
  plain r = true -> groupless r = true ->
  rmatch ic r A k s = Some a ->
  exists w l1,
    rest s = w ++ l1 /\ lang ic r w /\
    k (MState (lastc (before s) w) l1 (caps s)) = Some a.
Proof.
  intros P G H. apply rmatch_sound in H. destruct H as (s1 & M & Hk).
  destruct (Matches_lang ic r P _ _ M) as (w & E & L).
  destruct (Matches_reads ic r _ _ M) as (w' & E' & B & _).
  assert (w' = w) by (apply (app_inv_tail (rest s1)); congruence). subst w'.
  pose proof (Matches_groupless r G _ _ M) as C.
  exists w, (rest s1). repeat split; auto.
  rewrite <- B, <- C. destruct s1; exact Hk.
Qed.

(** The lazy star stops at the first place where the continuation
    succeeds. *)
Lemma star_lazy_minimal {A} p (k : mstate -> option A) l :
  forall b g a,
    star_lazy p k b l g = Some a ->
    exists w l',
      l = w ++ l' /\ forallb (cset_mem p) w = true /\
      k (MState (lastc b w) l' g) = Some a /\
      forall w1 c w2,
        w = w1 ++ c :: w2 ->
        k (MState (lastc b w1) (c :: w2 ++ l') g) = None.
Proof.
  induction l as [|c l IH]; intros b g a H; simpl in H.
  - destruct (k (MState b [] g)) eqn:Hk; [|discriminate].
    inversion H; subst. exists [], []. repeat split; auto.
    intros w1 c w2 E. destruct w1; discriminate.
  - destruct (k (MState b (c :: l) g)) eqn:Hk.
    + inversion H; subst. exists [], (c :: l). repeat split; auto.
      intros w1 c' w2 E. destruct w1; discriminate.
    + destruct (cset_mem p c) eqn:Hc; [|discriminate].
      destruct (IH _ _ _ H) as (w & l' & -> & Hw & Hk' & Hmin).
      exists (c :: w), l'. simpl. rewrite Hc, Hw. repeat split; auto.
      intros w1 c' w2 E. destruct w1 as [|d w1]; simpl in E.
      * inversion E; subst. simpl. exact Hk.
      * inversion E; subst. simpl. apply Hmin. reflexivity.
Qed.

(** The greedy star takes the longest run for which the continuation
    succeeds. *)
Lemma star_greedy_maximal {A} p (k : mstate -> option A) l :
  forall b g a,
    star_greedy p k b l g = Some a ->
    exists w l',
      l = w ++ l' /\ forallb (cset_mem p) w = true /\
      k (MState (lastc b w) l' g) = Some a /\
      forall w1 l1,
        l' = w1 ++ l1 -> w1 <> [] -> forallb (cset_mem p) w1 = true ->
        k (MState (lastc b (w ++ w1)) l1 g) = None.
Proof.
  induction l as [|c l IH]; intros b g a H; simpl in H.
  - exists [], []. repeat split; auto.
    intros w1 l1 E. destruct w1; [congruence|discriminate].
  - destruct (cset_mem p c) eqn:Hc.
    + destruct (star_greedy p k (Some c) l g) eqn:Hs.
      * inversion H; subst.
        destruct (IH _ _ _ Hs) as (w & l' & -> & Hw & Hk & Hmax).
        exists (c :: w), l'. simpl. rewrite Hc, Hw. repeat split; auto.
      * exists [], (c :: l). repeat split; auto.
        intros w1 l1 E Hne Hw1. destruct w1 as [|d w1]; [congruence|].
        simpl in E. inversion E; subst. simpl.
        destruct (k (MState (lastc (Some d) w1) l1 g)) eqn:Hk; [|reflexivity].
        exfalso. simpl in Hw1. apply andb_true_iff in Hw1.
        refine (star_greedy_complete p k w1 l1 (Some d) g (proj2 Hw1) _ Hs).
        rewrite Hk. discriminate.
    + exists [], (c :: l). repeat split; auto.
      intros w1 l1 E Hne Hw1. destruct w1 as [|d w1]; [congruence|].
      simpl in E. inversion E; subst. simpl in Hw1. rewrite Hc in Hw1.
      discriminate.
Qed.

End Priority.

(* ================================================================== *)
(** * Anatomy of a located statement *)

Lemma chr_eq_dot x : chr_eq true "." x = true -> x = "."%char.
Proof.
  destruct x as [[] [] [] [] [] [] [] []]; vm_compute; intros H;
    try discriminate; reflexivity.
Qed.

Lemma rmatch_LazyStar ic p A (k : mstate -> option A) s :
  rmatch ic (LazyStar p) A k s = star_lazy p k (before s) (rest s) (caps s).
Proof. reflexivity. Qed.

Lemma rmatch_Lit ic c A (k : mstate -> option A) b l g :
  rmatch ic (Lit c) A k (MState b l g) =
  match l with
  | x :: l' => if chr_eq ic c x then k (MState (Some x) l' g) else None
  | [] => None
  end.
Proof. reflexivity. Qed.

Ltac peel H w l E L :=
  rewrite rmatch_Cat in H;
  apply rmatch_peel in H; [|reflexivity|reflexivity];
  destruct H as (w & l & E & L & H);
  cbn [before rest caps] in E, H.

Lemma rmatch_Star ic p A (k : mstate -> option A) s :
  rmatch ic (Star p) A k s = star_greedy p k (before s) (rest s) (caps s).
Proof. reflexivity. Qed.

(** What [SELECT_STAR_RE] matches at a position: a head ending in the table
    name, which is a whole word, a body without period, and the period;
    with the three groups. *)
Lemma select_star_match_at b l pos m :
  match_at true SELECT_STAR_RE b l pos = Some m ->
  exists h wt body post,
    l = h ++ wt ++ body ++ "."%char :: post /\
    lang true HEAD_RE (h ++ wt) /\ run_of Word wt /\
    word_opt (hd_error body) = false /\
    ~ In "."%char (h ++ wt ++ body) /\
    m = Match pos (pos + length (h ++ wt ++ body ++ ["."%char]))
          [("full"%string, h ++ wt ++ body ++ ["."%char]);
           ("body"%string, body); ("table"%string, wt)].
Proof.
  unfold match_at, SELECT_STAR_RE. intros H. rewrite rmatch_Grp in H.
  peel H w1 l1 E1 L1. peel H w2 l2 E2 L2. peel H w3 l3 E3 L3.
  peel H w4 l4 E4 L4. peel H w5 l5 E5 L5. peel H w6 l6 E6 L6.
  peel H w7 l7 E7 L7.
  rewrite rmatch_Cat, rmatch_Grp in H. unfold Plus in H.
  peel H w8 l8 E8 L8. destruct L8 as (c0 & Hc0 & ->).
  rewrite rmatch_Star in H. cbn [before rest caps] in H.
  apply star_greedy_maximal in H.
  destruct H as (wr & l9 & E9 & Hwr & H & Hmax).
  cbn [before rest caps] in H, Hmax.
  rewrite rmatch_Cat, rmatch_Grp, rmatch_LazyStar in H.
  cbn [before rest caps] in H.
  apply star_lazy_minimal in H.
  destruct H as (body & l10 & E10 & _ & Hk & Hmin).
  cbn [before rest caps] in Hk. rewrite rmatch_Lit in Hk.
  destruct l10 as [|x post]; [discriminate|].
  destruct (chr_eq true "." x) eqn:Ex; [|discriminate].
  apply chr_eq_dot in Ex. subst x. cbn [before rest caps] in Hk.
  inversion Hk as [Hm]. clear Hk.
  subst l l1 l2 l3 l4 l5 l6 l7 l8 l9.
  set (h := w1 ++ w2 ++ w3 ++ w4 ++ w5 ++ w6 ++ w7).
  set (wt := c0 :: wr).
  assert (El : w1 ++ w2 ++ w3 ++ w4 ++ w5 ++ w6 ++ w7 ++ [c0] ++ wr ++
               body ++ "."%char :: post =
               (h ++ wt ++ body ++ ["."%char]) ++ post).
  { unfold h, wt. repeat rewrite <- app_assoc. reflexivity. }
  assert (Lt : lang true (Plus Word) wt).
  { exists [c0], wr. split; [reflexivity|]. split; [exists c0; auto|exact Hwr]. }
  assert (Lh : lang true HEAD_RE (h ++ wt)).
  { unfold h, HEAD_RE. repeat rewrite <- app_assoc. do 7 build_cat. exact Lt. }
  exists h, wt, body, post. split; [|split; [|split; [|split; [|split]]]].
  - rewrite El. repeat rewrite <- app_assoc. reflexivity.
  - exact Lh.
  - split; [discriminate|]. simpl. simpl in Hc0. rewrite Hc0. exact Hwr.
  - destruct body as [|c body']; [reflexivity|]. simpl.
    destruct (is_word c) eqn:Hc; [|reflexivity]. exfalso.
    specialize (Hmax [c] (body' ++ "."%char :: post) eq_refl).
    assert (Hw : forallb (cset_mem Word) [c] = true)
      by (simpl; rewrite Hc; reflexivity).
    specialize (Hmax ltac:(discriminate) Hw). revert Hmax.
    assert (Lb : lang true (Cat (Grp "body" (LazyStar Any)) (Lit "."))
                   (body' ++ ["."%char])).
    { exists body', ["."%char]. split; [reflexivity|]. split.
      - simpl. apply forallb_forall. reflexivity.
      - exists "."%char. split; reflexivity. }
    match goal with
    | |- rmatch true ?r ?A ?k (MState ?b0 ?l0 ?g0) = None -> False =>
        destruct (lang_Matches true _ _ Lb b0 post g0) as (g' & M);
        intros Hn;
        refine (rmatch_complete true r A k _ _ _ _ Hn)
    end.
    + rewrite <- app_assoc in M. exact M.
    + discriminate.
  - rewrite app_assoc, in_app_iff. intros [Hin|Hin].
    + revert Hin. apply (lang_avoids true "." HEAD_RE eq_refl). exact Lh.
    + apply in_split in Hin. destruct Hin as (wa1 & wa2 & Ew).
      specialize (Hmin wa1 "."%char wa2 Ew).
      cbn [before rest caps] in Hmin. rewrite rmatch_Lit in Hmin.
      change (chr_eq true "." ".") with true in Hmin. discriminate.
  - rewrite El, firstn_app_exact.
    change ([c0] ++ wr ++ body ++ "."%char :: post)
      with (wt ++ body ++ "."%char :: post).
    rewrite (firstn_app_exact wt (body ++ "."%char :: post)).
    change (S (length post)) with (length ("."%char :: post)).
    rewrite (firstn_app_exact body ("."%char :: post)).
    replace (length ((h ++ wt ++ body ++ ["."%char]) ++ post) - length post)
      with (length (h ++ wt ++ body ++ ["."%char]))
      by (rewrite (length_app _ post); lia).
    reflexivity.
Qed.

Lemma find_selects_anatomy txt sel :
  In sel (find_selects txt) ->
  exists m pre h wt body post,
    sel = select_of_match m /\
    txt = pre ++ h ++ wt ++ body ++ "."%char :: post /\
    lang true HEAD_RE (h ++ wt) /\ run_of Word wt /\
    word_opt (hd_error body) = false /\
    ~ In "."%char (h ++ wt ++ body) /\
    m = Match (length pre) (length pre + length (h ++ wt ++ body ++ ["."%char]))
          [("full"%string, h ++ wt ++ body ++ ["."%char]);
           ("body"%string, body); ("table"%string, wt)].
Proof.
  unfold find_selects. intros H. apply in_map_iff in H.
  destruct H as (m & <- & Hm). apply finditer_from_In in Hm.
  destruct Hm as (pre & l' & -> & Hm). simpl in Hm.
  apply select_star_match_at in Hm.
  destruct Hm as (h & wt & body & post & -> & Lh & Hwt & Hb & Hd & ->).
  exists (Match (length pre) (length pre + length (h ++ wt ++ body ++ ["."%char]))
            [("full"%string, h ++ wt ++ body ++ ["."%char]);
             ("body"%string, body); ("table"%string, wt)]),
    pre, h, wt, body, post.
  repeat split; auto. apply Hwt. apply Hwt.
Qed.

Lemma lang_lits_inv n :
  forall k, lang true (lits n) k -> same_ic k n.
Proof.
  unfold same_ic. induction n as [|c n IH]; intros k L; simpl in L.
  - subst. reflexivity.
  - destruct L as (w1 & w2 & -> & (x & E & ->) & L2). simpl.
    unfold chr_eq in E. apply Ascii.eqb_eq in E. rewrite E.
    f_equal. apply IH, L2.
Qed.

Lemma lang_Plus_inv ic p w : lang ic (Plus p) w -> run_of p w.
Proof.
  intros (w1 & w2 & -> & (c & Hc & ->) & Hw). split; [discriminate|].
  simpl. rewrite Hc. exact Hw.
Qed.

Lemma Matches_plain ic r s s' :
  plain r = true -> Matches ic r s s' ->
  exists w,
    rest s = w ++ rest s' /\ before s' = lastc (before s) w /\ lang ic r w.
Proof.
  intros P M. destruct (Matches_lang ic r P _ _ M) as (w & E & L).
  destruct (Matches_reads ic r _ _ M) as (w' & E' & B & _).
  assert (w' = w) by (apply (app_inv_tail (rest s')); congruence). subst w'.
  exists w. auto.
Qed.

Lemma plain_lits n : plain (lits n) = true.
Proof. induction n; simpl; auto. Qed.

Ltac pstep M s w E B L :=
  let Mi := fresh "Mi" in
  apply Matches_Cat in M; destruct M as (s & Mi & M);
  apply Matches_plain in Mi; [|first [reflexivity|apply plain_lits]];
  destruct Mi as (w & E & B & L).

(** Letter case does not change whether a character is a word character. *)
Lemma is_word_lower c : is_word (lower c) = is_word c.
Proof. destruct c as [[] [] [] [] [] [] [] []]; vm_compute; reflexivity. Qed.

Lemma same_ic_words k n :
  same_ic k n -> forallb is_word n = true -> forallb is_word k = true.
Proof.
  unfold same_ic. revert n. induction k as [|x k IH]; intros n E Hn;
    [reflexivity|].
  destruct n as [|c n]; [discriminate|]. simpl in E, Hn |- *.
  inversion E as [[Ex Ek]]. apply andb_true_iff in Hn. destruct Hn as [Hc Hn].
  rewrite <- is_word_lower, Ex, is_word_lower, Hc. simpl. eapply IH; eauto.
Qed.

Lemma same_ic_nonempty k c n : same_ic k (c :: n) -> k <> [].
Proof. unfold same_ic. destruct k; [discriminate|discriminate]. Qed.

Lemma word_run_head w l :
  w <> [] -> forallb is_word w = true -> word_opt (hd_error (w ++ l)) = true.
Proof.
  destruct w as [|x w]; [congruence|]. simpl. intros _ H.
  apply andb_true_iff in H. apply H.
Qed.

Lemma word_run_last w :
  forall b, w <> [] -> forallb is_word w = true -> word_opt (lastc b w) = true.
Proof.
  induction w as [|x w IH]; intros b Hne H; [congruence|].
  simpl in H. apply andb_true_iff in H. destruct H as [Hx Hw].
  destruct w as [|y w]; [exact Hx|].
  apply (IH (Some x)); [discriminate|exact Hw].
Qed.

(** A word that ends where the word characters end is determined by the
    place where it starts. *)
Lemma word_run_unique w1 :
  forall w2 r1 r2,
    w1 ++ r1 = w2 ++ r2 ->
    forallb is_word w1 = true -> forallb is_word w2 = true ->
    word_opt (hd_error r1) = false -> word_opt (hd_error r2) = false ->
    w1 = w2.
Proof.
  induction w1 as [|x w1 IH]; intros w2 r1 r2 E H1 H2 N1 N2.
  - destruct w2 as [|y w2]; [reflexivity|]. simpl in E. subst r1.
    simpl in N1, H2. apply andb_true_iff in H2. destruct H2 as [Hy _].
    congruence.
  - destruct w2 as [|y w2]; simpl in E.
    + subst r2. simpl in N2, H1. apply andb_true_iff in H1.
      destruct H1 as [Hx _]. congruence.
    + inversion E; subst. simpl in H1, H2.
      apply andb_true_iff in H1. apply andb_true_iff in H2.
      f_equal. apply (IH w2 r1 r2); tauto.
Qed.

Lemma xorb_true_r_false a : xorb a true = true -> a = false.
Proof. destruct a; [discriminate|reflexivity]. Qed.

Lemma xorb_true_l_false a : xorb true a = true -> a = false.
Proof. destruct a; [discriminate|reflexivity]. Qed.

(** The search returns the leftmost place where the pattern matches. *)
Lemma search_from_first ic r l :
  forall b pos m,
    search_from ic r b l pos = Some m ->
    exists pre l',
      l = pre ++ l' /\
      match_at ic r (lastc b pre) l' (pos + length pre) = Some m /\
      forall pre1 l1 s',
        l = pre1 ++ l1 -> length pre1 < length pre ->
        ~ Matches ic r (MState (lastc b pre1) l1 []) s'.
Proof.
  induction l as [|c l IH]; intros b pos m H; simpl in H.
  - destruct (match_at ic r b [] pos) eqn:E; [|discriminate].
    inversion H; subst. exists [], []. simpl. rewrite Nat.add_0_r.
    repeat split; auto. intros; lia.
  - destruct (match_at ic r b (c :: l) pos) eqn:E.
    + inversion H; subst. exists [], (c :: l). simpl.
      rewrite Nat.add_0_r. repeat split; auto. intros; lia.
    + destruct (IH _ _ _ H) as (pre & l' & -> & Hm & Hfirst).
      exists (c :: pre), l'. simpl. split; [reflexivity|]. split.
      * rewrite <- Hm. f_equal. lia.
      * intros pre1 l1 s' E1 Hlt M. destruct pre1 as [|c1 pre1]; simpl in E1.
        -- subst l1. exact (match_at_none ic r b _ pos E s' M).
        -- inversion E1; subst. simpl in Hlt, M.
           apply (Hfirst pre1 l1 s' H2); [lia|exact M].
Qed.

(** What [INTO_TABLE_RE] matches at a place is the receiving clause there. *)
Lemma into_table_match pre l pos m :
  match_at true INTO_TABLE_RE (lastc None pre) l pos = Some m ->
  into_table_clause (pre ++ l) pre (group m "name").
Proof.
  intros H. apply match_at_inv in H. destruct H as (s' & w & M & _ & _ & ->).
  unfold INTO_TABLE_RE in M.
  apply Matches_Cat in M. destruct M as (s0 & (Hb & ->) & M).
  pstep M s1 k1 E1 B1 L1. pstep M s2 b1 E2 B2 L2. pstep M s3 k2 E3 B3 L3.
  pstep M s4 b2 E4 B4 L4.
  apply Matches_Cat in M. destruct M as (s5 & M5 & (Hb' & ->)).
  apply Matches_Grp in M5. destruct M5 as (s6 & M6 & ->).
  apply Matches_plain in M6; [|reflexivity]. destruct M6 as (nm & E6 & B6 & L6).
  unfold group. cbn [m_groups caps assoc_str String.eqb Ascii.eqb Bool.eqb].
  rewrite E6, firstn_app_exact. cbn [rest] in E1.
  apply lang_lits_inv in L1, L3.
  apply lang_Plus_inv in L2, L4, L6.
  unfold at_boundary in Hb, Hb'. cbn [before rest] in Hb, Hb'.
  exists k1, b1, k2, b2, (rest s6).
  rewrite E1, E2, E3, E4, E6.
  split; [reflexivity|]. split.
  - rewrite E1, word_run_head in Hb.
    + apply xorb_true_r_false, Hb.
    + apply (same_ic_nonempty _ _ _ L1).
    + apply (same_ic_words _ _ L1). reflexivity.
  - repeat (split; [assumption|]).
    rewrite B6, word_run_last in Hb' by apply L6.
    apply xorb_true_l_false, Hb'.
Qed.

(** Where the receiving clause stands, [INTO_TABLE_RE] matches. *)
Lemma into_table_occurs body pre nm :
  into_table_clause body pre nm ->
  exists l, body = pre ++ l /\ occurs_at true INTO_TABLE_RE pre l.
Proof.
  intros (k1 & b1 & k2 & b2 & post & -> & Hp & H1 & H2 & H3 & H4 & H5 & Ha).
  eexists. split; [reflexivity|].
  unfold occurs_at, INTO_TABLE_RE, kw.
  assert (M : exists s',
             Matches true
               (lits (s2l "INTO") ;; Plus Space ;; lits (s2l "TABLE") ;;
                Plus Space ;; Grp "name" (Plus Word) ;; WordB)%re
               (MState (lastc None pre)
                  (k1 ++ b1 ++ k2 ++ b2 ++ nm ++ post) []) s').
  { apply occurs_step; [apply lang_lits, H1|intros ?].
    apply occurs_step; [apply lang_Plus, H2|intros ?].
    apply occurs_step; [apply lang_lits, H3|intros ?].
    apply occurs_step; [apply lang_Plus, H4|intros ?].
    apply occurs_step; [apply (lang_Plus true Word), H5|intros ?].
    eexists. split; [|reflexivity].
    unfold at_boundary. cbn [before rest].
    rewrite word_run_last by apply H5. rewrite Ha. reflexivity. }
  destruct M as (s' & M). exists s'. apply Matches_Cat.
  eexists. split; [|exact M]. split; [|reflexivity].
  unfold at_boundary. cbn [before rest]. rewrite Hp, word_run_head.
  - reflexivity.
  - apply (same_ic_nonempty _ _ _ H1).
  - apply (same_ic_words _ _ H1). reflexivity.
Qed.

(** What [INTO_WA_RE] matches at a place is the receiving clause there. *)
Lemma into_wa_match pre l pos m :
  match_at true INTO_WA_RE (lastc None pre) l pos = Some m ->
  into_clause (pre ++ l) pre (group m "name").
Proof.
  intros H. apply match_at_inv in H. destruct H as (s' & w & M & _ & _ & ->).
  unfold INTO_WA_RE in M.
  apply Matches_Cat in M. destruct M as (s0 & (Hb & ->) & M).
  pstep M s1 k1 E1 B1 L1. pstep M s2 b1 E2 B2 L2.
  apply Matches_Cat in M. destruct M as (s3 & (Hn & ->) & M).
  apply Matches_Cat in M. destruct M as (s5 & M5 & (Hb' & ->)).
  apply Matches_Grp in M5. destruct M5 as (s6 & M6 & ->).
  apply Matches_plain in M6; [|reflexivity]. destruct M6 as (nm & E6 & B6 & L6).
  unfold group. cbn [m_groups caps assoc_str String.eqb Ascii.eqb Bool.eqb].
  rewrite E6, firstn_app_exact. cbn [rest] in E1.
  apply lang_lits_inv in L1. apply lang_Plus_inv in L2, L6.
  unfold at_boundary in Hb, Hb'. cbn [before rest] in Hb, Hb'.
  assert (Ha : word_opt (hd_error (rest s6)) = false).
  { rewrite B6, word_run_last in Hb' by apply L6.
    apply xorb_true_l_false, Hb'. }
  exists k1, b1, (rest s6).
  rewrite E1, E2, E6.
  split; [reflexivity|]. split.
  - rewrite E1, word_run_head in Hb.
    + apply xorb_true_r_false, Hb.
    + apply (same_ic_nonempty _ _ _ L1).
    + apply (same_ic_words _ _ L1). reflexivity.
  - repeat (split; [assumption|]).
    intros Hs. destruct s2 as [bb rr gg]. cbn [rest before] in E6, B6.
    subst rr.
    destruct (lang_Matches true (kw "TABLE") nm (lang_lits _ _ Hs) bb (rest s6) gg)
      as (g' & M1).
    apply (Hn (MState (lastc bb nm) (rest s6) g')).
    apply Matches_Cat. eexists. split; [exact M1|].
    split; [|reflexivity].
    unfold at_boundary. cbn [before rest].
    rewrite word_run_last by apply L6. rewrite Ha. reflexivity.
Qed.

(** Where the receiving clause stands, [INTO_WA_RE] matches. *)
Lemma into_wa_occurs body pre nm :
  into_clause body pre nm ->
  exists l, body = pre ++ l /\ occurs_at true INTO_WA_RE pre l.
Proof.
  intros (k1 & b1 & post & -> & Hp & H1 & H2 & H5 & Ha & Hnt).
  eexists. split; [reflexivity|].
  unfold occurs_at, INTO_WA_RE, kw.
  assert (M : exists s',
             Matches true
               (lits (s2l "INTO") ;; Plus Space ;;
                NotAhead (lits (s2l "TABLE") ;; WordB) ;;
                Grp "name" (Plus Word) ;; WordB)%re
               (MState (lastc None pre) (k1 ++ b1 ++ nm ++ post) []) s').
  { apply occurs_step; [apply lang_lits, H1|intros ?].
    apply occurs_step; [apply lang_Plus, H2|intros g2].
    assert (M : exists s',
               Matches true (Grp "name" (Plus Word) ;; WordB)%re
                 (MState (lastc (lastc (lastc None pre) k1) b1)
                    (nm ++ post) g2) s').
    { apply occurs_step; [apply (lang_Plus true Word), H5|intros ?].
      eexists. split; [|reflexivity].
      unfold at_boundary. cbn [before rest].
      rewrite word_run_last by apply H5. rewrite Ha. reflexivity. }
    destruct M as (s' & M). exists s'. apply Matches_Cat.
    eexists. split; [|exact M]. split; [|reflexivity].
    intros s1 M1. apply Matches_Cat in M1.
    destruct M1 as (s2 & M2 & (Hb2 & ->)).
    apply Matches_plain in M2; [|apply plain_lits].
    destruct M2 as (w & Ew & Bw & Lw). cbn [rest before] in Ew, Bw.
    apply lang_lits_inv in Lw.
    unfold at_boundary in Hb2. rewrite Bw in Hb2.
    rewrite word_run_last in Hb2;
      [|apply (same_ic_nonempty _ _ _ Lw)
       |apply (same_ic_words _ _ Lw); reflexivity].
    apply xorb_true_l_false in Hb2.
    apply Hnt.
    rewrite (word_run_unique nm w post (rest s2) Ew); auto.
    - apply H5.
    - apply (same_ic_words _ _ Lw). reflexivity. }
  destruct M as (s' & M). exists s'. apply Matches_Cat.
  eexists. split; [|exact M]. split; [|reflexivity].
  unfold at_boundary. cbn [before rest]. rewrite Hp, word_run_head.
  - reflexivity.
  - apply (same_ic_nonempty _ _ _ H1).
  - apply (same_ic_words _ _ H1). reflexivity.
Qed.

Lemma app_eq_length (a : str) :
  forall a' b b', a ++ b = a' ++ b' -> length a = length a' -> a = a' /\ b = b'.
Proof.
  induction a as [|x a IH]; intros [|y a'] b b' E L; simpl in *;
    try discriminate; [auto|].
  inversion E; subst. destruct (IH a' b b' H1) as [-> ->]; [lia|auto].
Qed.

Lemma same_ic_length k n : same_ic k n -> length k = length n.
Proof.
  unfold same_ic, lower_str. intros E. apply (f_equal (@length ascii)) in E.
  rewrite !length_map in E. exact E.
Qed.

Lemma word_not_space c : is_word c = true -> is_space c = false.
Proof.
  intros H. destruct (is_space c) eqn:E; [|reflexivity].
  apply space_not_word in E. congruence.
Qed.

(** A run of blanks in front of a word is determined by the place where it
    starts. *)
Lemma space_run_unique b1 :
  forall b2 w1 w2 r1 r2,
    b1 ++ w1 ++ r1 = b2 ++ w2 ++ r2 ->
    forallb is_space b1 = true -> forallb is_space b2 = true ->
    run_of Word w1 -> run_of Word w2 ->
    b1 = b2 /\ w1 ++ r1 = w2 ++ r2.
Proof.
  induction b1 as [|x b1 IH]; intros b2 w1 w2 r1 r2 E H1 H2 W1 W2.
  - destruct b2 as [|y b2]; [auto|]. exfalso. simpl in E, H2.
    apply andb_true_iff in H2. destruct H2 as [Hy _].
    destruct W1 as [Hne Hw]. destruct w1 as [|c w1]; [congruence|].
    simpl in E, Hw. inversion E; subst. apply andb_true_iff in Hw.
    destruct Hw as [Hc _]. apply word_not_space in Hc. congruence.
  - destruct b2 as [|y b2]; simpl in E.
    + exfalso. simpl in H1. apply andb_true_iff in H1. destruct H1 as [Hx _].
      destruct W2 as [Hne Hw]. destruct w2 as [|c w2]; [congruence|].
      simpl in E, Hw. inversion E; subst. apply andb_true_iff in Hw.
      destruct Hw as [Hc _]. apply word_not_space in Hc. congruence.
    + inversion E; subst. simpl in H1, H2.
      apply andb_true_iff in H1. apply andb_true_iff in H2.
      destruct (IH b2 w1 w2 r1 r2 H3 (proj2 H1) (proj2 H2) W1 W2) as [-> E'].
      auto.
Qed.

(** The clause at a place names one word. *)
Lemma into_clause_unique body pre nm nm' :
  into_clause body pre nm -> into_clause body pre nm' -> nm = nm'.
Proof.
  intros (k1 & b1 & post & E & _ & H1 & H2 & H5 & Ha & _)
         (k1' & b1' & post' & E' & _ & H1' & H2' & H5' & Ha' & _).
  rewrite E in E'. apply app_inv_head in E'.
  apply app_eq_length in E';
    [|rewrite (same_ic_length _ _ H1), (same_ic_length _ _ H1'); reflexivity].
  destruct E' as [_ E'].
  apply space_run_unique in E'; try assumption;
    [|apply H2|apply H2'].
  destruct E' as [_ E'].
  apply (word_run_unique nm nm' post post' E');
    [apply H5|apply H5'|exact Ha|exact Ha'].
Qed.

Lemma into_table_clause_unique body pre nm nm' :
  into_table_clause body pre nm -> into_table_clause body pre nm' -> nm = nm'.
Proof.
  intros (k1 & b1 & k2 & b2 & post & E & _ & H1 & H2 & H3 & H4 & H5 & Ha)
         (k1' & b1' & k2' & b2' & post' & E' & _ & H1' & H2' & H3' & H4' &
          H5' & Ha').
  rewrite E in E'. apply app_inv_head in E'.
  apply app_eq_length in E';
    [|rewrite (same_ic_length _ _ H1), (same_ic_length _ _ H1'); reflexivity].
  destruct E' as [_ E'].
  assert (W2 : run_of Word k2).
  { split; [apply (same_ic_nonempty _ _ _ H3)|].
    apply (same_ic_words _ _ H3). reflexivity. }
  assert (W2' : run_of Word k2').
  { split; [apply (same_ic_nonempty _ _ _ H3')|].
    apply (same_ic_words _ _ H3'). reflexivity. }
  apply space_run_unique in E'; try assumption; [|apply H2|apply H2'].
  destruct E' as [_ E'].
  apply app_eq_length in E';
    [|rewrite (same_ic_length _ _ H3), (same_ic_length _ _ H3'); reflexivity].
  destruct E' as [_ E'].
  apply space_run_unique in E'; try assumption; [|apply H4|apply H4'].
  destruct E' as [_ E'].
  apply (word_run_unique nm nm' post post' E');
    [apply H5|apply H5'|exact Ha|exact Ha'].
Qed.

Lemma prefix_same_length (pre pre' l l' : str) :
  pre ++ l = pre' ++ l' -> length pre' = length pre -> pre' = pre.
Proof.
  intros E L. symmetry in E. apply app_eq_length in E; [|exact L]. apply E.
Qed.

Lemma into_clause_prefix body pre nm :
  into_clause body pre nm -> exists l, body = pre ++ l.
Proof. intros (k1 & b1 & post & -> & _). eauto. Qed.

Lemma into_table_clause_prefix body pre nm :
  into_table_clause body pre nm -> exists l, body = pre ++ l.
Proof. intros (k1 & b1 & k2 & b2 & post & -> & _). eauto. Qed.

Lemma into_table_search body mt :
  re_search true INTO_TABLE_RE body = Some mt ->
  leftmost_clause (into_table_clause body) (group mt "name").
Proof.
  intros H. apply search_from_first in H.
  destruct H as (pre & l' & -> & H & Hfirst).
  pose proof (into_table_match pre l' _ mt H) as Hc.
  exists pre. split; [exact Hc|].
  intros pre' nm' Hc'. split.
  - destruct (Nat.le_gt_cases (length pre) (length pre')) as [Hle|Hlt];
      [exact Hle|exfalso].
    apply into_table_occurs in Hc'. destruct Hc' as (l1 & E1 & s' & M).
    exact (Hfirst pre' l1 s' E1 Hlt M).
  - intros L. destruct (into_table_clause_prefix _ _ _ Hc') as (l1 & E1).
    rewrite (prefix_same_length pre pre' l' l1 E1 L) in Hc'.
    exact (into_table_clause_unique _ _ _ _ Hc' Hc).
Qed.

Lemma into_wa_search body mw :
  re_search true INTO_WA_RE body = Some mw ->
  leftmost_clause (into_clause body) (group mw "name").
Proof.
  intros H. apply search_from_first in H.
  destruct H as (pre & l' & -> & H & Hfirst).
  pose proof (into_wa_match pre l' _ mw H) as Hc.
  exists pre. split; [exact Hc|].
  intros pre' nm' Hc'. split.
  - destruct (Nat.le_gt_cases (length pre) (length pre')) as [Hle|Hlt];
      [exact Hle|exfalso].
    apply into_wa_occurs in Hc'. destruct Hc' as (l1 & E1 & s' & M).
    exact (Hfirst pre' l1 s' E1 Hlt M).
  - intros L. destruct (into_clause_prefix _ _ _ Hc') as (l1 & E1).
    rewrite (prefix_same_length pre pre' l' l1 E1 L) in Hc'.
    exact (into_clause_unique _ _ _ _ Hc' Hc).
Qed.

Lemma into_table_absent body :
  re_search true INTO_TABLE_RE body = None ->
  forall pre nm, ~ into_table_clause body pre nm.
Proof.
  intros H pre nm Hc. apply re_search_none in H. apply H.
  apply into_table_occurs in Hc. destruct Hc as (l & E & O).
  exists pre, l. auto.
Qed.

Lemma into_wa_absent body :
  re_search true INTO_WA_RE body = None ->
  forall pre nm, ~ into_clause body pre nm.
Proof.
  intros H pre nm Hc. apply re_search_none in H. apply H.
  apply into_wa_occurs in Hc. destruct Hc as (l & E & O).
  exists pre, l. auto.
Qed.

(** What [leftmost_clause] says of a name it says of no other. *)
Lemma leftmost_clause_unique clause nm nm' :
  leftmost_clause clause nm -> leftmost_clause clause nm' -> nm = nm'.
Proof.
  intros (pre & Hc & H) (pre' & Hc' & H').
  destruct (H pre' nm' Hc') as [L1 _]. destruct (H' pre nm Hc) as [L2 U].
  apply U. lia.
Qed.



(** X2: The target of a located statement is read off its body, the text
    between the table name and the closing period.  If the body holds a
    clause INTO TABLE and a name, the target is an internal table and its
    name is the whole word behind the leftmost such clause.  Else, if it
    holds a clause INTO and a name other than TABLE, the target is a work
    area named by the whole word behind the leftmost such clause.  Else the
    target is implicit and named after the table.  A clause starts at a word
    boundary and its name runs up to the next character that is no word
    character. *)
Theorem target_by_receiving_clause txt sel :
  In sel (find_selects txt) ->
  exists h body,
    sel_text sel = h ++ body ++ ["."%char] /\
    lang true HEAD_RE h /\ ~ In "."%char body /\
    word_opt (hd_error body) = false /\
    match sel_target_type sel with
    | itab => leftmost_clause (into_table_clause body) (sel_target_name sel)
    | wa =>
        (forall pre' nm', ~ into_table_clause body pre' nm') /\
        leftmost_clause (into_clause body) (sel_target_name sel)
    | implicit =>
        (forall pre' nm', ~ into_table_clause body pre' nm') /\
        (forall pre' nm', ~ into_clause body pre' nm') /\
        sel_target_name sel = sel_table sel
    end.
Proof.
  intros H. apply find_selects_anatomy in H.
  destruct H as (m & pre & h & wt & body & post & -> & _ & Lh & Hwt & Hb & Hd & ->).
  rewrite select_of_match_text.
  exists (h ++ wt), body. split; [|split; [|split; [|split]]].
  - unfold group. simpl. repeat rewrite <- app_assoc. reflexivity.
  - exact Lh.
  - intros Hin. apply Hd. rewrite !in_app_iff. auto.
  - exact Hb.
  - unfold select_of_match.
    change (group (Match (length pre)
                     (length pre + length (h ++ wt ++ body ++ ["."%char]))
                     [("full"%string, h ++ wt ++ body ++ ["."%char]);
                      ("body"%string, body); ("table"%string, wt)]) "body")
      with body.
    destruct (re_search true INTO_TABLE_RE body) as [mt|] eqn:Et.
    + cbn [sel_target_type sel_target_name]. apply into_table_search, Et.
    + pose proof (into_table_absent body Et) as Ht.
      destruct (re_search true INTO_WA_RE body) as [mw|] eqn:Ew.
      * cbn [sel_target_type sel_target_name]. split; [exact Ht|].
        apply into_wa_search, Ew.
      * cbn [sel_target_type sel_target_name].
        split; [exact Ht|]. split; [apply into_wa_absent, Ew|reflexivity].
Qed.

Lemma target_by_receiving_clause_witness :
  exists h body,
    sel_text mara_filter_select = h ++ body ++ ["."%char] /\
    lang true HEAD_RE h /\ ~ In "."%char body /\
    word_opt (hd_error body) = false /\
    (forall pre' nm', ~ into_table_clause body pre' nm') /\
    leftmost_clause (into_clause body) (s2l "wa_mara").
Proof.
  apply (target_by_receiving_clause mara_filter_text mara_filter_select).
  vm_compute. left. reflexivity.
Defined.

(** X3: Without a period in the text no statement is located: a fetch-all
    statement that is not terminated is passed over. *)
Theorem unterminated_statement_not_located txt :
  ~ In "."%char txt -> find_selects txt = [].
Proof.
  intros H. destruct (find_selects txt) as [|sel l] eqn:E; [reflexivity|].
  exfalso. apply H.
  assert (Hs : In sel (find_selects txt)) by (rewrite E; left; reflexivity).
  apply find_selects_anatomy in Hs.
  destruct Hs as (m & pre & h & wt & body & post & _ & -> & _).
  rewrite !in_app_iff. right. right. right. right. left. reflexivity.
Qed.

Lemma unterminated_statement_not_located_witness :
  find_selects (s2l "SELECT * FROM mara INTO wa_mara WHERE matnr = p") = [].
Proof.
  apply unterminated_statement_not_located.
  intros H. vm_compute in H. intuition discriminate.
Defined.

(* ================================================================== *)
(** * What the harvester collects *)

Lemma groupless_lits n : groupless (lits n) = true.
Proof. induction n; simpl; auto. Qed.

Lemma lang_lits_exact n : forall k, lang false (lits n) k <-> k = n.
Proof.
  induction n as [|c n IH]; intros k; simpl.
  - tauto.
  - split.
    + intros (w1 & w2 & -> & (x & E & ->) & L2). apply IH in L2.
      apply Ascii.eqb_eq in E. subst. reflexivity.
    + intros ->. exists [c], n. split; [reflexivity|]. split.
      * exists c. split; [apply Ascii.eqb_refl|reflexivity].
      * apply IH. reflexivity.
Qed.

Lemma not_ahead_ident ic s :
  (forall s1, ~ Matches ic (Cls Ident) s s1) <->
  ident_opt (hd_error (rest s)) = false.
Proof.
  split.
  - intros H. destruct s as [b [|c l] g]; [reflexivity|]. simpl.
    destruct (is_ident c) eqn:Hc; [|reflexivity]. exfalso.
    apply (H (MState (Some c) l g)). exists c. split; [exact Hc|].
    apply (reads_intro b [c] l g).
  - intros H s1 (x & Hx & R & _). rewrite R in H.
    change (is_ident x = false) in H. change (is_ident x = true) in Hx.
    congruence.
Qed.

(** What [STRUCT_FIELD_RE n] matches is a component access on [n]. *)
Lemma struct_field_Matches n pre l s' :
  Matches false (STRUCT_FIELD_RE n) (MState (lastc None pre) l []) s' ->
  exists f,
    l = n ++ "-"%char :: f ++ rest s' /\ run_of Ident f /\
    ident_opt (lastc None pre) = false /\
    ident_opt (hd_error (rest s')) = false /\
    caps s' = [("field"%string, f)].
Proof.
  intros M. unfold STRUCT_FIELD_RE in M.
  apply Matches_Cat in M. destruct M as (s0 & (Hb & ->) & M).
  cbn [before] in Hb.
  apply Matches_Cat in M. destruct M as (s1 & M1 & M).
  pose proof (Matches_groupless false (lits n)) as G1.
  specialize (G1 (groupless_lits n) _ _ M1). cbn [caps] in G1.
  apply Matches_plain in M1; [|apply plain_lits].
  destruct M1 as (k & E1 & _ & L1). apply lang_lits_exact in L1. subst k.
  cbn [rest] in E1.
  apply Matches_Cat in M. destruct M as (s2 & M2 & M).
  destruct M2 as (x & Ex & R2 & _ & C2). apply Ascii.eqb_eq in Ex. subst x.
  apply Matches_Cat in M. destruct M as (s3 & M3 & (Hn & ->)).
  apply Matches_Grp in M3. destruct M3 as (s4 & M4 & ->).
  pose proof (Matches_groupless false (Plus Ident) eq_refl _ _ M4) as G4.
  apply Matches_lang in M4; [|reflexivity]. destruct M4 as (f & E4 & L4).
  apply lang_Plus_inv in L4.
  apply not_ahead_ident in Hn. cbn [rest] in Hn.
  exists f. cbn [rest caps]. split; [|split; [|split; [|split]]].
  - rewrite E1, R2. simpl. rewrite E4. reflexivity.
  - exact L4.
  - destruct (lastc None pre); [exact Hb|reflexivity].
  - exact Hn.
  - rewrite E4, firstn_app_exact, G4, C2, G1. reflexivity.
Qed.

Lemma struct_field_occurs flat n :
  occurs false (STRUCT_FIELD_RE n) flat <->
  exists f, component_access flat n f.
Proof.
  split.
  - intros (pre & l & -> & s' & M). apply struct_field_Matches in M.
    destruct M as (f & -> & Hf & Hb & Ha & _). exists f, pre, (rest s'). auto.
  - intros (f & pre & post & -> & Hf & Hb & Ha).
    exists pre, (n ++ "-"%char :: f ++ post). split; [reflexivity|].
    unfold occurs_at, STRUCT_FIELD_RE.
    assert (Hstep : exists s',
              Matches false
                (Cat (lits n) (Cat (Lit "-") (Cat (Grp "field" (Plus Ident))
                   (NotAhead (Cls Ident)))))
                (MState (lastc None pre) (n ++ "-"%char :: f ++ post) []) s').
    { apply occurs_step; [apply lang_lits_exact; reflexivity|intros g1].
      change ("-"%char :: f ++ post) with (["-"%char] ++ f ++ post).
      apply occurs_step; [exists "-"%char; split; reflexivity|intros g2].
      apply occurs_step; [apply lang_Plus, Hf|intros g3].
      eexists. split; [|reflexivity]. apply not_ahead_ident. exact Ha. }
    destruct Hstep as (s' & M). exists s'. apply Matches_Cat.
    eexists. split; [|exact M]. split; [|reflexivity].
    cbn [before]. destruct (lastc None pre); [exact Hb|exact I].
Qed.

Lemma finditer_from_occurs ic r pre :
  forall l b pos s',
    Matches ic r (MState (lastc b pre) l []) s' ->
    finditer_from ic r b (pre ++ l) pos 0 <> [].
Proof.
  induction pre as [|c pre IH]; intros l b pos s' M; simpl in *.
  - pose proof (match_at_complete ic r b l pos s' M) as H.
    destruct l; simpl; destruct (match_at ic r b _ pos);
      try discriminate; congruence.
  - destruct (match_at ic r b (c :: pre ++ l) pos); [discriminate|].
    eapply IH; eauto.
Qed.

(** [finditer] yields a match exactly when the pattern occurs. *)
Lemma finditer_nil_iff ic r txt :
  finditer ic r txt = [] <-> ~ occurs ic r txt.
Proof.
  split; [|apply finditer_not_occurs].
  intros H (pre & l & -> & s' & M).
  exact (finditer_from_occurs ic r pre l None 0 s' M H).
Qed.

Lemma struct_field_match_access n flat m :
  In m (finditer false (STRUCT_FIELD_RE n) flat) ->
  component_access flat n (group m "field").
Proof.
  intros H. apply finditer_from_In in H.
  destruct H as (pre & l' & -> & H). apply match_at_inv in H.
  destruct H as (s' & w & M & _ & _ & ->).
  apply struct_field_Matches in M.
  destruct M as (f & -> & Hf & Hb & Ha & Hc).
  unfold group. cbn [m_groups]. rewrite Hc. simpl.
  exists pre, (rest s'). auto.
Qed.

Lemma candidate_names_candidate iter table tt tn aliases n :
  iteration_order iter ->
  (In n (iter (candidate_names iter table tt tn aliases)) <->
   candidate table tt tn aliases n).
Proof.
  intros Hi. rewrite <- (candidate_names_In iter table tt tn aliases n Hi).
  split; apply Permutation_in; [apply Hi|symmetry; apply Hi].
Qed.

(** X4: Every harvested field is the lower-cased identifier of a component
    access on a candidate name that stands in the corpus: nothing is
    collected that is not dereferenced from the target or one of its
    aliases. *)
Theorem harvested_fields_are_accessed
    iter flat text table tt tn aliases x :
  iteration_order iter ->
  In x (fst (collect_used_fields iter flat text table tt tn aliases)) ->
  exists n f,
    candidate table tt tn aliases n /\ component_access flat n f /\
    x = lower_str f.
Proof.
  intros Hi H. unfold collect_used_fields in H.
  apply scan_names_fields_In in H. destruct H as (n & m & Hn & Hm & ->).
  exists n, (group m "field"). split; [|split; [|reflexivity]].
  - apply (candidate_names_candidate iter); assumption.
  - apply struct_field_match_access, Hm.
Qed.

Lemma harvested_fields_are_accessed_witness :
  exists n f,
    candidate (s2l "bkpf") itab (s2l "it_bkpf")
      (build_aliases bukrs_corpus) n /\
    component_access bukrs_corpus n f /\ s2l "bukrs" = lower_str f.
Proof.
  apply (harvested_fields_are_accessed insertion_order bukrs_corpus []
           (s2l "bkpf") itab (s2l "it_bkpf") (build_aliases bukrs_corpus)
           (s2l "bukrs") insertion_order_ok).
  vm_compute. right. left. reflexivity.
Defined.

(** X5: The harvested field set is empty exactly when the corpus holds no
    component access on any candidate name. *)
Theorem no_fields_iff_no_access iter flat text table tt tn aliases :
  iteration_order iter ->
  (fst (collect_used_fields iter flat text table tt tn aliases) = [] <->
   forall n f, candidate table tt tn aliases n -> ~ component_access flat n f).
Proof.
  intros Hi. split.
  - intros E n f Hn Ha.
    assert (Ho : occurs false (STRUCT_FIELD_RE n) flat)
      by (apply struct_field_occurs; eauto).
    apply (candidate_names_candidate iter) in Hn; [|exact Hi].
    destruct (finditer false (STRUCT_FIELD_RE n) flat) as [|m ms] eqn:Ef.
    + apply finditer_nil_iff in Ef. exact (Ef Ho).
    + assert (Hin : In (lower_str (group m "field"))
                      (fst (collect_used_fields iter flat text table tt tn
                              aliases))).
      { unfold collect_used_fields. apply scan_names_fields_In.
        exists n, m. rewrite Ef. simpl. auto. }
      rewrite E in Hin. exact Hin.
  - intros H.
    destruct (fst (collect_used_fields iter flat text table tt tn aliases))
      as [|x l] eqn:E; [reflexivity|]. exfalso.
    assert (Hx : In x (fst (collect_used_fields iter flat text table tt tn
                              aliases))) by (rewrite E; left; reflexivity).
    unfold collect_used_fields in Hx. apply scan_names_fields_In in Hx.
    destruct Hx as (n & m & Hn & Hm & _).
    apply (H n (group m "field")).
    + apply (candidate_names_candidate iter); assumption.
    + apply struct_field_match_access, Hm.
Qed.

Lemma no_fields_iff_no_access_witness :
  fst (collect_used_fields insertion_order (s2l "WRITE x-a.") []
         (s2l "t") wa (s2l "w") []) = [] <->
  forall n f, candidate (s2l "t") wa (s2l "w") [] n ->
              ~ component_access (s2l "WRITE x-a.") n f.
Proof.
  exact (no_fields_iff_no_access insertion_order (s2l "WRITE x-a.") []
           (s2l "t") wa (s2l "w") [] insertion_order_ok).
Defined.

Lemma assigns_component_occurs_inv corpus n :
  occurs true (ASSIGN_COMPONENT_RE n) corpus ->
  assigns_component_of corpus n.
Proof.
  intros (pre & l & -> & s' & M). unfold ASSIGN_COMPONENT_RE, kw in M.
  pstep M s1 k1 E1 B1 L1. pstep M s2 b1 E2 B2 L2. pstep M s3 k2 E3 B3 L3.
  pstep M s4 b2 E4 B4 L4. pstep M s5 comp E5 B5 L5. pstep M s6 b3 E6 B6 L6.
  pstep M s7 k3 E7 B7 L7. pstep M s8 b4 E8 B8 L8. pstep M s9 k4 E9 B9 L9.
  pstep M s10 b5 E10 B10 L10.
  apply Matches_Cat in M. destruct M as (s11 & M11 & (Hb & ->)).
  apply Matches_plain in M11; [|apply plain_lits].
  destruct M11 as (n' & E11 & B11 & L11).
  apply lang_lits_inv in L1, L3, L7, L9, L11.
  apply lang_Plus_inv in L2, L4, L5, L6, L8, L10.
  cbn [rest] in E1.
  exists pre, k1, b1, k2, b2, comp, b3, k3, b4, k4, b5, n', (rest s11).
  rewrite E1, E2, E3, E4, E5, E6, E7, E8, E9, E10, E11.
  repeat (split; [first [reflexivity|assumption]|]).
  unfold at_boundary in Hb. rewrite B11, B10 in Hb.
  rewrite word_after_blanks in Hb by exact L10. exact Hb.
Qed.

(** X6: The ambiguity flag is set exactly when the corpus holds a dynamic
    component access (ASSIGN COMPONENT ... OF STRUCTURE n, ending at a word
    boundary) on one of the candidate names: the flag is never raised
    without such an access. *)
Theorem ambiguous_iff_dynamic_access iter flat text table tt tn aliases :
  iteration_order iter ->
  (snd (collect_used_fields iter flat text table tt tn aliases) = true <->
   exists n, candidate table tt tn aliases n /\ assigns_component_of flat n).
Proof.
  intros Hi. unfold collect_used_fields, scan_names. cbn [snd].
  rewrite existsb_exists. split.
  - intros (n & Hn & Hs). exists n. split.
    + apply (candidate_names_candidate iter); assumption.
    + apply assigns_component_occurs_inv, re_search_occurs.
      destruct (re_search true (ASSIGN_COMPONENT_RE n) flat); discriminate.
  - intros (n & Hn & Ha). exists n. split.
    + apply (candidate_names_candidate iter); assumption.
    + apply assigns_component_occurs, re_search_occurs in Ha.
      destruct (re_search true (ASSIGN_COMPONENT_RE n) flat);
        [reflexivity|congruence].
Qed.

Lemma ambiguous_iff_dynamic_access_witness :
  snd (collect_used_fields insertion_order bukrs_corpus [] (s2l "bkpf") itab
         (s2l "it_bkpf") (build_aliases bukrs_corpus)) = true <->
  exists n,
    candidate (s2l "bkpf") itab (s2l "it_bkpf") (build_aliases bukrs_corpus) n /\
    assigns_component_of bukrs_corpus n.
Proof.
  exact (ambiguous_iff_dynamic_access insertion_order bukrs_corpus []
           (s2l "bkpf") itab (s2l "it_bkpf") (build_aliases bukrs_corpus)
           insertion_order_ok).
Defined.

(* ================================================================== *)
(** * The binding resolver *)

Lemma str_eqb_refl a : str_eqb a a = true.
Proof. apply str_eqb_eq. reflexivity. Qed.

Lemma aliases_get_add o x d :
  forall t,
    aliases_get (add_alias o x d) t =
    if str_eqb o t then set_add x (aliases_get d t) else aliases_get d t.
Proof.
  induction d as [|[o' s] d IH]; intros t; simpl.
  - destruct (str_eqb o t); reflexivity.
  - destruct (str_eqb o' o) eqn:E; simpl.
    + apply str_eqb_eq in E. subst o'. destruct (str_eqb o t); reflexivity.
    + rewrite IH. destruct (str_eqb o' t) eqn:E'; [|reflexivity].
      destruct (str_eqb o t) eqn:E''; [|reflexivity].
      apply str_eqb_eq in E', E''. subst. rewrite str_eqb_refl in E.
      discriminate.
Qed.

Lemma add_matches_In r f source t a :
  forall d,
    In a (aliases_get (add_matches r f source d) t) <->
    In a (aliases_get d t) \/ rule_binds r f source t a.
Proof.
  unfold add_matches, rule_binds.
  induction (finditer true r source) as [|m ms IH]; intros d; simpl.
  - split; [auto|]. intros [H|(m & [] & _)]. exact H.
  - rewrite IH, aliases_get_add. split.
    + intros [H|(m' & Hm & Ht & Ha)]; [|eauto 6].
      destruct (str_eqb (group m "itab") t) eqn:E; [|auto].
      apply str_eqb_eq in E. apply set_add_In in H.
      destruct H as [->|H]; [eauto 6|auto].
    + intros [H|(m' & [<-|Hm] & Ht & Ha)]; [| |eauto 6].
      * left. destruct (str_eqb (group m "itab") t); [|exact H].
        apply set_add_In. auto.
      * left. subst. rewrite str_eqb_refl. apply set_add_In. auto.
Qed.

(** X7: The binding map holds an alias for an owner exactly when a match of one
    of the six scan rules binds the two; an owner that no rule binds has no
    aliases. *)
Theorem build_aliases_lookup source t a :
  In a (aliases_get (build_aliases source) t) <-> binds source t a.
Proof.
  unfold build_aliases, binds. rewrite !add_matches_In. simpl. tauto.
Qed.

Lemma assoc_str_app n g1 g2 :
  assoc_str n (g1 ++ g2) =
  match assoc_str n g1 with Some v => Some v | None => assoc_str n g2 end.
Proof.
  induction g1 as [|[n' v] g1 IH]; simpl; [reflexivity|].
  destruct (String.eqb n n'); auto.
Qed.

Lemma assoc_str_In n g v : assoc_str n g = Some v -> In (n, v) g.
Proof.
  induction g as [|[n' v'] g IH]; simpl; [discriminate|].
  destruct (String.eqb n n') eqn:E.
  - intros H. inversion H; subst. apply String.eqb_eq in E. subst. auto.
  - auto.
Qed.

(** The groups a match adds hold words of the enclosed patterns, and the
    groups the pattern defines are among them. *)
Lemma Matches_caps ic P r :
  grp_sound ic P r ->
  forall s s',
    Matches ic r s s' ->
    exists added,
      caps s' = added ++ caps s /\
      Forall (fun nv => P (snd nv)) added /\
      forall n, defines n r = true -> assoc_str n added <> None.
Proof.
  induction r as [|c|p|r1 IH1 r2 IH2|r1 IH1 r2 IH2|r1 IH1|p|p|n r1 IH1|
                  |r1 IH1|p]; intros G s s' M; simpl in G, M.
  - subst. exists []. repeat split; auto. discriminate.
  - destruct M as (x & _ & _ & _ & E). exists []. repeat split; auto.
    discriminate.
  - destruct M as (x & _ & _ & _ & E). exists []. repeat split; auto.
    discriminate.
  - destruct G as [G1 G2]. destruct M as (s1 & M1 & M2).
    destruct (IH1 G1 _ _ M1) as (a1 & E1 & F1 & D1).
    destruct (IH2 G2 _ _ M2) as (a2 & E2 & F2 & D2).
    exists (a2 ++ a1). rewrite E2, E1, app_assoc. split; [reflexivity|].
    split; [apply Forall_app; auto|].
    intros n0 Hn. simpl in Hn. rewrite assoc_str_app.
    destruct (assoc_str n0 a2) eqn:Ea; [discriminate|].
    apply orb_true_iff in Hn. destruct Hn as [Hn|Hn]; [apply D1, Hn|].
    exfalso. exact (D2 n0 Hn Ea).
  - destruct G as [G1 G2]. destruct M as [M|M].
    + destruct (IH1 G1 _ _ M) as (a1 & E1 & F1 & D1). exists a1.
      repeat split; auto. intros n0 Hn. simpl in Hn.
      apply andb_true_iff in Hn. apply D1, Hn.
    + destruct (IH2 G2 _ _ M) as (a2 & E2 & F2 & D2). exists a2.
      repeat split; auto. intros n0 Hn. simpl in Hn.
      apply andb_true_iff in Hn. apply D2, Hn.
  - destruct M as [M| ->].
    + destruct (IH1 G _ _ M) as (a1 & E1 & F1 & _). exists a1.
      repeat split; auto. discriminate.
    + exists []. repeat split; auto. discriminate.
  - destruct M as (w & _ & _ & _ & E). exists []. repeat split; auto.
    discriminate.
  - destruct M as (w & _ & _ & _ & E). exists []. repeat split; auto.
    discriminate.
  - destruct G as (Pl & HP & G1). destruct M as (s1 & M1 & ->).
    destruct (IH1 G1 _ _ M1) as (a1 & E1 & F1 & D1).
    destruct (Matches_lang ic r1 Pl _ _ M1) as (w & Ew & Lw).
    exists ((n, w) :: a1). cbn [caps]. rewrite E1, Ew, firstn_app_exact.
    split; [reflexivity|]. split.
    + constructor; [apply HP, Lw|exact F1].
    + intros n0 Hn. simpl in Hn |- *. destruct (String.eqb n0 n);
        [discriminate|]. apply D1, Hn.
  - destruct M as (_ & ->). exists []. repeat split; auto. discriminate.
  - destruct M as (_ & ->). exists []. repeat split; auto. discriminate.
  - destruct M as (_ & ->). exists []. repeat split; auto. discriminate.
Qed.

(** A group the pattern defines has, in every match found, a word of the
    pattern it encloses. *)
Lemma group_sound ic P r n txt m :
  grp_sound ic P r -> defines n r = true ->
  In m (finditer ic r txt) -> P (group m n).
Proof.
  intros G D H. apply finditer_from_In in H.
  destruct H as (pre & l' & _ & H). apply match_at_inv in H.
  destruct H as (s' & w & M & _ & _ & ->).
  destruct (Matches_caps ic P r G _ _ M) as (added & E & F & Hd).
  cbn [caps] in E. rewrite app_nil_r in E. unfold group. cbn [m_groups].
  rewrite E. specialize (Hd n D).
  destruct (assoc_str n added) as [v|] eqn:Ea; [|congruence].
  apply assoc_str_In in Ea. rewrite Forall_forall in F. apply (F _ Ea).
Qed.

Ltac words_only :=
  simpl;
  repeat match goal with
         | |- forall _, _ -> _ =>
             let w := fresh "w" in
             let L := fresh "L" in
             intros w L; exact (lang_Plus_inv true Word w L)
         | |- _ /\ _ => split
         | |- True => exact I
         | |- _ = _ => reflexivity
         end.

(** X8: Owners and aliases of the binding map are well-formed names: the owner
    is a non-empty word, the alias a non-empty word or such a word in angle
    brackets; no empty name is ever recorded. *)
Theorem build_aliases_names source t a :
  In a (aliases_get (build_aliases source) t) ->
  run_of Word t /\
  (run_of Word a \/ exists fs, run_of Word fs /\ a = fs_name fs).
Proof.
  intros H0.
  assert (H : binds source t a)
    by (revert H0; unfold build_aliases, binds; rewrite !add_matches_In;
        simpl; tauto).
  clear H0.
  destruct H as [H|[H|[H|[H|[H|H]]]]]; destruct H as (m & Hm & <- & <-).
  - split; [|left];
      (apply (group_sound true (run_of Word) LOOP_INTO_RE _ source m);
       [words_only|reflexivity|exact Hm]).
  - split; [|right; eexists; split; [|reflexivity]];
      (apply (group_sound true (run_of Word) LOOP_ASSIGNING_RE _ source m);
       [words_only|reflexivity|exact Hm]).
  - split; [|left];
      (apply (group_sound true (run_of Word) READ_TABLE_INTO_RE _ source m);
       [words_only|reflexivity|exact Hm]).
  - split; [|right; eexists; split; [|reflexivity]];
      (apply (group_sound true (run_of Word) READ_TABLE_ASSIGNING_RE _ source m);
       [words_only|reflexivity|exact Hm]).
  - split; [|right; eexists; split; [|reflexivity]];
      (apply (group_sound true (run_of Word) ASSIGN_FS_ITAB_RE _ source m);
       [words_only|reflexivity|exact Hm]).
  - split; [|left];
      (apply (group_sound true (run_of Word) HEADER_LINE_LOOP_RE _ source m);
       [words_only|reflexivity|exact Hm]).
Qed.

Lemma build_aliases_names_witness :
  run_of Word (s2l "it_a") /\
  (run_of Word (s2l "<fs>") \/
   exists fs, run_of Word fs /\ s2l "<fs>" = fs_name fs).
Proof.
  apply (build_aliases_names alias_corpus).
  vm_compute. right. left. reflexivity.
Defined.

(* ================================================================== *)
(** * The remediation applier *)

Lemma chained_weaken lo lo' hi l :
  lo' <= lo -> chained lo hi l -> chained lo' hi l.
Proof.
  destruct l; simpl; auto. intros ? (? & ? & ? & ?). repeat split; auto; lia.
Qed.

Lemma chained_starts lo hi l :
  chained lo hi l -> Forall (fun y => lo <= start_of y) l.
Proof.
  revert lo. induction l as [|x l IH]; intros lo H; constructor.
  - apply H.
  - destruct H as (H1 & H2 & _ & H4). apply IH in H4.
    eapply Forall_impl; [|exact H4]. unfold start_of. intros; simpl in *. lia.
Qed.

Lemma insert_desc_last x l :
  Forall (fun y => start_of x < start_of y) l -> insert_desc x l = l ++ [x].
Proof.
  induction 1 as [|y l Hy Hl IH]; simpl; [reflexivity|].
  unfold start_of in Hy. apply Nat.ltb_lt in Hy. rewrite Hy, IH. reflexivity.
Qed.

Lemma sort_desc_chained lo hi l : chained lo hi l -> sort_desc l = rev l.
Proof.
  revert lo. induction l as [|x l IH]; intros lo H; simpl; [reflexivity|].
  destruct H as (H1 & H2 & H3 & H4). rewrite (IH _ H4).
  apply insert_desc_last. apply Forall_rev.
  apply chained_starts in H4. eapply Forall_impl; [|exact H4].
  unfold start_of. intros; simpl in *. lia.
Qed.

Lemma firstn_slice lo s src :
  lo <= s -> firstn s src = firstn lo src ++ slice lo s src.
Proof.
  intros H. unfold slice.
  rewrite <- (firstn_skipn lo src) at 1.
  rewrite firstn_app. rewrite firstn_firstn.
  replace (Nat.min s lo) with lo by lia.
  destruct (Nat.le_gt_cases lo (length src)) as [Hl|Hl].
  - rewrite length_firstn. replace (Nat.min lo (length src)) with lo by lia.
    reflexivity.
  - rewrite (skipn_all2 src) by lia. rewrite !firstn_nil. reflexivity.
Qed.

Lemma apply_chained src l :
  forall lo,
    chained lo (length src) l ->
    fold_right
      (fun x out => firstn (fst (fst x)) out ++ snd x ++ skipn (snd (fst x)) out)
      src l =
    firstn lo src ++ splice lo src l.
Proof.
  induction l as [|[[s e] r] l IH]; intros lo H; simpl in *.
  - symmetry. apply firstn_skipn.
  - destruct H as (H1 & H2 & H3 & H4). rewrite (IH _ H4).
    assert (Hlen : length (firstn e src) = e) by (rewrite length_firstn; lia).
    rewrite firstn_app, Hlen, firstn_firstn.
    rewrite Nat.min_l by lia.
    rewrite (proj2 (Nat.sub_0_le s e)) by lia.
    rewrite firstn_0, app_nil_r.
    rewrite skipn_app, Hlen, Nat.sub_diag, skipn_all2 by lia. simpl.
    rewrite (firstn_slice lo s src H1), <- app_assoc.
    reflexivity.
Qed.

Lemma fold_left_rev {A B} (f : A -> B -> A) l i :
  fold_left f (rev l) i = fold_right (fun y x => f x y) i l.
Proof.
  induction l as [|y l IH]; simpl; [reflexivity|].
  rewrite fold_left_app. simpl. rewrite IH. reflexivity.
Qed.

Lemma apply_span_replacements_ascending src repls :
  chained 0 (length src) repls ->
  apply_span_replacements src repls = splice 0 src repls.
Proof.
  intros H. unfold apply_span_replacements.
  rewrite (sort_desc_chained _ _ _ H), fold_left_rev.
  rewrite (apply_chained src repls 0 H). reflexivity.
Qed.

Lemma insert_desc_perm x l : Permutation (insert_desc x l) (x :: l).
Proof.
  induction l as [|y l IH]; simpl; auto.
  destruct (fst (fst x) <? fst (fst y)); auto.
  rewrite IH. apply perm_swap.
Qed.

Lemma sort_desc_perm l : Permutation (sort_desc l) l.
Proof. induction l; simpl; auto. rewrite insert_desc_perm. auto. Qed.

Lemma insert_desc_sorted x l :
  StronglySorted (fun a b => start_of b <= start_of a) l ->
  StronglySorted (fun a b => start_of b <= start_of a) (insert_desc x l).
Proof.
  induction 1 as [|y l Hs IH Hall]; simpl.
  - repeat constructor.
  - destruct (fst (fst x) <? fst (fst y)) eqn:E.
    + apply Nat.ltb_lt in E. constructor; auto.
      eapply Permutation_Forall; [symmetry; apply insert_desc_perm|].
      constructor; auto. unfold start_of. lia.
    + apply Nat.ltb_ge in E. constructor; [constructor; auto|].
      constructor; [exact E|].
      eapply Forall_impl; [|exact Hall]. unfold start_of in *. intros; lia.
Qed.

Lemma sort_desc_sorted l :
  StronglySorted (fun a b => start_of b <= start_of a) (sort_desc l).
Proof.
  induction l; simpl; [constructor|]. apply insert_desc_sorted; auto.
Qed.

Lemma sorted_desc_unique l1 :
  forall l2,
    StronglySorted (fun a b => start_of b <= start_of a) l1 ->
    StronglySorted (fun a b => start_of b <= start_of a) l2 ->
    Permutation l1 l2 -> NoDup (map start_of l1) -> l1 = l2.
Proof.
  induction l1 as [|a l1 IH]; intros l2 H1 H2 P N.
  - apply Permutation_nil in P. auto.
  - destruct l2 as [|b l2].
    + symmetry in P. apply Permutation_nil in P. discriminate.
    + inversion H1 as [|? ? Hs1 Ha]; subst.
      inversion H2 as [|? ? Hs2 Hb]; subst.
      inversion N as [|? ? Hn N']; subst.
      assert (a = b).
      { assert (Hin1 : In a (b :: l2))
          by (eapply Permutation_in; eauto; simpl; auto).
        assert (Hin2 : In b (a :: l1))
          by (eapply Permutation_in; [symmetry; eauto|simpl; auto]).
        rewrite Forall_forall in Ha, Hb.
        destruct Hin1 as [->|Hin1]; auto. destruct Hin2 as [->|Hin2]; auto.
        exfalso. apply Hn.
        replace (start_of a) with (start_of b)
          by (specialize (Ha _ Hin2); specialize (Hb _ Hin1); lia).
        apply in_map, Hin2. }
      subst. f_equal. apply IH; auto.
      eapply Permutation_cons_inv; eauto.
Qed.

Lemma chained_NoDup lo hi l : chained lo hi l -> NoDup (map start_of l).
Proof.
  revert lo. induction l as [|x l IH]; intros lo H; simpl; constructor.
  - destruct H as (_ & H2 & _ & H4). apply chained_starts in H4.
    intros Hin. apply in_map_iff in Hin. destruct Hin as (y & Ey & Hy).
    rewrite Forall_forall in H4. specialize (H4 _ Hy).
    unfold start_of in *. lia.
  - destruct H as (_ & _ & _ & H4). eapply IH; eauto.
Qed.

(** X9: For non-empty, non-overlapping spans inside the source, listed in any
    order, the replacements made from the highest offset down give the
    left-to-right rewriting by the spans in ascending order: the text
    outside the spans is kept, a replacement does not shift the span of
    another, and the order of the list does not matter. *)
Theorem apply_span_replacements_any_order src repls repls' :
  chained 0 (length src) repls -> Permutation repls repls' ->
  apply_span_replacements src repls' = splice 0 src repls.
Proof.
  intros H P. rewrite <- (apply_span_replacements_ascending src repls H).
  unfold apply_span_replacements. f_equal. symmetry.
  apply sorted_desc_unique; try apply sort_desc_sorted.
  - rewrite !sort_desc_perm. exact P.
  - eapply Permutation_NoDup; [|eapply chained_NoDup; exact H].
    apply Permutation_map. symmetry. apply sort_desc_perm.
Qed.

Lemma apply_span_replacements_any_order_witness :
  apply_span_replacements (s2l "ab SELECT. cd SELECT. ef")
    [((14, 21), s2l "YYYYYYYYYY"); ((3, 10), s2l "X")] =
  s2l "ab X cd YYYYYYYYYY ef".
Proof.
  rewrite (apply_span_replacements_any_order _
             [((3, 10), s2l "X"); ((14, 21), s2l "YYYYYYYYYY")]);
    [reflexivity| |apply perm_swap].
  simpl. repeat split; lia.
Defined.

Lemma replacements_chained (g : select -> list replacement) ms :
  (forall sel, g sel = [] \/ exists r, g sel = [(sel_span sel, r)]) ->
  forall lo hi,
    spans_within lo hi ms ->
    (forall m, In m ms -> m_start m < m_end m) ->
    chained lo hi (flat_map (fun m => g (select_of_match m)) ms).
Proof.
  intros Hg. induction ms as [|m ms IH]; intros lo hi H Hne; simpl; auto.
  destruct H as (H1 & H2 & H3 & H4).
  assert (Hm : m_start m < m_end m) by (apply Hne; left; reflexivity).
  specialize (IH _ _ H4 (fun m' Hm' => Hne m' (or_intror Hm'))).
  destruct (Hg (select_of_match m)) as [->|(r & ->)]; simpl.
  - eapply chained_weaken; [|exact IH]. lia.
  - rewrite select_of_match_span. simpl. repeat split; auto.
Qed.

Lemma replacements_of_chained iter flat aliases src :
  chained 0 (length src) (replacements_of iter flat aliases src).
Proof.
  unfold replacements_of, find_selects. rewrite flat_map_map.
  apply (replacements_chained
           (fun sel =>
              let '(used, amb) :=
                collect_used_fields iter flat (sel_text sel) (sel_table sel)
                  (sel_target_type sel) (sel_target_name sel) aliases in
              if nonempty used && negb amb then
                [(sel_span sel,
                  build_replacement_stmt (sel_text sel) (sel_table sel)
                    (sorted (iter used)) (sel_target_type sel)
                    (sel_target_name sel))]
              else [])).
  - intros sel. destruct (collect_used_fields iter _ _ _ _ _ _) as [used amb].
    destruct (nonempty used && negb amb); eauto.
  - apply (finditer_from_spans true SELECT_STAR_RE src None 0 0).
  - intros m Hm. apply select_star_match_inv in Hm.
    destruct Hm as (pre & w & post & _ & -> & -> & Hw & _). lia.
Qed.

(** X10: Remediate rewrites a unit from left to right: the replacements it makes
    have non-empty, ascending, non-overlapping spans inside the unit's text;
    each such span gives way to its synthesized statement and all text
    outside these spans is returned as it was. *)
Theorem remediate_array_splices iter units r :
  In r (remediate_array iter units) ->
  chained 0 (length (code_or_empty (r_unit r)))
    (replacements_of iter (concat_units units)
       (build_aliases (concat_units units)) (code_or_empty (r_unit r))) /\
  remediated_code r =
  splice 0 (code_or_empty (r_unit r))
    (replacements_of iter (concat_units units)
       (build_aliases (concat_units units)) (code_or_empty (r_unit r))).
Proof.
  intros Hr. unfold remediate_array in Hr. apply in_map_iff in Hr.
  destruct Hr as (u & <- & _). cbn [r_unit remediated_code].
  split; [apply replacements_of_chained|].
  apply apply_span_replacements_ascending, replacements_of_chained.
Qed.

Lemma remediate_array_splices_witness :
  remediated_code
    (mkRemediation two_statement_unit
       (s2l "SELECT a FROM t" ++ nl ++
        s2l "  INTO CORRESPONDING FIELDS OF w. WRITE w-a. SELECT b FROM s" ++
        nl ++ s2l "  INTO CORRESPONDING FIELDS OF v. WRITE v-b.")) =
  splice 0 (code_or_empty two_statement_unit)
    (replacements_of insertion_order (concat_units [two_statement_unit])
       (build_aliases (concat_units [two_statement_unit]))
       (code_or_empty two_statement_unit)).
Proof.
  apply (remediate_array_splices insertion_order [two_statement_unit]
           (mkRemediation two_statement_unit
              (s2l "SELECT a FROM t" ++ nl ++
               s2l "  INTO CORRESPONDING FIELDS OF w. WRITE w-a. SELECT b FROM s" ++
               nl ++ s2l "  INTO CORRESPONDING FIELDS OF v. WRITE v-b."))).
  vm_compute. left. reflexivity.
Defined.

(* ================================================================== *)
(** * The synthesized statement as a whole *)

Lemma sub_from_empty_In ic r c l :
  forall b skip, In c (sub_from ic r [] b l skip) -> In c l.
Proof.
  induction l as [|x l IH]; intros b skip H; simpl in H.
  - destruct skip; [|contradiction].
    destruct (match_at ic r b [] 0); contradiction.
  - destruct skip as [|n]; [|right; eapply IH; eauto].
    destruct (match_at ic r b (x :: l) 0) as [m|].
    + simpl in H. destruct (m_end m =? 0).
      * destruct H as [->|H]; [left; reflexivity|right; eapply IH; eauto].
      * right. eapply IH; eauto.
    + destruct H as [->|H]; [left; reflexivity|right; eapply IH; eauto].
Qed.

Lemma lstrip_In c l : In c (lstrip l) -> In c l.
Proof.
  induction l as [|x l IH]; simpl; auto.
  destruct (is_space x); auto.
Qed.

Lemma strip_In c l : In c (strip l) -> In c l.
Proof.
  unfold strip. intros H. apply in_rev, lstrip_In, in_rev, lstrip_In in H.
  exact H.
Qed.

Lemma join_In c sep l :
  In c (join sep l) -> In c sep \/ exists f, In f l /\ In c f.
Proof.
  induction l as [|x l IH]; simpl; [contradiction|].
  destruct l as [|y l].
  - intros H. right. exists x. auto.
  - rewrite !in_app_iff. intros [H|[H|H]].
    + right. exists x. auto.
    + auto.
    + destruct (IH H) as [H'|(f & Hf & Hc)]; [auto|].
      right. exists f. split; [right; exact Hf|exact Hc].
Qed.

Lemma endswith_dot_app l : endswith_dot (l ++ ["."%char]) = true.
Proof. unfold endswith_dot. rewrite rev_app_distr. reflexivity. Qed.

Lemma word_no_dot w : run_of Word w -> ~ In "."%char w.
Proof.
  intros [_ H] Hin. rewrite forallb_forall in H. specialize (H _ Hin).
  discriminate.
Qed.

Lemma split_tail {A} (a b s : list A) x :
  a ++ b = s ++ [x] -> ~ In x a -> exists b0, b = b0 ++ [x] /\ s = a ++ b0.
Proof.
  intros E Hx. destruct (exists_last (l := b)) as (b0 & y & ->).
  - intros ->. rewrite app_nil_r in E. apply Hx. rewrite E.
    apply in_or_app. right. left. reflexivity.
  - rewrite app_assoc in E. apply app_inj_tail in E. destruct E as [E ->].
    exists b0. auto.
Qed.

(** [build_replacement_stmt] on a located statement, with the search for the
    head resolved. *)
Lemma build_replacement_stmt_unfold text table fields tt tn :
  lang true SELECT_STAR_RE text ->
  exists pre mid r',
    text = (pre ++ "*"%char :: mid) ++ r' /\ ~ In "*"%char pre /\
    lang true HEAD_RE (pre ++ "*"%char :: mid) /\
    build_replacement_stmt text table fields tt tn =
    (let head :=
       pre ++ (if nonempty fields then join (s2l " ") (sorted fields)
               else s2l "*") ++ mid in
     let body := if endswith_dot r' then removelast r' else r' in
     let parts :=
       strip (re_sub true INTO_WA_RE [] (re_sub true INTO_TABLE_RE [] body)) in
     match
       match tt with
       | itab => Some (s2l "INTO CORRESPONDING FIELDS OF TABLE " ++ tn)
       | wa => Some (s2l "INTO CORRESPONDING FIELDS OF " ++ tn)
       | implicit => None
       end
     with
     | Some cf =>
         if nonempty parts
         then head ++ parts ++ nl ++ s2l "  " ++ cf ++ s2l "."
         else head ++ nl ++ s2l "  " ++ cf ++ s2l "."
     | None => head ++ parts ++ s2l "."
     end).
Proof.
  intros L. destruct (select_star_head _ L) as (h & r0 & -> & Lh).
  destruct (re_search_head h r0 Lh) as (h' & r' & g & E & Lh' & Hs).
  destruct (head_star_split _ Lh') as (pre & mid & -> & Hpre).
  rewrite E in Hs |- *. clear E L Lh.
  exists pre, mid, r'. repeat split; auto.
  unfold build_replacement_stmt. rewrite Hs. cbv zeta.
  simpl m_start. simpl m_end.
  replace (slice 0 (length (pre ++ "*"%char :: mid))
             ((pre ++ "*"%char :: mid) ++ r'))
    with (pre ++ "*"%char :: mid)
    by (symmetry; apply (slice_app [] (pre ++ "*"%char :: mid) r')).
  rewrite re_sub1_star by exact Hpre.
  rewrite skipn_app, skipn_all, Nat.sub_diag. reflexivity.
Qed.

Lemma find_selects_match txt sel :
  In sel (find_selects txt) ->
  exists m, sel = select_of_match m /\ In m (finditer true SELECT_STAR_RE txt).
Proof.
  unfold find_selects. intros H. apply in_map_iff in H.
  destruct H as (m & <- & Hm). eauto.
Qed.

Lemma into_clause_word body pre nm :
  into_clause body pre nm -> run_of Word nm.
Proof. intros (k1 & b1 & post & _ & _ & _ & _ & H & _). exact H. Qed.

Lemma into_table_clause_word body pre nm :
  into_table_clause body pre nm -> run_of Word nm.
Proof.
  intros (k1 & b1 & k2 & b2 & post & _ & _ & _ & _ & _ & _ & H & _). exact H.
Qed.

Lemma find_selects_target_word txt sel :
  In sel (find_selects txt) -> run_of Word (sel_target_name sel).
Proof.
  intros H. apply find_selects_anatomy in H.
  destruct H as (m & pre & h & wt & body & post & -> & _ & _ & Hwt & _ & _ & ->).
  unfold select_of_match.
  destruct (re_search true INTO_TABLE_RE _) as [mt|] eqn:Et.
  - apply into_table_search in Et. destruct Et as (p & Hc & _).
    eapply into_table_clause_word; eauto.
  - destruct (re_search true INTO_WA_RE _) as [mw|] eqn:Ew.
    + apply into_wa_search in Ew. destruct Ew as (p & Hc & _).
      eapply into_clause_word; eauto.
    + exact Hwt.
Qed.

Lemma find_selects_text_period txt sel :
  In sel (find_selects txt) ->
  exists stmt0, sel_text sel = stmt0 ++ ["."%char] /\ ~ In "."%char stmt0.
Proof.
  intros H. apply find_selects_anatomy in H.
  destruct H as (m & pre & h & wt & body & post & -> & _ & _ & _ & _ & Hd & ->).
  rewrite select_of_match_text. exists (h ++ wt ++ body). split; [|exact Hd].
  unfold group. simpl. repeat rewrite <- app_assoc. reflexivity.
Qed.

(** X11: The statement synthesized for a located statement, from field names
    without period and without backslash, is again one statement: it ends
    with the period and holds no other.  For a work-area or internal-table
    target the normalized receiving clause, on a line of its own, comes
    last.  (The field list is the replacement text of [re.sub]; without
    backslash it is inserted as it is.  The names the harvester collects are
    of this kind.) *)
Theorem synthesized_statement_single txt sel fields :
  In sel (find_selects txt) ->
  Forall (fun f => ~ In "."%char f) fields ->
  plain_names fields ->
  exists stmt,
    build_replacement_stmt (sel_text sel) (sel_table sel) fields
      (sel_target_type sel) (sel_target_name sel) = stmt ++ ["."%char] /\
    ~ In "."%char stmt /\
    match sel_target_type sel with
    | itab =>
        exists x,
          stmt = x ++ nl ++ s2l "  INTO CORRESPONDING FIELDS OF TABLE " ++
                 sel_target_name sel
    | wa =>
        exists x,
          stmt = x ++ nl ++ s2l "  INTO CORRESPONDING FIELDS OF " ++
                 sel_target_name sel
    | implicit => True
    end.
Proof.
  intros Hsel Hf _.
  pose proof (word_no_dot _ (find_selects_target_word _ _ Hsel)) as Htn.
  destruct (find_selects_text_period _ _ Hsel) as (stmt0 & Et & Hd).
  destruct (find_selects_match _ _ Hsel) as (m & Em & Hm).
  assert (L : lang true SELECT_STAR_RE (sel_text sel)).
  { rewrite Em, select_of_match_text. eapply select_star_match_lang; eauto. }
  destruct (build_replacement_stmt_unfold (sel_text sel) (sel_table sel) fields
              (sel_target_type sel) (sel_target_name sel) L)
    as (pre & mid & r' & E & Hpre & Lh & ->).
  assert (Hh : ~ In "."%char (pre ++ "*"%char :: mid))
    by (apply (lang_avoids true "." HEAD_RE eq_refl); exact Lh).
  rewrite Et in E. symmetry in E.
  destruct (split_tail _ _ _ _ E Hh) as (b0 & -> & E0).
  assert (Hb0 : ~ In "."%char b0)
    by (intros Hin; apply Hd; rewrite E0; apply in_or_app; auto).
  rewrite endswith_dot_app, removelast_last. cbv zeta.
  set (parts := strip (re_sub true INTO_WA_RE []
                         (re_sub true INTO_TABLE_RE [] b0))).
  assert (Hparts : ~ In "."%char parts).
  { unfold parts, re_sub. intros Hin.
    apply strip_In, sub_from_empty_In, sub_from_empty_In in Hin. auto. }
  set (explicit := if nonempty fields then join (s2l " ") (sorted fields)
                   else s2l "*").
  assert (Hex : ~ In "."%char explicit).
  { unfold explicit. destruct (nonempty fields).
    - intros Hin. apply join_In in Hin.
      destruct Hin as [Hin|(f & Hfin & Hin)].
      + simpl in Hin. intuition discriminate.
      + rewrite Forall_forall in Hf. apply (Hf f); [|exact Hin].
        eapply Permutation_in; [apply sorted_perm|exact Hfin].
    - simpl. intuition discriminate. }
  assert (Hp : ~ In "."%char pre)
    by (intros Hin; apply Hh; apply in_or_app; auto).
  assert (Hm' : ~ In "."%char mid)
    by (intros Hin; apply Hh; apply in_or_app; right; right; exact Hin).
  assert (Hl1 : ~ In "."%char (nl ++ s2l "  INTO CORRESPONDING FIELDS OF TABLE "))
    by (vm_compute; intuition discriminate).
  assert (Hl2 : ~ In "."%char (nl ++ s2l "  INTO CORRESPONDING FIELDS OF "))
    by (vm_compute; intuition discriminate).
  destruct (sel_target_type sel).
  - destruct (nonempty parts).
    + exists ((pre ++ explicit ++ mid) ++ parts ++ nl ++
              s2l "  INTO CORRESPONDING FIELDS OF TABLE " ++ sel_target_name sel).
      split; [repeat rewrite <- app_assoc; reflexivity|]. split.
      * rewrite !in_app_iff in *. tauto.
      * exists ((pre ++ explicit ++ mid) ++ parts).
        repeat rewrite <- app_assoc. reflexivity.
    + exists ((pre ++ explicit ++ mid) ++ nl ++
              s2l "  INTO CORRESPONDING FIELDS OF TABLE " ++ sel_target_name sel).
      split; [repeat rewrite <- app_assoc; reflexivity|]. split.
      * rewrite !in_app_iff in *. tauto.
      * exists (pre ++ explicit ++ mid).
        repeat rewrite <- app_assoc. reflexivity.
  - destruct (nonempty parts).
    + exists ((pre ++ explicit ++ mid) ++ parts ++ nl ++
              s2l "  INTO CORRESPONDING FIELDS OF " ++ sel_target_name sel).
      split; [repeat rewrite <- app_assoc; reflexivity|]. split.
      * rewrite !in_app_iff in *. tauto.
      * exists ((pre ++ explicit ++ mid) ++ parts).
        repeat rewrite <- app_assoc. reflexivity.
    + exists ((pre ++ explicit ++ mid) ++ nl ++
              s2l "  INTO CORRESPONDING FIELDS OF " ++ sel_target_name sel).
      split; [repeat rewrite <- app_assoc; reflexivity|]. split.
      * rewrite !in_app_iff in *. tauto.
      * exists (pre ++ explicit ++ mid).
        repeat rewrite <- app_assoc. reflexivity.
  - exists ((pre ++ explicit ++ mid) ++ parts).
    split; [repeat rewrite <- app_assoc; reflexivity|]. split; [|exact I].
    rewrite !in_app_iff in *. tauto.
Qed.

Lemma synthesized_statement_single_witness :
  exists stmt,
    build_replacement_stmt (sel_text mara_filter_select)
      (sel_table mara_filter_select) [s2l "matnr"; s2l "ersda"]
      (sel_target_type mara_filter_select)
      (sel_target_name mara_filter_select) = stmt ++ ["."%char] /\
    ~ In "."%char stmt /\
    exists x,
      stmt = x ++ nl ++ s2l "  INTO CORRESPONDING FIELDS OF " ++
             sel_target_name mara_filter_select.
Proof.
  apply (synthesized_statement_single mara_filter_text mara_filter_select
           [s2l "matnr"; s2l "ersda"]).
  - vm_compute. left. reflexivity.
  - repeat constructor; vm_compute; intuition discriminate.
  - repeat constructor; vm_compute; intuition discriminate.
Defined.

(* ================================================================== *)
(** * The flattened corpus and the units *)

Lemma concat_units_app l1 l2 :
  concat_units (l1 ++ l2) = concat_units l1 ++ concat_units l2.
Proof. apply flat_map_app. Qed.

Lemma concat_units_cons u l :
  concat_units (u :: l) = code_or_empty u ++ newline :: concat_units l.
Proof. unfold concat_units. simpl. rewrite <- app_assoc. reflexivity. Qed.

Lemma concat_units_last l :
  ident_opt (lastc None (concat_units l)) = false.
Proof.
  induction l as [|u l IH] using rev_ind; [reflexivity|].
  rewrite concat_units_app, concat_units_cons, lastc_app, lastc_app.
  reflexivity.
Qed.

Lemma lastc_nonempty b b' w : w <> [] -> lastc b w = lastc b' w.
Proof.
  destruct w as [|c w]; [congruence|]. intros _. reflexivity.
Qed.

Lemma hd_error_app_nonempty (w l : str) :
  w <> [] -> hd_error (w ++ l) = hd_error w.
Proof. destruct w; [congruence|reflexivity]. Qed.

Lemma prefix_before_sep (w : str) c :
  forall a b post,
    a ++ c :: b = w ++ post -> ~ In c w ->
    exists x, a = w ++ x /\ post = x ++ c :: b.
Proof.
  induction w as [|d w IH]; intros a b post E Hc.
  - exists a. simpl in E. auto.
  - destruct a as [|a0 a]; simpl in E; inversion E; subst.
    + exfalso. apply Hc. left. reflexivity.
    + destruct (IH a b post H1) as (x & -> & ->).
      * intros Hin. apply Hc. right. exact Hin.
      * exists x. auto.
Qed.

Lemma split_at_sep (w : str) c :
  forall a b pre post,
    a ++ c :: b = pre ++ w ++ post -> ~ In c w ->
    (exists x, a = pre ++ w ++ x /\ post = x ++ c :: b) \/
    (exists y, pre = a ++ c :: y /\ b = y ++ w ++ post).
Proof.
  induction a as [|a0 a IH]; intros b pre post E Hc.
  - destruct pre as [|p pre]; simpl in E.
    + left. destruct (prefix_before_sep w c [] b post E Hc) as (x & Ea & Ep).
      exists x. auto.
    + inversion E; subst. right. exists pre. auto.
  - destruct pre as [|p pre]; simpl in E.
    + left. apply (prefix_before_sep w c (a0 :: a) b post E Hc).
    + inversion E; subst.
      destruct (IH b pre post H1 Hc) as [(x & -> & ->)|(y & -> & ->)].
      * left. exists x. auto.
      * right. exists y. auto.
Qed.

Lemma ident_run_no_newline f :
  forallb (cset_mem Ident) f = true -> ~ In newline f.
Proof.
  intros H Hin. rewrite forallb_forall in H. specialize (H _ Hin).
  discriminate.
Qed.

(** X12: Unit boundaries neither make nor break a component access: for a name
    without line break, the flattened corpus holds the access [n-f] exactly
    when the code of one of the units holds it.  So a statement of one unit
    gets its evidence from every unit of the batch. *)
Theorem access_in_corpus_iff_in_unit units n f :
  ~ In newline n ->
  (component_access (concat_units units) n f <->
   exists u, In u units /\ component_access (code_or_empty u) n f).
Proof.
  intros Hn. split.
  - induction units as [|u units IH].
    + intros (pre & post & E & _). simpl in E.
      destruct pre; [destruct n|]; discriminate.
    + rewrite concat_units_cons. intros (pre & post & E & Hf & Hb & Ha).
      change (pre ++ n ++ "-"%char :: f ++ post)
        with (pre ++ n ++ ("-"%char :: f) ++ post) in E.
      rewrite (app_assoc n) in E.
      apply split_at_sep in E.
      * destruct E as [(x & Ec & Ep)|(y & Ep & Ec)].
        -- exists u. split; [left; reflexivity|].
           exists pre, x. split; [|split; [exact Hf|split; [exact Hb|]]].
           ++ rewrite Ec, <- app_assoc. reflexivity.
           ++ destruct x as [|x0 x]; [reflexivity|]. subst post. exact Ha.
        -- destruct IH as (u' & Hu & Hacc).
           ++ exists y, post. split; [|split; [exact Hf|split; [|exact Ha]]].
              ** rewrite Ec, <- app_assoc. reflexivity.
              ** destruct y as [|y0 y]; [reflexivity|]. subst pre.
                 rewrite lastc_app in Hb.
                 change (newline :: y0 :: y) with ([newline] ++ y0 :: y) in Hb.
                 rewrite lastc_app in Hb.
                 rewrite (lastc_nonempty _ None) in Hb by discriminate.
                 exact Hb.
           ++ exists u'. split; [right; exact Hu|exact Hacc].
      * rewrite in_app_iff. intros [Hin|[Hin|Hin]].
        -- exact (Hn Hin).
        -- discriminate.
        -- exact (ident_run_no_newline f (proj2 Hf) Hin).
  - intros (u & Hu & pre & post & E & Hf & Hb & Ha).
    apply in_split in Hu. destruct Hu as (l1 & l2 & ->).
    rewrite concat_units_app, concat_units_cons, E.
    exists (concat_units l1 ++ pre), (post ++ newline :: concat_units l2).
    split; [|split; [exact Hf|split]].
    + repeat rewrite <- app_assoc. simpl. repeat rewrite <- app_assoc.
      reflexivity.
    + rewrite lastc_app. destruct pre as [|p pre].
      * apply concat_units_last.
      * rewrite (lastc_nonempty _ None) by discriminate. exact Hb.
    + destruct post as [|p post]; [reflexivity|exact Ha].
Qed.

Lemma access_in_corpus_iff_in_unit_witness :
  component_access (concat_units cross_units) (s2l "w") (s2l "a") <->
  exists u, In u cross_units /\ component_access (code_or_empty u) (s2l "w") (s2l "a").
Proof.
  apply (access_in_corpus_iff_in_unit cross_units (s2l "w") (s2l "a")).
  vm_compute. intuition discriminate.
Defined.

(** X13: A dynamic component access written in one unit is found in the
    flattened corpus, so it makes ambiguous the statements of every unit
    that have its operand among their candidate names. *)
Theorem dynamic_access_in_unit_counts units u n :
  In u units ->
  assigns_component_of (code_or_empty u) n ->
  assigns_component_of (concat_units units) n.
Proof.
  intros Hu (pre & k1 & b1 & k2 & b2 & comp & b3 & k3 & b4 & k4 & b5 & n' &
             post & E & H1 & H2 & H3 & H4 & H5 & H6 & H7 & H8 & H9 & H10 &
             H11 & H12).
  apply in_split in Hu. destruct Hu as (l1 & l2 & ->).
  rewrite concat_units_app, concat_units_cons, E.
  exists (concat_units l1 ++ pre), k1, b1, k2, b2, comp, b3, k3, b4, k4, b5, n',
    (post ++ newline :: concat_units l2).
  split; [repeat rewrite <- app_assoc; reflexivity|].
  repeat (split; [assumption|]).
  destruct post as [|p post]; exact H12.
Qed.

Lemma dynamic_access_in_unit_counts_witness :
  assigns_component_of (concat_units vbak_units) (s2l "wa_vbak").
Proof.
  apply (dynamic_access_in_unit_counts vbak_units
           (unit_of "ASSIGN COMPONENT lv_name OF STRUCTURE wa_vbak TO <fs>.")).
  - right. left. reflexivity.
  - exists [], (s2l "ASSIGN"), (s2l " "), (s2l "COMPONENT"), (s2l " "),
      (s2l "lv_name"), (s2l " "), (s2l "OF"), (s2l " "), (s2l "STRUCTURE"),
      (s2l " "), (s2l "wa_vbak"), (s2l " TO <fs>.").
    vm_compute. repeat split; discriminate.
Defined.
(* ================================================================== *)
(** * The locator of the earlier iteration *)
Lemma rmatch_reaches_period r A (k : mstate -> option A) b u post g :
  plain r = true -> lang true r u ->
  (forall b' g', k (MState b' ("."%char :: post) g') <> None) ->
  rmatch true r A k (MState b (u ++ "."%char :: post) g) <> None.
Proof.
  intros P L Hk. destruct (lang_Matches true r u L b ("."%char :: post) g) as (g' & M).
  apply (rmatch_complete true r A k _ _ M). apply Hk.
Qed.

Lemma rmatch_found_period r A (k : mstate -> option A) s a :
  plain r = true ->
  (forall s', k s' <> None -> exists post, rest s' = "."%char :: post) ->
  rmatch true r A k s = Some a ->
  exists u post, rest s = u ++ "."%char :: post.
Proof.
  intros P Hk H. apply rmatch_sound in H. destruct H as (s' & M & Hs).
  destruct (Matches_lang true r P _ _ M) as (w & E & _).
  destruct (Hk s') as (post & Ep); [congruence|].
  exists w, post. rewrite E, Ep. reflexivity.
Qed.

Lemma period_cont_inv A (k0 : mstate -> option A) b r g :
  rmatch true (Lit ".") A k0 (MState b r g) <> None ->
  exists post, r = "."%char :: post.
Proof.
  rewrite rmatch_Lit. destruct r as [|x post]; [congruence|].
  destruct (chr_eq true "." x) eqn:Ex; [|congruence].
  apply chr_eq_dot in Ex. subst x. eauto.
Qed.

Lemma rmatch_Opt ic r A (k : mstate -> option A) s :
  rmatch ic (Opt r) A k s =
  match rmatch ic r A k s with Some a => Some a | None => k s end.
Proof. reflexivity. Qed.

Lemma forallb_any w : forallb (cset_mem Any) w = true.
Proof. apply forallb_forall. reflexivity. Qed.

(** What the pattern of [app_V2.py] matches at a position: the head with
    the table name, a text without period in the group [tail], and the
    period; the group [middle] is empty and the INTO groups are not set. *)
Lemma V2_select_star_match_at b l pos m :
  match_at true V2.SELECT_STAR_RE b l pos = Some m ->
  exists h wt tl post,
    l = h ++ wt ++ tl ++ "."%char :: post /\
    lang true HEAD_RE (h ++ wt) /\
    ~ In "."%char (h ++ wt ++ tl) /\
    m = Match pos (pos + length (h ++ wt ++ tl ++ ["."%char]))
          [("full"%string, h ++ wt ++ tl); ("tail"%string, tl);
           ("middle"%string, []); ("table"%string, wt)].
Proof.
  unfold match_at, V2.SELECT_STAR_RE. intros H.
  rewrite rmatch_Cat, rmatch_Grp in H.
  peel H w1 l1 E1 L1. peel H w2 l2 E2 L2. peel H w3 l3 E3 L3.
  peel H w4 l4 E4 L4. peel H w5 l5 E5 L5. peel H w6 l6 E6 L6.
  peel H w7 l7 E7 L7.
  rewrite rmatch_Cat, rmatch_Grp in H. unfold Plus in H.
  peel H w8 l8 E8 L8. destruct L8 as (c0 & Hc0 & ->).
  rewrite rmatch_Star in H. cbn [before rest caps] in H.
  apply star_greedy_maximal in H.
  destruct H as (wr & l9 & E9 & Hwr & H & Hmax).
  cbn [before rest caps] in H, Hmax.
  rewrite rmatch_Cat, rmatch_Grp, rmatch_LazyStar in H.
  cbn [before rest caps] in H.
  apply star_lazy_minimal in H.
  destruct H as (mid & l10 & E10 & _ & Hk & Hmin).
  cbn [before rest caps] in Hk.
  assert (Hdot : exists u post, l10 = u ++ "."%char :: post).
  { revert Hk. 
    match goal with
    | |- rmatch true ?r ?A ?k ?s = Some m -> _ =>
        intros Hk; apply (rmatch_found_period r A k s m eq_refl); [|exact Hk]
    end.
    intros s'. apply period_cont_inv. }
  destruct Hdot as (u & post & E11).
  assert (Hmid : mid = []).
  { destruct mid as [|c w9]; [reflexivity|]. exfalso.
    specialize (Hmin [] c w9 eq_refl). cbn [before rest caps] in Hmin.
    revert Hmin. subst l10.
    change (c :: w9 ++ u ++ "."%char :: post)
      with ((c :: w9) ++ u ++ "."%char :: post).
    rewrite app_assoc.
    match goal with
    | |- rmatch true ?r ?A ?k (MState ?b0 _ ?g0) = None -> False =>
        apply (rmatch_reaches_period r A k b0 ((c :: w9) ++ u) post g0 eq_refl)
    end.
    - exists [], ((c :: w9) ++ u). split; [reflexivity|]. split; [right; reflexivity|].
      apply forallb_any.
    - intros b' g'. cbn [before rest caps]. rewrite rmatch_Lit.
      change (chr_eq true "." ".") with true. cbn beta iota. discriminate. }
  subst mid. cbn [app lastc] in *. subst l10.
  assert (Hnw : word_opt (hd_error l9) = false).
  { rewrite E11. destruct u as [|c u']; [reflexivity|]. simpl.
    destruct (is_word c) eqn:Hc; [|reflexivity]. exfalso.
    assert (Hw : forallb (cset_mem Word) [c] = true)
      by (simpl; rewrite Hc; reflexivity).
    specialize (Hmax [c] (u' ++ "."%char :: post) E11 ltac:(discriminate) Hw).
    revert Hmax.
    match goal with
    | |- rmatch true ?r ?A ?k (MState ?b0 _ ?g0) = None -> False =>
        apply (rmatch_reaches_period r A k b0 u' post g0 eq_refl)
    end.
    - exists [], u'. split; [reflexivity|]. split; [apply forallb_any|].
      exists [], u'. split; [reflexivity|]. split; [right; reflexivity|].
      apply forallb_any.
    - intros b' g'. cbn [before rest caps]. rewrite rmatch_Lit.
      change (chr_eq true "." ".") with true. cbn beta iota. discriminate. }
  clear Hmax Hmin.
  rewrite rmatch_Cat, rmatch_Opt in Hk.
  match type of Hk with
  | match ?x with _ => _ end = _ => destruct x as [a|] eqn:Ha
  end.
  - exfalso. apply rmatch_sound in Ha. destruct Ha as (s1 & M & _).
    apply Matches_lang in M; [|reflexivity]. destruct M as (w & Ew & Lw).
    cbn [before rest caps] in Ew.
    assert (Hx : exists x w', w = x :: w' /\ is_word x = true).
    { destruct Lw as [Lw|Lw];
        destruct Lw as (k1 & t1 & -> & Lk & _);
        destruct Lk as (a1 & a2 & -> & (x & Hx & ->) & _);
        exists x, (a2 ++ t1); (split; [reflexivity|]);
        revert Hx; clear; destruct x as [[] [] [] [] [] [] [] []];
        vm_compute; intros H; try discriminate; reflexivity. }
    destruct Hx as (x & w' & -> & Hx). rewrite Ew in Hnw. simpl in Hnw.
    congruence.
  - rewrite rmatch_Grp, rmatch_LazyStar in Hk. cbn [before rest caps] in Hk.
    apply star_lazy_minimal in Hk.
    destruct Hk as (tl & l11 & E12 & _ & Hk & Hmin).
    cbn [before rest caps] in Hk. rewrite rmatch_Lit in Hk.
    destruct l11 as [|x post']; [discriminate|].
    destruct (chr_eq true "." x) eqn:Ex; [|discriminate].
    apply chr_eq_dot in Ex. subst x.
    cbn [before rest caps] in Hk. inversion Hk as [Hm]. clear Hk Hm.
    clear E11 Hnw Ha. subst l l1 l2 l3 l4 l5 l6 l7 l8 l9.
    set (h := w1 ++ w2 ++ w3 ++ w4 ++ w5 ++ w6 ++ w7).
    set (wt := c0 :: wr).
    assert (Lh : lang true HEAD_RE (h ++ wt)).
    { unfold h, HEAD_RE. repeat rewrite <- app_assoc. do 7 build_cat.
      exists [c0], wr. split; [reflexivity|]. split; [exists c0; auto|exact Hwr]. }
    assert (El : w1 ++ w2 ++ w3 ++ w4 ++ w5 ++ w6 ++ w7 ++ c0 :: wr ++
                 tl ++ "."%char :: post' =
                 (h ++ wt ++ tl) ++ "."%char :: post').
    { unfold h, wt. repeat rewrite <- app_assoc. reflexivity. }
    exists h, wt, tl, post'. split; [|split; [exact Lh|split]].
    + rewrite El. repeat rewrite <- app_assoc. reflexivity.
    + rewrite app_assoc, in_app_iff. intros [Hin|Hin].
      * revert Hin. apply (lang_avoids true "." HEAD_RE eq_refl). exact Lh.
      * apply in_split in Hin. destruct Hin as (t1 & t2 & Et).
        specialize (Hmin t1 "."%char t2 Et).
        cbn [before rest caps] in Hmin. rewrite rmatch_Lit in Hmin.
        change (chr_eq true "." ".") with true in Hmin. discriminate.
    + rewrite El. change (S (length post')) with (length ("."%char :: post')).
      rewrite (firstn_app_exact (h ++ wt ++ tl) ("."%char :: post')).
      rewrite (firstn_app_exact tl ("."%char :: post')).
      rewrite Nat.sub_diag.
      change (c0 :: wr ++ tl ++ "."%char :: post')
        with (wt ++ tl ++ "."%char :: post').
      rewrite (firstn_app_exact wt (tl ++ "."%char :: post')).
      replace (length ((h ++ wt ++ tl) ++ "."%char :: post') - length post')
        with (length (h ++ wt ++ tl ++ ["."%char])); [reflexivity|].
      rewrite (length_app (h ++ wt ++ tl)), (app_assoc h), (app_assoc (h ++ wt)).
      rewrite (length_app ((h ++ wt) ++ tl)), <- (app_assoc h). simpl length. lia.
Qed.

(** X14: The locator of [app_V2.py] reports every statement as implicit, also
    one that has a receiving clause: the lazy [middle] group is tried empty
    first, right behind the table name, where no INTO can start; the optional
    INTO group is skipped and [tail] runs up to the period. *)
Theorem V2_locator_reports_implicit_only txt sel :
  In sel (V2.find_selects txt) ->
  sel_target_type sel = implicit /\ sel_target_name sel = sel_table sel.
Proof.
  unfold V2.find_selects. intros H. apply in_map_iff in H.
  destruct H as (m & <- & Hm). apply finditer_from_In in Hm.
  destruct Hm as (pre & l' & _ & Hm). simpl in Hm.
  apply V2_select_star_match_at in Hm.
  destruct Hm as (h & wt & tl & post & _ & _ & _ & ->).
  split; reflexivity.
Qed.

Lemma V2_locator_reports_implicit_only_witness :
  sel_target_type V2_into_table_select = implicit /\
  sel_target_name V2_into_table_select = sel_table V2_into_table_select.
Proof.
  apply (V2_locator_reports_implicit_only V2_into_table_text
           V2_into_table_select).
  vm_compute. left. reflexivity.
Defined.


(** X15: In [app_V2.py] the statement text of a located statement stops before
    the period, and the rewriting changes nothing but the wildcard: for
    field names without backslash (which [re.sub] inserts as they are) the
    synthesized statement is the located text with its first asterisk
    replaced by the sorted field names, and carries no terminating period
    of its own. *)
Theorem V2_rewrite_swaps_wildcard txt sel fields :
  In sel (V2.find_selects txt) ->
  plain_names fields ->
  exists pre rest0,
    sel_text sel = pre ++ "*"%char :: rest0 /\
    ~ In "*"%char pre /\
    ~ In "."%char (sel_text sel) /\
    V2.build_replacement_stmt (sel_text sel) (sel_table sel) fields
      (sel_target_type sel) (sel_target_name sel) =
    pre ++ join (s2l " ") (sorted fields) ++ rest0.
Proof.
  unfold V2.find_selects. intros H _. apply in_map_iff in H.
  destruct H as (m & <- & Hm). apply finditer_from_In in Hm.
  destruct Hm as (pre0 & l' & _ & Hm). simpl in Hm.
  apply V2_select_star_match_at in Hm.
  destruct Hm as (h & wt & tl & post & _ & Lh & Hd & ->).
  change (sel_text (V2.select_of_match _)) with (h ++ wt ++ tl).
  change (sel_target_type (V2.select_of_match _)) with implicit.
  revert Hd. rewrite (app_assoc h wt tl). intros Hd.
  destruct (re_search_head (h ++ wt) tl Lh) as (h' & r' & g & E & Lh' & Hs).
  destruct (head_star_split _ Lh') as (pre & mid & -> & Hpre).
  rewrite E in Hs, Hd |- *.
  exists pre, (mid ++ r'). split; [|split; [exact Hpre|split; [exact Hd|]]].
  - rewrite <- app_assoc. reflexivity.
  - unfold V2.build_replacement_stmt. rewrite Hs. cbv zeta.
    simpl m_start. simpl m_end.
    replace (slice 0 (length (pre ++ "*"%char :: mid))
               ((pre ++ "*"%char :: mid) ++ r'))
      with (pre ++ "*"%char :: mid)
      by (symmetry; apply (slice_app [] (pre ++ "*"%char :: mid) r')).
    rewrite re_sub1_star by exact Hpre.
    rewrite skipn_app, skipn_all, Nat.sub_diag.
    repeat rewrite <- app_assoc. reflexivity.
Qed.

Lemma V2_rewrite_swaps_wildcard_witness :
  exists pre rest0,
    sel_text V2_into_table_select = pre ++ "*"%char :: rest0 /\
    ~ In "*"%char pre /\
    ~ In "."%char (sel_text V2_into_table_select) /\
    V2.build_replacement_stmt (sel_text V2_into_table_select)
      (sel_table V2_into_table_select) [s2l "matnr"]
      (sel_target_type V2_into_table_select)
      (sel_target_name V2_into_table_select) =
    pre ++ join (s2l " ") (sorted [s2l "matnr"]) ++ rest0.
Proof.
  apply (V2_rewrite_swaps_wildcard V2_into_table_text V2_into_table_select
           [s2l "matnr"]).
  - vm_compute. left. reflexivity.
  - repeat constructor; vm_compute; intuition discriminate.
Defined.
